(** * cuantopongo: balances and settlement suggestions of [src/app/page.tsx]

    The page keeps a list of people and a list of shared expenses and derives
    from them, with two [useMemo] blocks, a balance per person and a list of
    suggested transfers.  This file embeds those two computations and the
    handlers of the page, and proves or corrects the properties the
    specification states about them.

    The code is embedded twice.

    [Js] follows the code with the values it computes with.  A [number] is
    an IEEE 754 binary64 value, with rounding, infinities and NaN.  The
    balance object is a plain object: its own keys with their values, the
    members it inherits from [Object.prototype], and [Object.keys], which
    lists the keys that are array indices first.  What the page does with
    amounts that overflow, with ids such as [constructor] or [__proto__], and
    when its loop does not end, is stated on [Js].

    The definitions outside [Js] follow the same lines of code with exact
    rationals [Q] and an association list in the order of creation of the
    keys.  They are used for the handlers, and for statements about the two
    computations whose truth does not depend on rounding: these are stated
    with comparisons, with [==] between amounts computed in the same way, and
    on condition that the loop returns. *)

From Stdlib Require Import List String Bool Arith ZArith QArith Qminmax Lia Lqa.
From Stdlib Require Import Permutation Qabs Sorted.
From Stdlib Require Import Floats.
Import ListNotations.

Set Warnings "-inexact-float".

Open Scope Q_scope.

(** ** Data model *)

Module Person.
Record t := mk { id : string; nombre : string }.
End Person.

Module Expense.
Record t := mk {
  id : string;
  descripcion : string;
  monto : Q;
  pagadorId : string;
  participantes : list string;
  fecha : string
}.
End Expense.

Record AppState := mkAppState {
  personas : list Person.t;
  gastos : list Expense.t;
  moneda : string;
  version : nat
}.

(** ** Numbers *)

(** [n] as a [number], for [participantes.length]. *)
Definition Qnat (n : nat) : Q := inject_Z (Z.of_nat n).

(** [x < y] on numbers. *)
Definition Qltb (x y : Q) : bool := negb (Qle_bool y x).

(** The tolerance [0.005] of the settlement computation. *)
Definition tol : Q := 5 # 1000.

(** ** The balance object *)

Definition Balances := list (string * Q).

(** [b[k]]; [None] is [undefined]. *)
Fixpoint get (b : Balances) (k : string) : option Q :=
  match b with
  | [] => None
  | (k', v) :: b' => if String.eqb k' k then Some v else get b' k
  end.

(** [b[k] ?? 0]. *)
Definition get0 (b : Balances) (k : string) : Q :=
  match get b k with
  | Some v => v
  | None => 0
  end.

(** [b[k] = v]: an existing key keeps its place, a new key goes last. *)
Fixpoint set (b : Balances) (k : string) (v : Q) : Balances :=
  match b with
  | [] => [(k, v)]
  | (k', v') :: b' =>
      if String.eqb k' k then (k', v) :: b' else (k', v') :: set b' k v
  end.

(** [Object.keys(b)]. *)
Definition keys (b : Balances) : list string := map fst b.

(** The sum of the values of every key. *)
Definition sum_values (b : Balances) : Q :=
  fold_right (fun kv acc => snd kv + acc) 0 b.

(** ** [balances] *)

(** [g.participantes.includes(k)]. *)
Definition includes (l : list string) (k : string) : bool :=
  existsb (String.eqb k) l.

(** The guard [g.monto <= 0 || g.participantes.length === 0] of the loop over
    the expenses. *)
Definition skipped (g : Expense.t) : bool :=
  Qle_bool (Expense.monto g) 0 || (List.length (Expense.participantes g) =? 0)%nat.

Definition share_of (g : Expense.t) : Q :=
  Expense.monto g / Qnat (List.length (Expense.participantes g)).

(** The body of [for (const pid of g.participantes)]. *)
Definition apply_participante (g : Expense.t) (share : Q)
    (b : Balances) (pid : string) : Balances :=
  if String.eqb pid (Expense.pagadorId g)
  then set b pid (get0 b pid + (Expense.monto g - share))
  else set b pid (get0 b pid - share).

(** What one pass of that loop adds to [b[pid]]. *)
Definition branch_amount (g : Expense.t) (share : Q) (pid : string) : Q :=
  if String.eqb pid (Expense.pagadorId g)
  then Expense.monto g - share
  else - share.

(** The body of [for (const g of state.gastos)]. *)
Definition apply_gasto (b : Balances) (g : Expense.t) : Balances :=
  if skipped g then b
  else
    let share := share_of g in
    let b1 := fold_left (apply_participante g share) (Expense.participantes g) b in
    if includes (Expense.participantes g) (Expense.pagadorId g)
    then b1
    else set b1 (Expense.pagadorId g) (get0 b1 (Expense.pagadorId g) + Expense.monto g).

(** What the expense [g] adds to the balance of [pid]: once per occurrence
    of [pid] in [g.participantes] the amount of the matching branch, and the
    whole [monto] for a payer that is not among the participants. *)
Definition contrib (g : Expense.t) (pid : string) : Q :=
  if skipped g then 0
  else
    Qnat (count_occ string_dec (Expense.participantes g) pid)
      * (if String.eqb pid (Expense.pagadorId g)
         then Expense.monto g - share_of g
         else - share_of g)
    + (if String.eqb pid (Expense.pagadorId g)
          && negb (includes (Expense.participantes g) (Expense.pagadorId g))
       then Expense.monto g
       else 0).

Definition total_contrib (gs : list Expense.t) (pid : string) : Q :=
  fold_right (fun g acc => contrib g pid + acc) 0 gs.

(** [pid] is the payer or a participant of an expense that is not skipped. *)
Definition touches (g : Expense.t) (pid : string) : bool :=
  negb (skipped g)
  && (String.eqb pid (Expense.pagadorId g) || includes (Expense.participantes g) pid).

(** [state.personas.forEach((p) => (b[p.id] = 0))]. *)
Definition init_balances (ps : list Person.t) : Balances :=
  fold_left (fun b p => set b (Person.id p) 0) ps [].

Definition balances (ps : list Person.t) (gs : list Expense.t) : Balances :=
  fold_left apply_gasto gs (init_balances ps).

(** ** [settlements] *)

Module Entry.
Record t := mk { id : string; amount : Q }.
End Entry.

Module Move.
Record t := mk { fromId : string; toId : string; amount : Q }.
End Move.

(** The loop over [Object.keys(balances)] that fills [debtors] and
    [creditors]; both arrays grow with [push]. *)
Fixpoint classify (b : Balances) : list Entry.t * list Entry.t :=
  match b with
  | [] => ([], [])
  | (pid, v) :: b' =>
      let (ds, cs) := classify b' in
      if Qltb v (- tol) then (Entry.mk pid (- v) :: ds, cs)
      else if Qltb tol v then (ds, Entry.mk pid v :: cs)
      else (ds, cs)
  end.

(** [l.sort((a, b) => b.amount - a.amount)]: descending by amount; the sort
    of an array is stable, so entries of equal amount keep their order. *)
Fixpoint insert_desc (e : Entry.t) (l : list Entry.t) : list Entry.t :=
  match l with
  | [] => [e]
  | x :: l' =>
      if Qltb (Entry.amount e) (Entry.amount x)
      then x :: insert_desc e l'
      else e :: x :: l'
  end.

Fixpoint sort_desc (l : list Entry.t) : list Entry.t :=
  match l with
  | [] => []
  | e :: l' => insert_desc e (sort_desc l')
  end.

Definition debtors_of (b : Balances) : list Entry.t := sort_desc (fst (classify b)).
Definition creditors_of (b : Balances) : list Entry.t := sort_desc (snd (classify b)).

(** [l[i] = e] for an index in range. *)
Fixpoint set_nth (l : list Entry.t) (i : nat) (e : Entry.t) : list Entry.t :=
  match l, i with
  | [], _ => []
  | _ :: l', O => e :: l'
  | x :: l', S i' => x :: set_nth l' i' e
  end.

(** The variables of the [while] loop. *)
Record Loop := mkLoop {
  debtors : list Entry.t;
  creditors : list Entry.t;
  i : nat;
  j : nat;
  moves : list Move.t
}.

(** One pass through the loop: [None] when the condition
    [i < debtors.length && j < creditors.length] is false. *)
Definition loop_body (st : Loop) : option Loop :=
  match nth_error (debtors st) (i st), nth_error (creditors st) (j st) with
  | Some d, Some c =>
      let pay := Qmin (Entry.amount d) (Entry.amount c) in
      let d' := Entry.mk (Entry.id d) (Entry.amount d - pay) in
      let c' := Entry.mk (Entry.id c) (Entry.amount c - pay) in
      Some {| debtors := set_nth (debtors st) (i st) d';
              creditors := set_nth (creditors st) (j st) c';
              i := if Qle_bool (Entry.amount d') tol then S (i st) else i st;
              j := if Qle_bool (Entry.amount c') tol then S (j st) else j st;
              moves := moves st ++ [Move.mk (Entry.id d) (Entry.id c) pay] |}
  | _, _ => None
  end.

(** The [while] loop, run for at most [fuel] passes. *)
Fixpoint while (fuel : nat) (st : Loop) : option Loop :=
  match loop_body st with
  | None => Some st
  | Some st' =>
      match fuel with
      | O => None
      | S fuel' => while fuel' st'
      end
  end.

Definition loop_start (b : Balances) : Loop :=
  {| debtors := debtors_of b; creditors := creditors_of b;
     i := 0; j := 0; moves := [] |}.

(** The transfers computed from the balance object [b]; the loop is given
    as many passes as there are debtors and creditors. *)
Definition settlements (b : Balances) : option (list Move.t) :=
  option_map moves
    (while (List.length (debtors_of b) + List.length (creditors_of b)) (loop_start b)).

(** The sum of the amounts of a list of transfers. *)
Definition total_moves (ms : list Move.t) : Q :=
  fold_right (fun m acc => Move.amount m + acc) 0 ms.

(** A transfer carried out on a balance object: the debtor's balance rises
    by the amount, the creditor's falls by it. *)
Definition apply_move (b : Balances) (m : Move.t) : Balances :=
  let b1 := set b (Move.fromId m) (get0 b (Move.fromId m) + Move.amount m) in
  set b1 (Move.toId m) (get0 b1 (Move.toId m) - Move.amount m).

Definition apply_moves (b : Balances) (ms : list Move.t) : Balances :=
  fold_left apply_move ms b.

(** The sum of the positive balances, and of the absolute values of the
    negative ones. *)
Definition sum_positive (b : Balances) : Q :=
  fold_right (fun kv acc => (if Qltb 0 (snd kv) then snd kv else 0) + acc) 0 b.

Definition sum_negative (b : Balances) : Q :=
  fold_right (fun kv acc => (if Qltb (snd kv) 0 then - snd kv else 0) + acc) 0 b.

(** ** [removePersona] *)

(** The expense [g] with [id] filtered out of its participants. *)
Definition without (id : string) (g : Expense.t) : Expense.t :=
  {| Expense.id := Expense.id g;
     Expense.descripcion := Expense.descripcion g;
     Expense.monto := Expense.monto g;
     Expense.pagadorId := Expense.pagadorId g;
     Expense.participantes :=
       filter (fun pid => negb (String.eqb pid id)) (Expense.participantes g);
     Expense.fecha := Expense.fecha g |}.

(** The state update of [removePersona(id)]. *)
Definition removePersona (id : string) (s : AppState) : AppState :=
  {| personas := filter (fun p => negb (String.eqb (Person.id p) id)) (personas s);
     gastos := filter (fun g => negb (String.eqb (Expense.pagadorId g) id))
                 (map (without id) (gastos s));
     moneda := moneda s;
     version := version s |}.

(** ** The loop seen from the cursors

    The loop reads and writes [debtors] only at [i] and beyond, and
    [creditors] only at [j] and beyond.  [pairing] is the same loop on the
    two remaining suffixes [debtors.slice(i)] and [creditors.slice(j)]; it
    returns the transfers pushed from there on.  [while_pairing] below shows
    that the two agree. *)
Fixpoint pairing (fuel : nat) (ds cs : list Entry.t) : option (list Move.t) :=
  match ds, cs with
  | d :: ds', c :: cs' =>
      match fuel with
      | O => None
      | S fuel' =>
          let pay := Qmin (Entry.amount d) (Entry.amount c) in
          let d' := Entry.mk (Entry.id d) (Entry.amount d - pay) in
          let c' := Entry.mk (Entry.id c) (Entry.amount c - pay) in
          option_map (cons (Move.mk (Entry.id d) (Entry.id c) pay))
            (pairing fuel'
               (if Qle_bool (Entry.amount d') tol then ds' else d' :: ds')
               (if Qle_bool (Entry.amount c') tol then cs' else c' :: cs'))
      end
  | _, _ => Some []
  end.

(** The runs of the loop as a relation: [Pairs ds cs ms] when the loop,
    started on the suffixes [ds] and [cs], pushes the transfers [ms].  One
    rule for each way the loop ends and for each way one pass moves the
    cursors. *)
Inductive Pairs : list Entry.t -> list Entry.t -> list Move.t -> Prop :=
| Pairs_no_debtor (cs : list Entry.t) : Pairs [] cs []
| Pairs_no_creditor (ds : list Entry.t) : Pairs ds [] []
| Pairs_both (d c : Entry.t) (ds cs : list Entry.t) (pay : Q) (rest : list Move.t) :
    pay = Qmin (Entry.amount d) (Entry.amount c) ->
    Entry.amount d - pay <= tol ->
    Entry.amount c - pay <= tol ->
    Pairs ds cs rest ->
    Pairs (d :: ds) (c :: cs) (Move.mk (Entry.id d) (Entry.id c) pay :: rest)
| Pairs_debtor (d c : Entry.t) (ds cs : list Entry.t) (pay : Q) (rest : list Move.t) :
    pay = Qmin (Entry.amount d) (Entry.amount c) ->
    Entry.amount d - pay <= tol ->
    tol < Entry.amount c - pay ->
    Pairs ds (Entry.mk (Entry.id c) (Entry.amount c - pay) :: cs) rest ->
    Pairs (d :: ds) (c :: cs) (Move.mk (Entry.id d) (Entry.id c) pay :: rest)
| Pairs_creditor (d c : Entry.t) (ds cs : list Entry.t) (pay : Q) (rest : list Move.t) :
    pay = Qmin (Entry.amount d) (Entry.amount c) ->
    tol < Entry.amount d - pay ->
    Entry.amount c - pay <= tol ->
    Pairs (Entry.mk (Entry.id d) (Entry.amount d - pay) :: ds) cs rest ->
    Pairs (d :: ds) (c :: cs) (Move.mk (Entry.id d) (Entry.id c) pay :: rest).

(** The sum of the amounts of a list of entries. *)
Definition total_entries (l : list Entry.t) : Q :=
  fold_right (fun e acc => Entry.amount e + acc) 0 l.

(** What the entries of [l] with id [x] amount to, and how many there are. *)
Definition owed (l : list Entry.t) (x : string) : Q :=
  fold_right (fun e acc => (if String.eqb (Entry.id e) x then Entry.amount e else 0) + acc) 0 l.

Definition entries_of (l : list Entry.t) (x : string) : nat :=
  List.length (filter (fun e => String.eqb (Entry.id e) x) l).

(** What [x] pays and receives in a list of transfers. *)
Definition paid_by (x : string) (ms : list Move.t) : Q :=
  fold_right (fun m acc => (if String.eqb (Move.fromId m) x then Move.amount m else 0) + acc) 0 ms.

Definition received_by (x : string) (ms : list Move.t) : Q :=
  fold_right (fun m acc => (if String.eqb (Move.toId m) x then Move.amount m else 0) + acc) 0 ms.

(** ** Sample data *)

Definition ex_A : string := "A".
Definition ex_B : string := "B".
Definition ex_T : string := "T".
Definition ex_X : string := "X".
Definition ex_Y : string := "Y".

Definition ex_personas : list Person.t :=
  [Person.mk ex_A "Ana"; Person.mk ex_B "Luis"; Person.mk ex_T "Tu"].

Definition ex_taxi : Expense.t :=
  Expense.mk "g1" "Taxi" 30 ex_T [ex_A; ex_B] "2024-01-01".

(** An expense whose participant array names the payer twice. *)
Definition ex_twice : Expense.t :=
  Expense.mk "g2" "Cena" 10 ex_A [ex_A; ex_A] "2024-01-02".

(** An expense of amount zero and one without participants. *)
Definition ex_zero : Expense.t :=
  Expense.mk "g3" "Nada" 0 ex_A [ex_A; ex_B] "2024-01-03".

Definition ex_nobody : Expense.t :=
  Expense.mk "g4" "Nadie" 12 ex_A [] "2024-01-04".

(** Balances at and just beyond the tolerance. *)
Definition ex_boundary : Balances :=
  [(ex_A, 5 # 1000); (ex_B, - (5 # 1000)); (ex_T, 51 # 10000); (ex_X, - (51 # 10000))].

(** The data of [loadEjemplo], with fixed ids in place of [uuid()]. *)
Definition ejemplo_personas : list Person.t :=
  [Person.mk "a" "Ana"; Person.mk "l" "Luis"; Person.mk "t" "Tu"].

Definition ejemplo_gastos : list Expense.t :=
  [Expense.mk "g-1" "Supermercado" (542 # 10) "a" ["a"; "l"; "t"]%string "2024-01-01";
   Expense.mk "g-2" "Cafe" (96 # 10) "l" ["l"; "t"]%string "2024-01-01";
   Expense.mk "g-3" "Taxi" 18 "t" ["a"; "t"]%string "2024-01-01"].

(** A balance object and a list of transfers with every amount in lowest
    terms, to display computed results. *)
Definition reduced (b : Balances) : Balances :=
  map (fun kv => (fst kv, Qred (snd kv))) b.

Definition reduced_moves (ms : list Move.t) : list Move.t :=
  map (fun m => Move.mk (Move.fromId m) (Move.toId m) (Qred (Move.amount m))) ms.

(** One cent paid by A and shared by A, B and T. *)
Definition ex_cent : Expense.t :=
  Expense.mk "g6" "Chicle" (1 # 100) ex_A [ex_A; ex_B; ex_T] "2024-01-06".

(** A and B each owe 10 to one creditor and 0.004 to a third one. *)
Definition ex_five : list Person.t :=
  [Person.mk ex_A "Ana"; Person.mk ex_B "Luis"; Person.mk ex_T "Tu";
   Person.mk ex_X "Xavi"; Person.mk ex_Y "Yoli"].

Definition ex_debts : list Expense.t :=
  [Expense.mk "g7" "Cena" 10 ex_T [ex_A] "2024-01-07";
   Expense.mk "g8" "Cine" 10 ex_X [ex_B] "2024-01-07";
   Expense.mk "g9" "Propina" (4 # 1000) ex_Y [ex_A] "2024-01-07";
   Expense.mk "g10" "Propina" (4 # 1000) ex_Y [ex_B] "2024-01-07"].

(** An expense paid by and shared with ids that are not people of the state. *)
Definition ex_unknown : Expense.t :=
  Expense.mk "g5" "Cafe" 8 ex_X [ex_X; ex_Y] "2024-01-05".


(** ** The page: form fields and handlers

    Besides [state], the component keeps the fields of its two forms.  A
    handler is modelled as a function from the values of one render to the
    values of the next.  [uuid()] and the current date are inputs of the
    handlers that use them.  [String.prototype.trim],
    [String.prototype.toLowerCase] and the date conversion are parameters;
    the conversion returns [None] when [toISOString] throws. *)

Module Page.
Record t := mk {
  state : AppState;
  nuevoNombre : string;
  descripcion : string;
  monto : option Q;
  pagadorId : string;
  participantes : list string;
  fecha : string
}.
End Page.

(** [Array.from(new Set(l))]: the first occurrence of each value, in order. *)
Fixpoint uniq (l : list string) : list string :=
  match l with
  | [] => []
  | x :: l' => x :: filter (fun y => negb (String.eqb y x)) (uniq l')
  end.

(** The values of the first render. *)
Definition initial (hoy : string) : Page.t :=
  {| Page.state := {| personas := []; gastos := []; moneda := "USD"; version := 1 |};
     Page.nuevoNombre := EmptyString;
     Page.descripcion := EmptyString;
     Page.monto := None;
     Page.pagadorId := EmptyString;
     Page.participantes := [];
     Page.fecha := hoy |}.

Section Handlers.
Variable trim : string -> string.
Variable toLowerCase : string -> string.
Variable iso_date : string -> option string.

(** [state.personas.some(...)] of [addPersona]. *)
Definition nombre_exists (ps : list Person.t) (nombre : string) : bool :=
  existsb (fun p => String.eqb (toLowerCase (Person.nombre p)) (toLowerCase nombre)) ps.

Definition addPersona (id : string) (pg : Page.t) : Page.t :=
  let nombre := trim (Page.nuevoNombre pg) in
  if String.eqb nombre EmptyString then pg
  else if nombre_exists (personas (Page.state pg)) nombre then
    {| Page.state := Page.state pg;
       Page.nuevoNombre := EmptyString;
       Page.descripcion := Page.descripcion pg;
       Page.monto := Page.monto pg;
       Page.pagadorId := Page.pagadorId pg;
       Page.participantes := Page.participantes pg;
       Page.fecha := Page.fecha pg |}
  else
    {| Page.state :=
         {| personas := personas (Page.state pg) ++ [Person.mk id nombre];
            gastos := gastos (Page.state pg);
            moneda := moneda (Page.state pg);
            version := version (Page.state pg) |};
       Page.nuevoNombre := EmptyString;
       Page.descripcion := Page.descripcion pg;
       Page.monto := Page.monto pg;
       Page.pagadorId :=
         if String.eqb (Page.pagadorId pg) EmptyString then id else Page.pagadorId pg;
       Page.participantes := uniq (Page.participantes pg ++ [id]);
       Page.fecha := Page.fecha pg |}.

(** The whole handler [removePersona]: the state update and the two form
    fields. *)
Definition removePersona_page (id : string) (pg : Page.t) : Page.t :=
  {| Page.state := removePersona id (Page.state pg);
     Page.nuevoNombre := Page.nuevoNombre pg;
     Page.descripcion := Page.descripcion pg;
     Page.monto := Page.monto pg;
     Page.pagadorId :=
       if String.eqb (Page.pagadorId pg) id then EmptyString else Page.pagadorId pg;
     Page.participantes :=
       filter (fun pid => negb (String.eqb pid id)) (Page.participantes pg);
     Page.fecha := Page.fecha pg |}.

Definition toggle (prev : list string) (id : string) : list string :=
  if includes prev id
  then filter (fun x => negb (String.eqb x id)) prev
  else prev ++ [id].

Definition toggleParticipante (id : string) (pg : Page.t) : Page.t :=
  {| Page.state := Page.state pg;
     Page.nuevoNombre := Page.nuevoNombre pg;
     Page.descripcion := Page.descripcion pg;
     Page.monto := Page.monto pg;
     Page.pagadorId := Page.pagadorId pg;
     Page.participantes := toggle (Page.participantes pg) id;
     Page.fecha := Page.fecha pg |}.

(** The expense [addGasto] builds, when none of its four guards returns and
    the date converts. *)
Definition nuevo_gasto (id hoy : string) (pg : Page.t) : option Expense.t :=
  if String.eqb (trim (Page.descripcion pg)) EmptyString then None
  else
    match Page.monto pg with
    | None => None
    | Some m =>
        if Qle_bool m 0 then None
        else if String.eqb (Page.pagadorId pg) EmptyString then None
        else if (List.length (Page.participantes pg) =? 0)%nat then None
        else
          match (if String.eqb (Page.fecha pg) EmptyString then Some hoy
                 else iso_date (Page.fecha pg)) with
          | None => None
          | Some f =>
              Some {| Expense.id := id;
                      Expense.descripcion := trim (Page.descripcion pg);
                      Expense.monto := m;
                      Expense.pagadorId := Page.pagadorId pg;
                      Expense.participantes := Page.participantes pg;
                      Expense.fecha := f |}
          end
    end.

Definition addGasto (id hoy : string) (pg : Page.t) : Page.t :=
  match nuevo_gasto id hoy pg with
  | None => pg
  | Some g =>
      {| Page.state :=
           {| personas := personas (Page.state pg);
              gastos := g :: gastos (Page.state pg);
              moneda := moneda (Page.state pg);
              version := version (Page.state pg) |};
         Page.nuevoNombre := Page.nuevoNombre pg;
         Page.descripcion := EmptyString;
         Page.monto := None;
         Page.pagadorId := Page.pagadorId pg;
         Page.participantes := Page.participantes pg;
         Page.fecha := Page.fecha pg |}
  end.

Definition deleteGasto (id : string) (pg : Page.t) : Page.t :=
  {| Page.state :=
       {| personas := personas (Page.state pg);
          gastos := filter (fun g => negb (String.eqb (Expense.id g) id))
                      (gastos (Page.state pg));
          moneda := moneda (Page.state pg);
          version := version (Page.state pg) |};
     Page.nuevoNombre := Page.nuevoNombre pg;
     Page.descripcion := Page.descripcion pg;
     Page.monto := Page.monto pg;
     Page.pagadorId := Page.pagadorId pg;
     Page.participantes := Page.participantes pg;
     Page.fecha := Page.fecha pg |}.

Definition resetAll (hoy : string) (pg : Page.t) : Page.t :=
  {| Page.state := {| personas := []; gastos := []; moneda := "USD"; version := 1 |};
     Page.nuevoNombre := Page.nuevoNombre pg;
     Page.descripcion := EmptyString;
     Page.monto := None;
     Page.pagadorId := EmptyString;
     Page.participantes := [];
     Page.fecha := hoy |}.

(** [loadEjemplo]; [a], [l], [t] and [g1], [g2], [g3] are the six values of
    [uuid()], in the order of the calls. *)
Definition loadEjemplo (a l t g1 g2 g3 hoy : string) (pg : Page.t) : Page.t :=
  {| Page.state :=
       {| personas := [Person.mk a "Ana"; Person.mk l "Luis"; Person.mk t "Tú"];
          gastos :=
            [Expense.mk g1 "Supermercado" (542 # 10) a [a; l; t] hoy;
             Expense.mk g2 "Café" (96 # 10) l [l; t] hoy;
             Expense.mk g3 "Taxi" 18 t [a; t] hoy];
          moneda := "EUR";
          version := 1 |};
     Page.nuevoNombre := Page.nuevoNombre pg;
     Page.descripcion := Page.descripcion pg;
     Page.monto := Page.monto pg;
     Page.pagadorId := a;
     Page.participantes := [a; l; t];
     Page.fecha := Page.fecha pg |}.

(** What a user can do on the page, leaving aside file import and the state
    restored from [localStorage], which are not checked: the handlers above,
    the selects, which offer the currencies and the ids of the people, and
    the text, number and date inputs. *)
Inductive Step : Page.t -> Page.t -> Prop :=
| Step_addPersona (id : string) (pg : Page.t) : Step pg (addPersona id pg)
| Step_removePersona (id : string) (pg : Page.t) : Step pg (removePersona_page id pg)
| Step_toggle (id : string) (pg : Page.t) :
    In id (map Person.id (personas (Page.state pg))) ->
    Step pg (toggleParticipante id pg)
| Step_addGasto (id hoy : string) (pg : Page.t) : Step pg (addGasto id hoy pg)
| Step_deleteGasto (id : string) (pg : Page.t) : Step pg (deleteGasto id pg)
| Step_resetAll (hoy : string) (pg : Page.t) : Step pg (resetAll hoy pg)
| Step_loadEjemplo (a l t g1 g2 g3 hoy : string) (pg : Page.t) :
    a <> l -> a <> t -> l <> t ->
    Step pg (loadEjemplo a l t g1 g2 g3 hoy pg)
| Step_pagador (id : string) (pg : Page.t) :
    In id (map Person.id (personas (Page.state pg))) ->
    Step pg {| Page.state := Page.state pg;
               Page.nuevoNombre := Page.nuevoNombre pg;
               Page.descripcion := Page.descripcion pg;
               Page.monto := Page.monto pg;
               Page.pagadorId := id;
               Page.participantes := Page.participantes pg;
               Page.fecha := Page.fecha pg |}
| Step_moneda (v : string) (pg : Page.t) :
    Step pg {| Page.state :=
                 {| personas := personas (Page.state pg);
                    gastos := gastos (Page.state pg);
                    moneda := v;
                    version := version (Page.state pg) |};
               Page.nuevoNombre := Page.nuevoNombre pg;
               Page.descripcion := Page.descripcion pg;
               Page.monto := Page.monto pg;
               Page.pagadorId := Page.pagadorId pg;
               Page.participantes := Page.participantes pg;
               Page.fecha := Page.fecha pg |}
| Step_input (n d f : string) (m : option Q) (pg : Page.t) :
    Step pg {| Page.state := Page.state pg;
               Page.nuevoNombre := n;
               Page.descripcion := d;
               Page.monto := m;
               Page.pagadorId := Page.pagadorId pg;
               Page.participantes := Page.participantes pg;
               Page.fecha := f |}.

Inductive Reachable : Page.t -> Prop :=
| Reachable_initial (hoy : string) : Reachable (initial hoy)
| Reachable_step (pg pg' : Page.t) : Reachable pg -> Step pg pg' -> Reachable pg'.
End Handlers.

(** What the handlers keep true of the page: the selected participants are
    people and are selected once, the selected payer is a person if there is
    one, and every expense has a positive amount, a payer and participants
    who are people, and no participant twice. *)
Definition known (s : AppState) (id : string) : Prop :=
  In id (map Person.id (personas s)).

Definition gasto_ok (s : AppState) (g : Expense.t) : Prop :=
  0 < Expense.monto g
  /\ NoDup (Expense.participantes g)
  /\ known s (Expense.pagadorId g)
  /\ (forall pid, In pid (Expense.participantes g) -> known s pid).

Definition page_ok (pg : Page.t) : Prop :=
  NoDup (Page.participantes pg)
  /\ (forall pid, In pid (Page.participantes pg) -> known (Page.state pg) pid)
  /\ (Page.pagadorId pg = EmptyString \/ known (Page.state pg) (Page.pagadorId pg))
  /\ Forall (gasto_ok (Page.state pg)) (gastos (Page.state pg)).

(** ** What the page displays *)

(** [totalGastos] for amounts that are finite, as every rational is. *)
Definition totalGastos (gs : list Expense.t) : Q :=
  fold_left (fun sum g => sum + Expense.monto g) gs 0.

(** [personasMap]: a later person replaces an earlier one of the same id. *)
Fixpoint map_get (m : list (string * Person.t)) (k : string) : option Person.t :=
  match m with
  | [] => None
  | (k', p) :: m' => if String.eqb k' k then Some p else map_get m' k
  end.

Fixpoint map_set (m : list (string * Person.t)) (k : string) (p : Person.t)
    : list (string * Person.t) :=
  match m with
  | [] => [(k, p)]
  | (k', p') :: m' =>
      if String.eqb k' k then (k', p) :: m' else (k', p') :: map_set m' k p
  end.

Definition personasMap (ps : list Person.t) : list (string * Person.t) :=
  fold_left (fun m p => map_set m (Person.id p) p) ps [].

(** [personasMap.get(id)?.nombre ?? fallback]. *)
Definition nombre_de (ps : list Person.t) (id fallback : string) : string :=
  match map_get (personasMap ps) id with
  | Some p => Person.nombre p
  | None => fallback
  end.

(** ** ASCII instances of the string parameters, to run the handlers *)

Definition is_space (c : Ascii.ascii) : bool :=
  let n := Ascii.nat_of_ascii c in
  ((n =? 32) || (n =? 9) || (n =? 10) || (n =? 11) || (n =? 12) || (n =? 13))%nat.

Fixpoint trim_start (s : string) : string :=
  match s with
  | EmptyString => EmptyString
  | String c s' => if is_space c then trim_start s' else s
  end.

Definition string_rev (s : string) : string :=
  string_of_list_ascii (rev (list_ascii_of_string s)).

Definition trim_ascii (s : string) : string :=
  string_rev (trim_start (string_rev (trim_start s))).

Definition lower_ascii_char (c : Ascii.ascii) : Ascii.ascii :=
  let n := Ascii.nat_of_ascii c in
  if ((65 <=? n) && (n <=? 90))%nat then Ascii.ascii_of_nat (n + 32) else c.

Fixpoint lower_ascii (s : string) : string :=
  match s with
  | EmptyString => EmptyString
  | String c s' => String (lower_ascii_char c) (lower_ascii s')
  end.

(** Dates pass unchanged. *)
Definition date_ok (s : string) : option string := Some s.

(** A page where Ana pays 30 for herself and Luis. *)
Definition ex_page : Page.t :=
  {| Page.state :=
       {| personas := [Person.mk "a" "Ana"; Person.mk "l" "Luis"];
          gastos := [];
          moneda := "USD";
          version := 1 |};
     Page.nuevoNombre := "  ana ";
     Page.descripcion := " Cena ";
     Page.monto := Some 30;
     Page.pagadorId := "a";
     Page.participantes := ["a"; "l"]%string;
     Page.fecha := "2024-02-01" |}.

(** A session: Ana and Luis are added, then a dinner of 30 paid by Ana. *)
Definition ex_inputs (n d f : string) (m : option Q) (pg : Page.t) : Page.t :=
  {| Page.state := Page.state pg;
     Page.nuevoNombre := n;
     Page.descripcion := d;
     Page.monto := m;
     Page.pagadorId := Page.pagadorId pg;
     Page.participantes := Page.participantes pg;
     Page.fecha := f |}.

Definition ex_session : Page.t :=
  addGasto trim_ascii date_ok "g" "2024-02-01"
    (ex_inputs EmptyString " Cena " "2024-02-01" (Some 30)
       (addPersona trim_ascii lower_ascii "l"
          (ex_inputs "Luis" EmptyString "2024-02-01" None
             (addPersona trim_ascii lower_ascii "a"
                (ex_inputs " Ana " EmptyString "2024-02-01" None (initial "2024-02-01")))))).

(** Luis pays 20 for Ana alone. *)
Definition ex_orphan : AppState :=
  {| personas := [Person.mk "a" "Ana"; Person.mk "l" "Luis"];
     gastos := [Expense.mk "g" "Regalo" 20 "l" ["a"%string] "2024-03-01"];
     moneda := "USD";
     version := 1 |}.

(** ** What is left to pay

    What is left of the amount [a] that [x] owes once the transfers of [ms]
    that [x] pays are subtracted from it, one after the other, as the loop
    does with [d.amount -= pay]; and the same for an amount that [x] is
    owed. *)
Definition debt_left (x : string) (ms : list Move.t) (a : Q) : Q :=
  fold_left (fun r m => if String.eqb (Move.fromId m) x then r - Move.amount m else r) ms a.

Definition credit_left (x : string) (ms : list Move.t) (a : Q) : Q :=
  fold_left (fun r m => if String.eqb (Move.toId m) x then r - Move.amount m else r) ms a.

(** ** The same code over IEEE doubles and a plain object

    The definitions above compute with exact rationals on an association
    list.  [Js] embeds the same lines of [src/app/page.tsx] with the numbers
    the page computes with: a [number] is a binary64 value ([float]), with
    its rounding, its infinities and NaN.  The balance object is the plain
    object [{}]: reading a key that is not an own key finds the members
    inherited from [Object.prototype], and assigning a number to [__proto__]
    creates no key.  What the sum or difference of an inherited member and a
    number gives (NaN, or a string that every later operation of the page
    converts to NaN) is modelled by NaN. *)

Module Js.
Local Open Scope float_scope.

Module Expense.
Record t := mk {
  id : string;
  descripcion : string;
  monto : float;
  pagadorId : string;
  participantes : list string;
  fecha : string
}.
End Expense.

Module Entry.
Record t := mk { id : string; amount : float }.
End Entry.

Module Move.
Record t := mk { fromId : string; toId : string; amount : float }.
End Move.

(** The literal [0.005]. *)
Definition tol : float := 0.005.

(** An array length as a number; exact below 2^53. *)
Definition of_nat (n : nat) : float := of_uint63 (Uint63.of_Z (Z.of_nat n)).

(** [Math.min(x, y)]: NaN if one argument is NaN, and [-0] below [+0]. *)
Definition min (x y : float) : float :=
  if is_nan x || is_nan y then nan
  else if x <? y then x
  else if y <? x then y
  else if get_sign x then x else y.

(** The names of the members of [Object.prototype]. *)
Definition inherited : list string :=
  ["constructor"; "__defineGetter__"; "__defineSetter__"; "hasOwnProperty";
   "__lookupGetter__"; "__lookupSetter__"; "isPrototypeOf";
   "propertyIsEnumerable"; "toString"; "valueOf"; "__proto__";
   "toLocaleString"]%string.

Definition is_inherited (k : string) : bool := existsb (String.eqb k) inherited.

(** The own keys of the object, in the order of their creation, with their
    values. *)
Definition Balances := list (string * float).

(** The own property [k], if there is one. *)
Fixpoint get (b : Balances) (k : string) : option float :=
  match b with
  | [] => None
  | (k', v) :: b' => if String.eqb k' k then Some v else get b' k
  end.

(** [b[k] ?? 0] as an operand of [+] or [-]. *)
Definition get0 (b : Balances) (k : string) : float :=
  match get b k with
  | Some v => v
  | None => if is_inherited k then nan else zero
  end.

Fixpoint set_own (b : Balances) (k : string) (v : float) : Balances :=
  match b with
  | [] => [(k, v)]
  | (k', v') :: b' =>
      if String.eqb k' k then (k', v) :: b' else (k', v') :: set_own b' k v
  end.

(** [b[k] = v] for a number [v]. *)
Definition set (b : Balances) (k : string) (v : float) : Balances :=
  if String.eqb k "__proto__" then b else set_own b k v.

(** *** [balances] *)

Definition includes (l : list string) (k : string) : bool :=
  existsb (String.eqb k) l.

Definition skipped (g : Expense.t) : bool :=
  (Expense.monto g <=? zero) || (List.length (Expense.participantes g) =? 0)%nat.

Definition share_of (g : Expense.t) : float :=
  Expense.monto g / of_nat (List.length (Expense.participantes g)).

Definition apply_participante (g : Expense.t) (share : float)
    (b : Balances) (pid : string) : Balances :=
  if String.eqb pid (Expense.pagadorId g)
  then set b pid (get0 b pid + (Expense.monto g - share))
  else set b pid (get0 b pid - share).

Definition apply_gasto (b : Balances) (g : Expense.t) : Balances :=
  if skipped g then b
  else
    let share := share_of g in
    let b1 := fold_left (apply_participante g share) (Expense.participantes g) b in
    if includes (Expense.participantes g) (Expense.pagadorId g)
    then b1
    else set b1 (Expense.pagadorId g) (get0 b1 (Expense.pagadorId g) + Expense.monto g).

(** [pid] is the payer or a participant of an expense that is not skipped. *)
Definition touches (g : Expense.t) (pid : string) : bool :=
  negb (skipped g)
  && (String.eqb pid (Expense.pagadorId g) || includes (Expense.participantes g) pid).

(** [state.personas.forEach((p) => (b[p.id] = 0))]. *)
Definition init_balances (ps : list Person.t) : Balances :=
  fold_left (fun b p => set b (Person.id p) zero) ps [].

Definition balances (ps : list Person.t) (gs : list Expense.t) : Balances :=
  fold_left apply_gasto gs (init_balances ps).

(** The values of the object added up, key after key. *)
Definition sum_values (b : Balances) : float :=
  fold_left (fun acc kv => acc + snd kv) b zero.

(** *** [Object.keys]

    Keys that are array indices come first, in increasing order; the other
    keys follow in the order of their creation. *)

Definition is_digit (c : Ascii.ascii) : bool :=
  let n := Ascii.nat_of_ascii c in ((48 <=? n) && (n <=? 57))%nat.

Fixpoint digits_value (s : string) (acc : N) : option N :=
  match s with
  | EmptyString => Some acc
  | String c s' =>
      if is_digit c
      then digits_value s' (acc * 10 + (N.of_nat (Ascii.nat_of_ascii c) - 48))%N
      else None
  end.

(** The array index a key denotes: a decimal numeral without leading zero,
    at most 2^32 - 2. *)
Definition array_index (k : string) : option N :=
  match k with
  | EmptyString => None
  | String c rest =>
      if (Ascii.nat_of_ascii c =? 48)%nat
      then (if String.eqb rest EmptyString then Some 0%N else None)
      else
        match digits_value k 0 with
        | Some n => if (n <=? 4294967294)%N then Some n else None
        | None => None
        end
  end.

Fixpoint insert_index (n : N) (kv : string * float)
    (l : list (N * (string * float))) : list (N * (string * float)) :=
  match l with
  | [] => [(n, kv)]
  | (n', kv') :: l' =>
      if (n <? n')%N then (n, kv) :: l else (n', kv') :: insert_index n kv l'
  end.

Fixpoint index_entries (b : Balances) : list (N * (string * float)) :=
  match b with
  | [] => []
  | kv :: b' =>
      match array_index (fst kv) with
      | Some n => insert_index n kv (index_entries b')
      | None => index_entries b'
      end
  end.

Definition other_entries (b : Balances) : Balances :=
  filter (fun kv => match array_index (fst kv) with Some _ => false | None => true end) b.

(** The pairs [(pid, balances[pid])] for [pid] of [Object.keys(balances)]. *)
Definition entries (b : Balances) : Balances :=
  map snd (index_entries b) ++ other_entries b.

(** *** [settlements] *)

Fixpoint classify (l : Balances) : list Entry.t * list Entry.t :=
  match l with
  | [] => ([], [])
  | (pid, v) :: l' =>
      let (ds, cs) := classify l' in
      if v <? - tol then (Entry.mk pid (- v) :: ds, cs)
      else if tol <? v then (ds, Entry.mk pid v :: cs)
      else (ds, cs)
  end.

(** The comparison function [(a, b) => b.amount - a.amount]. *)
Definition comparator (a b : Entry.t) : float := Entry.amount b - Entry.amount a.

(** [l.sort(comparator)]: the sort is stable, and [x] goes before [e] when
    [comparator(x, e)] is negative. *)
Fixpoint insert_sorted (e : Entry.t) (l : list Entry.t) : list Entry.t :=
  match l with
  | [] => [e]
  | x :: l' =>
      if comparator x e <? zero then x :: insert_sorted e l' else e :: x :: l'
  end.

Fixpoint sort (l : list Entry.t) : list Entry.t :=
  match l with
  | [] => []
  | e :: l' => insert_sorted e (sort l')
  end.

Definition debtors_of (b : Balances) : list Entry.t := sort (fst (classify (entries b))).
Definition creditors_of (b : Balances) : list Entry.t := sort (snd (classify (entries b))).

Fixpoint set_nth (l : list Entry.t) (i : nat) (e : Entry.t) : list Entry.t :=
  match l, i with
  | [], _ => []
  | _ :: l', O => e :: l'
  | x :: l', S i' => x :: set_nth l' i' e
  end.

Record Loop := mkLoop {
  debtors : list Entry.t;
  creditors : list Entry.t;
  i : nat;
  j : nat;
  moves : list Move.t
}.

(** One pass through the loop: [None] when its condition is false. *)
Definition loop_body (st : Loop) : option Loop :=
  match nth_error (debtors st) (i st), nth_error (creditors st) (j st) with
  | Some d, Some c =>
      let pay := min (Entry.amount d) (Entry.amount c) in
      let d' := Entry.mk (Entry.id d) (Entry.amount d - pay) in
      let c' := Entry.mk (Entry.id c) (Entry.amount c - pay) in
      Some {| debtors := set_nth (debtors st) (i st) d';
              creditors := set_nth (creditors st) (j st) c';
              i := if Entry.amount d' <=? tol then S (i st) else i st;
              j := if Entry.amount c' <=? tol then S (j st) else j st;
              moves := moves st ++ [Move.mk (Entry.id d) (Entry.id c) pay] |}
  | _, _ => None
  end.

(** The loop run for at most [fuel] passes: [None] when it has not ended by
    then. *)
Fixpoint while (fuel : nat) (st : Loop) : option Loop :=
  match loop_body st with
  | None => Some st
  | Some st' =>
      match fuel with
      | O => None
      | S fuel' => while fuel' st'
      end
  end.

Definition loop_start (b : Balances) : Loop :=
  {| debtors := debtors_of b; creditors := creditors_of b;
     i := 0; j := 0; moves := [] |}.

(** The transfers, when the loop ends within as many passes as there are
    debtors and creditors; [pairing_ends_or_never] shows that otherwise it
    does not end at all. *)
Definition settlements (b : Balances) : option (list Move.t) :=
  option_map moves
    (while (List.length (debtors_of b) + List.length (creditors_of b)) (loop_start b)).

(** The loop on the suffixes [debtors.slice(i)] and [creditors.slice(j)]. *)
Fixpoint pairing (fuel : nat) (ds cs : list Entry.t) : option (list Move.t) :=
  match ds, cs with
  | d :: ds', c :: cs' =>
      match fuel with
      | O => None
      | S fuel' =>
          let pay := min (Entry.amount d) (Entry.amount c) in
          let d' := Entry.mk (Entry.id d) (Entry.amount d - pay) in
          let c' := Entry.mk (Entry.id c) (Entry.amount c - pay) in
          option_map (cons (Move.mk (Entry.id d) (Entry.id c) pay))
            (pairing fuel'
               (if Entry.amount d' <=? tol then ds' else d' :: ds')
               (if Entry.amount c' <=? tol then cs' else c' :: cs'))
      end
  | _, _ => Some []
  end.

(** *** The badge beside a person

    [OK], or the amount owed to or by them. *)
Inductive Badge : Type :=
| BadgeOK
| BadgePlus (v : float)
| BadgeMinus (v : float).

Definition badge (b : Balances) (pid : string) : Badge :=
  let v := get0 b pid in
  let positive := tol <? v in
  let zeroish := abs v <=? tol in
  if zeroish then BadgeOK
  else if positive then BadgePlus v
  else BadgeMinus (- v).

End Js.

(** ** Sample data over doubles *)

(** The expense of the specification: 30 paid by T for A and B. *)
Definition js_taxi : Js.Expense.t :=
  Js.Expense.mk "g1" "Taxi" 30%float ex_T [ex_A; ex_B] "2024-01-01".

(** An expense whose participant array names the payer twice. *)
Definition js_twice : Js.Expense.t :=
  Js.Expense.mk "g2" "Cena" 10%float ex_A [ex_A; ex_A] "2024-01-02".

(** Two expenses of 1e308 paid by T for A: the second sum overflows. *)
Definition js_big : list Js.Expense.t :=
  [Js.Expense.mk "g11" "Casa" 1e308%float ex_T [ex_A] "2024-01-08";
   Js.Expense.mk "g12" "Casa" 1e308%float ex_T [ex_A] "2024-01-08"].

(** An expense shared with two ids that name members of [Object.prototype]. *)
Definition js_proto : Js.Expense.t :=
  Js.Expense.mk "g13" "Cena" 9%float ex_A [ex_A; "constructor"; "__proto__"]%string
    "2024-01-09".

(** An expense paid by and shared with ids that are not people of the state. *)
Definition js_unknown : Js.Expense.t :=
  Js.Expense.mk "g5" "Cafe" 8%float ex_X [ex_X; ex_Y] "2024-01-05".

(** The expenses of [loadEjemplo]. *)
Definition js_ejemplo_gastos : list Js.Expense.t :=
  [Js.Expense.mk "g-1" "Supermercado" 54.2%float "a" ["a"; "l"; "t"]%string "2024-01-01";
   Js.Expense.mk "g-2" "Cafe" 9.6%float "l" ["l"; "t"]%string "2024-01-01";
   Js.Expense.mk "g-3" "Taxi" 18%float "t" ["a"; "t"]%string "2024-01-01"].

(** Balances at and just beyond the tolerance, and one that is NaN. *)
Definition js_boundary : Js.Balances :=
  [(ex_A, 0.005%float); (ex_B, (-0.005)%float); (ex_T, 0.0051%float);
   (ex_X, (-0.0051)%float); (ex_Y, nan)].

(** One cent paid by A and shared by A, B and T. *)
Definition js_cent : Js.Expense.t :=
  Js.Expense.mk "g6" "Chicle" 0.01%float ex_A [ex_A; ex_B; ex_T] "2024-01-06".

(** A and B each owe 10 to one creditor and 0.004 to a third one. *)
Definition js_debts : list Js.Expense.t :=
  [Js.Expense.mk "g7" "Cena" 10%float ex_T [ex_A] "2024-01-07";
   Js.Expense.mk "g8" "Cine" 10%float ex_X [ex_B] "2024-01-07";
   Js.Expense.mk "g9" "Propina" 0.004%float ex_Y [ex_A] "2024-01-07";
   Js.Expense.mk "g10" "Propina" 0.004%float ex_Y [ex_B] "2024-01-07"].

(** An expense of amount zero paid by and shared with ids that are not
    people of the state. *)
Definition js_zero_unknown : Js.Expense.t :=
  Js.Expense.mk "g14" "Nada" 0%float ex_X [ex_Y] "2024-01-10".

(** ** Doubles and the rationals they stand for *)

(** The rational a double stands for; [None] for NaN and the infinities. *)
Definition exact (x : float) : option Q :=
  match Prim2SF x with
  | S754_zero _ => Some 0
  | S754_finite s m e =>
      Some ((if s then - inject_Z (Zpos m) else inject_Z (Zpos m)) * 2 ^ e)
  | _ => None
  end.

(** An expense over doubles as an expense over the rationals, when its
    amount is finite. *)
Definition exact_gasto (g : Js.Expense.t) : option Expense.t :=
  option_map
    (fun m => Expense.mk (Js.Expense.id g) (Js.Expense.descripcion g) m
                (Js.Expense.pagadorId g) (Js.Expense.participantes g) (Js.Expense.fecha g))
    (exact (Js.Expense.monto g)).

Fixpoint exact_gastos (gs : list Js.Expense.t) : option (list Expense.t) :=
  match gs with
  | [] => Some []
  | g :: gs' =>
      match exact_gasto g, exact_gastos gs' with
      | Some q, Some qs => Some (q :: qs)
      | _, _ => None
      end
  end.

(** The balance object [b] over doubles holds, key by key, the rationals of
    [q]: no operation that computed it rounded. *)
Definition exact_balances (b : Js.Balances) (q : Balances) : Prop :=
  Forall2 (fun kv kq => fst kv = fst kq
                        /\ exists v, exact (snd kv) = Some v /\ v == snd kq) b q.

(** The sum of the rationals the values of [b] stand for. *)
Fixpoint exact_sum (b : Js.Balances) : option Q :=
  match b with
  | [] => Some 0
  | kv :: b' =>
      match exact (snd kv), exact_sum b' with
      | Some v, Some s => Some (v + s)
      | _, _ => None
      end
  end.

(** ** Auxiliary notions for the proofs over doubles *)

(** An amount above the tolerance, or NaN. *)
Definition above_or_nan (x : float) : Prop := PrimFloat.ltb Js.tol x = true \/ x = nan.

(** [b'] is [b] with the key [pid] holding what [b[pid] ?? 0] reads, and
    every other key as in [b]. *)
Definition extends (pid : string) (b b' : Js.Balances) : Prop :=
  (forall k, k <> pid -> Js.get b' k = Js.get b k)
  /\ Js.get b' pid = Some (Js.get0 b pid).

(** * Proofs *)

(** ** Numbers *)

Lemma Qltb_lt (x y : Q) : Qltb x y = true <-> x < y.
Proof.
  unfold Qltb. rewrite negb_true_iff. split; intro H.
  - apply Qnot_le_lt. intro Hle. apply Qle_bool_iff in Hle. congruence.
  - destruct (Qle_bool y x) eqn:E; [|reflexivity].
    apply Qle_bool_iff in E. lra.
Qed.

Lemma Qltb_ge (x y : Q) : Qltb x y = false <-> y <= x.
Proof.
  unfold Qltb. rewrite negb_false_iff. apply Qle_bool_iff.
Qed.

Lemma Qle_bool_gt (x y : Q) : Qle_bool x y = false <-> y < x.
Proof.
  rewrite <- Qltb_lt. unfold Qltb. rewrite negb_true_iff. reflexivity.
Qed.

Lemma Qnat_S (n : nat) : Qnat (S n) == Qnat n + 1.
Proof.
  unfold Qnat. rewrite Nat2Z.inj_succ. unfold Z.succ.
  rewrite inject_Z_plus. reflexivity.
Qed.

Lemma Qnat_0 : Qnat 0 == 0.
Proof. reflexivity. Qed.

Lemma Qnat_nonneg (n : nat) : 0 <= Qnat n.
Proof.
  induction n as [|n IH]; [rewrite Qnat_0; lra | rewrite Qnat_S; lra].
Qed.

Lemma Qnat_pos (n : nat) : (0 < n)%nat -> 0 < Qnat n.
Proof.
  destruct n as [|n]; [lia|]. intros _. rewrite Qnat_S.
  pose proof (Qnat_nonneg n). lra.
Qed.

Lemma tol_pos : 0 < tol.
Proof. reflexivity. Qed.

(** ** The balance object *)

Lemma get_set_same (b : Balances) (k : string) (v : Q) :
  get (set b k v) k = Some v.
Proof.
  induction b as [|[k' v'] b IH]; simpl.
  - rewrite String.eqb_refl. reflexivity.
  - destruct (String.eqb k' k) eqn:E; simpl; rewrite E; auto.
Qed.

Lemma get_set_other (b : Balances) (k k' : string) (v : Q) :
  k <> k' -> get (set b k v) k' = get b k'.
Proof.
  intros Hne. induction b as [|[k0 v0] b IH]; simpl.
  - destruct (String.eqb k k') eqn:E; [apply String.eqb_eq in E; contradiction | reflexivity].
  - destruct (String.eqb k0 k) eqn:E; simpl.
    + apply String.eqb_eq in E. subst k0.
      destruct (String.eqb k k') eqn:E'; [apply String.eqb_eq in E'; contradiction | reflexivity].
    + rewrite IH. reflexivity.
Qed.

Lemma get0_set_same (b : Balances) (k : string) (v : Q) :
  get0 (set b k v) k = v.
Proof. unfold get0. rewrite get_set_same. reflexivity. Qed.

Lemma get0_set_other (b : Balances) (k k' : string) (v : Q) :
  k <> k' -> get0 (set b k v) k' = get0 b k'.
Proof. intros H. unfold get0. rewrite get_set_other by assumption. reflexivity. Qed.

Lemma sum_values_set (b : Balances) (k : string) (v : Q) :
  sum_values (set b k v) == sum_values b - get0 b k + v.
Proof.
  induction b as [|[k' v'] b IH]; unfold get0; simpl.
  - lra.
  - destruct (String.eqb k' k) eqn:E; simpl.
    + lra.
    + fold (sum_values (set b k v)). fold (sum_values b).
      rewrite IH. unfold get0. lra.
Qed.

Lemma keys_set (b : Balances) (k : string) (v : Q) :
  keys (set b k v) = if in_dec string_dec k (keys b) then keys b else keys b ++ [k].
Proof.
  induction b as [|[k' v'] b IH]; simpl; [reflexivity|].
  destruct (String.eqb k' k) eqn:E; simpl.
  - apply String.eqb_eq in E. subst. destruct (string_dec k k); [reflexivity | contradiction].
  - apply String.eqb_neq in E. destruct (string_dec k' k); [contradiction|].
    fold (keys (set b k v)). rewrite IH. fold (keys b).
    destruct (in_dec string_dec k (keys b)); reflexivity.
Qed.

Lemma get_None_keys (b : Balances) (k : string) :
  get b k = None <-> ~ In k (keys b).
Proof.
  induction b as [|[k' v'] b IH]; simpl.
  - tauto.
  - destruct (String.eqb k' k) eqn:E.
    + apply String.eqb_eq in E. split; [discriminate | intros H; exfalso; apply H; auto].
    + apply String.eqb_neq in E. rewrite IH. fold (keys b). tauto.
Qed.

(** ** [balances]: what an expense adds to each balance *)

Section Participantes.
Variable g : Expense.t.
Variable share : Q.

Lemma get0_apply_participante_same (b : Balances) (pid : string) :
  get0 (apply_participante g share b pid) pid == get0 b pid + branch_amount g share pid.
Proof.
  unfold apply_participante, branch_amount.
  destruct (String.eqb pid (Expense.pagadorId g)); rewrite get0_set_same; lra.
Qed.

Lemma get0_apply_participante_other (b : Balances) (pid k : string) :
  pid <> k -> get0 (apply_participante g share b pid) k = get0 b k.
Proof.
  intros H. unfold apply_participante.
  destruct (String.eqb pid (Expense.pagadorId g)); apply get0_set_other; assumption.
Qed.

Lemma get0_fold_participante (l : list string) (b : Balances) (k : string) :
  get0 (fold_left (apply_participante g share) l b) k
  == get0 b k + Qnat (count_occ string_dec l k) * branch_amount g share k.
Proof.
  revert b. induction l as [|pid l IH]; intros b; simpl.
  - rewrite Qnat_0. lra.
  - rewrite IH. destruct (string_dec pid k) as [->|Hne].
    + rewrite get0_apply_participante_same, Qnat_S. lra.
    + rewrite get0_apply_participante_other by assumption. lra.
Qed.

Lemma sum_values_apply_participante (b : Balances) (pid : string) :
  sum_values (apply_participante g share b pid) == sum_values b + branch_amount g share pid.
Proof.
  unfold apply_participante, branch_amount.
  destruct (String.eqb pid (Expense.pagadorId g)); rewrite sum_values_set; lra.
Qed.

Lemma sum_values_fold_participante (l : list string) (b : Balances) :
  sum_values (fold_left (apply_participante g share) l b)
  == sum_values b
     + Qnat (count_occ string_dec l (Expense.pagadorId g)) * Expense.monto g
     - Qnat (List.length l) * share.
Proof.
  revert b. induction l as [|pid l IH]; intros b; simpl.
  - rewrite Qnat_0. lra.
  - rewrite IH, sum_values_apply_participante. unfold branch_amount.
    rewrite (Qnat_S (List.length l)).
    destruct (string_dec pid (Expense.pagadorId g)) as [->|Hne].
    + rewrite String.eqb_refl, Qnat_S. lra.
    + apply String.eqb_neq in Hne. rewrite Hne. lra.
Qed.

Lemma keys_fold_participante (l : list string) (b : Balances) (k : string) :
  In k (keys (fold_left (apply_participante g share) l b))
  <-> In k (keys b) \/ In k l.
Proof.
  revert b. induction l as [|pid l IH]; intros b; simpl; [tauto|].
  rewrite IH. unfold apply_participante.
  destruct (String.eqb pid (Expense.pagadorId g)); rewrite keys_set;
    destruct (in_dec string_dec pid (keys b)) as [Hin|Hin];
    try rewrite in_app_iff; simpl; intuition (subst; auto).
Qed.
End Participantes.

Lemma includes_In (l : list string) (k : string) :
  includes l k = true <-> In k l.
Proof.
  unfold includes. rewrite existsb_exists. split.
  - intros [x [Hin E]]. apply String.eqb_eq in E. subst. assumption.
  - intros H. exists k. split; [assumption | apply String.eqb_refl].
Qed.

Lemma includes_count (l : list string) (k : string) :
  includes l k = false -> count_occ string_dec l k = 0%nat.
Proof.
  intros H. apply count_occ_not_In. intros Hin.
  apply includes_In in Hin. congruence.
Qed.

Lemma skipped_false (g : Expense.t) :
  skipped g = false <-> 0 < Expense.monto g /\ Expense.participantes g <> [].
Proof.
  unfold skipped. rewrite orb_false_iff, Qle_bool_gt, Nat.eqb_neq.
  destruct (Expense.participantes g); simpl; intuition congruence.
Qed.

Lemma skipped_true (g : Expense.t) :
  skipped g = true <-> Expense.monto g <= 0 \/ Expense.participantes g = [].
Proof.
  unfold skipped. rewrite orb_true_iff, Qle_bool_iff, Nat.eqb_eq.
  destruct (Expense.participantes g); simpl; intuition congruence.
Qed.

Lemma get0_apply_gasto (b : Balances) (g : Expense.t) (k : string) :
  get0 (apply_gasto b g) k == get0 b k + contrib g k.
Proof.
  unfold apply_gasto, contrib. destruct (skipped g); [lra|].
  fold (branch_amount g (share_of g) k).
  destruct (includes (Expense.participantes g) (Expense.pagadorId g)) eqn:Einc; simpl.
  - rewrite get0_fold_participante, andb_false_r. lra.
  - rewrite andb_true_r. destruct (String.eqb k (Expense.pagadorId g)) eqn:Ek.
    + apply String.eqb_eq in Ek. subst k. rewrite get0_set_same.
      rewrite get0_fold_participante. lra.
    + apply String.eqb_neq in Ek. rewrite get0_set_other by congruence.
      rewrite get0_fold_participante. lra.
Qed.

Lemma get0_init_balances (ps : list Person.t) (k : string) :
  get0 (init_balances ps) k == 0.
Proof.
  unfold init_balances.
  assert (H : forall b, get0 b k == 0 ->
            get0 (fold_left (fun b p => set b (Person.id p) 0) ps b) k == 0).
  { induction ps as [|p ps IH]; intros b Hb; simpl; [assumption|].
    apply IH. destruct (string_dec (Person.id p) k) as [<-|Hne].
    - rewrite get0_set_same. reflexivity.
    - rewrite get0_set_other by assumption. assumption. }
  apply H. reflexivity.
Qed.

Lemma get0_fold_gastos (gs : list Expense.t) (b : Balances) (k : string) :
  get0 (fold_left apply_gasto gs b) k == get0 b k + total_contrib gs k.
Proof.
  revert b. induction gs as [|g gs IH]; intros b; simpl.
  - lra.
  - rewrite IH, get0_apply_gasto. lra.
Qed.

Lemma get0_balances (ps : list Person.t) (gs : list Expense.t) (k : string) :
  get0 (balances ps gs) k == total_contrib gs k.
Proof.
  unfold balances. rewrite get0_fold_gastos, get0_init_balances. lra.
Qed.

Lemma total_contrib_app (gs1 gs2 : list Expense.t) (k : string) :
  total_contrib (gs1 ++ gs2) k == total_contrib gs1 k + total_contrib gs2 k.
Proof.
  induction gs1 as [|g gs1 IH]; simpl; [lra|]. rewrite IH. lra.
Qed.

Lemma get0_balances_insert (ps : list Person.t) (gs1 gs2 : list Expense.t)
    (g : Expense.t) (k : string) :
  get0 (balances ps (gs1 ++ g :: gs2)) k
  == get0 (balances ps (gs1 ++ gs2)) k + contrib g k.
Proof.
  rewrite !get0_balances, !total_contrib_app. simpl. lra.
Qed.

Lemma share_times_length (g : Expense.t) :
  skipped g = false ->
  Qnat (List.length (Expense.participantes g)) * share_of g == Expense.monto g.
Proof.
  intros H. apply skipped_false in H. destruct H as [_ Hne].
  unfold share_of. field.
  assert (0 < Qnat (List.length (Expense.participantes g))); [|lra].
  apply Qnat_pos. destruct (Expense.participantes g); simpl; [congruence | lia].
Qed.

Lemma sum_values_apply_gasto (b : Balances) (g : Expense.t) :
  (skipped g = false ->
   (count_occ string_dec (Expense.participantes g) (Expense.pagadorId g) <= 1)%nat) ->
  sum_values (apply_gasto b g) == sum_values b.
Proof.
  intros Hcount. unfold apply_gasto.
  destruct (skipped g) eqn:Hs; [reflexivity|].
  specialize (Hcount eq_refl). pose proof (share_times_length g Hs) as Hshare.
  destruct (includes (Expense.participantes g) (Expense.pagadorId g)) eqn:Einc.
  - rewrite sum_values_fold_participante.
    assert (Hc : count_occ string_dec (Expense.participantes g) (Expense.pagadorId g) = 1%nat).
    { apply includes_In in Einc.
      apply (count_occ_In string_dec) in Einc. lia. }
    rewrite Hc. change (Qnat 1) with 1. lra.
  - rewrite sum_values_set, sum_values_fold_participante.
    rewrite (includes_count _ _ Einc), Qnat_0. lra.
Qed.

Lemma sum_values_init_balances (ps : list Person.t) :
  sum_values (init_balances ps) == 0.
Proof.
  unfold init_balances.
  assert (H : forall b, (forall k, get0 b k == 0) -> sum_values b == 0 ->
            sum_values (fold_left (fun b p => set b (Person.id p) 0) ps b) == 0).
  { induction ps as [|p ps IH]; intros b Hb Hsum; simpl; [assumption|].
    apply IH.
    - intros k. destruct (string_dec (Person.id p) k) as [<-|Hne].
      + rewrite get0_set_same. reflexivity.
      + rewrite get0_set_other by assumption. apply Hb.
    - rewrite sum_values_set, Hsum, Hb. lra. }
  apply H; [intros k|]; reflexivity.
Qed.

Lemma apply_gasto_skipped (b : Balances) (g : Expense.t) :
  skipped g = true -> apply_gasto b g = b.
Proof. intros H. unfold apply_gasto. rewrite H. reflexivity. Qed.

(** The keys of the balance object: the ids of the people, then every id an
    expense that is not skipped credits or debits. *)
Lemma keys_apply_gasto (b : Balances) (g : Expense.t) (k : string) :
  In k (keys (apply_gasto b g)) <-> In k (keys b) \/ touches g k = true.
Proof.
  unfold apply_gasto, touches. destruct (skipped g); simpl.
  - intuition congruence.
  - rewrite orb_true_iff, String.eqb_eq, includes_In.
    destruct (includes (Expense.participantes g) (Expense.pagadorId g)) eqn:Einc.
    + rewrite keys_fold_participante. apply includes_In in Einc.
      intuition (subst; auto).
    + rewrite keys_set.
      destruct (in_dec string_dec _ _) as [Hin|Hin].
      * rewrite keys_fold_participante in *. intuition (subst; auto).
      * rewrite in_app_iff, keys_fold_participante. simpl. intuition (subst; auto).
Qed.

Lemma keys_init_balances (ps : list Person.t) (k : string) :
  In k (keys (init_balances ps)) <-> In k (map Person.id ps).
Proof.
  unfold init_balances.
  assert (H : forall b, In k (keys (fold_left (fun b p => set b (Person.id p) 0) ps b))
                        <-> In k (keys b) \/ In k (map Person.id ps)).
  { induction ps as [|p ps IH]; intros b; simpl; [tauto|].
    rewrite IH, keys_set. destruct (in_dec string_dec _ _) as [Hin|Hin];
      try rewrite in_app_iff; simpl; intuition (subst; auto). }
  rewrite H. simpl. tauto.
Qed.

Lemma keys_balances (ps : list Person.t) (gs : list Expense.t) (k : string) :
  In k (keys (balances ps gs))
  <-> In k (map Person.id ps) \/ exists g, In g gs /\ touches g k = true.
Proof.
  unfold balances. rewrite <- keys_init_balances.
  generalize (init_balances ps) as b.
  induction gs as [|g gs IH]; intros b; simpl.
  - split; [auto | intros [H|[g [[] _]]]; assumption].
  - rewrite IH, keys_apply_gasto. split.
    + intros [[H|H]|[g' [Hin Ht]]]; eauto.
    + intros [H|[g' [[->|Hin] Ht]]]; eauto.
Qed.

Lemma NoDup_keys_set (b : Balances) (k : string) (v : Q) :
  NoDup (keys b) -> NoDup (keys (set b k v)).
Proof.
  intros H. rewrite keys_set. destruct (in_dec string_dec k (keys b)) as [Hin|Hin].
  - assumption.
  - apply NoDup_app; [assumption | repeat constructor; simpl; tauto |].
    intros x Hx [<-|[]]. contradiction.
Qed.

Lemma NoDup_keys_balances (ps : list Person.t) (gs : list Expense.t) :
  NoDup (keys (balances ps gs)).
Proof.
  unfold balances.
  assert (Hinit : NoDup (keys (init_balances ps))).
  { unfold init_balances.
    assert (H : forall b, NoDup (keys b) ->
              NoDup (keys (fold_left (fun b p => set b (Person.id p) 0) ps b))).
    { induction ps as [|p ps IH]; intros b Hb; simpl; [assumption|].
      apply IH, NoDup_keys_set, Hb. }
    apply H. constructor. }
  revert Hinit. generalize (init_balances ps) as b.
  induction gs as [|g gs IH]; intros b Hb; simpl; [assumption|].
  apply IH. unfold apply_gasto. destruct (skipped g); [assumption|].
  assert (Hfold : forall l b0, NoDup (keys b0) ->
            NoDup (keys (fold_left (apply_participante g (share_of g)) l b0))).
  { induction l as [|pid l IHl]; intros b0 Hb0; simpl; [assumption|].
    apply IHl. unfold apply_participante.
    destruct (String.eqb pid (Expense.pagadorId g)); apply NoDup_keys_set, Hb0. }
  destruct (includes _ _); [|apply NoDup_keys_set]; apply Hfold, Hb.
Qed.

(** ** [balances]: the claims *)

(** C5.  An expense with an amount that is not positive, or without
    participants, changes nothing: the balance object is the one computed
    from the list without that expense. *)
Theorem balances_skip (ps : list Person.t) (gs1 gs2 : list Expense.t) (g : Expense.t) :
  Expense.monto g <= 0 \/ Expense.participantes g = [] ->
  balances ps (gs1 ++ g :: gs2) = balances ps (gs1 ++ gs2).
Proof.
  intros H. apply skipped_true in H. unfold balances.
  rewrite !fold_left_app. simpl. rewrite apply_gasto_skipped by assumption.
  reflexivity.
Qed.

Lemma balances_skip_witness :
  balances ex_personas ([ex_taxi] ++ ex_zero :: [ex_unknown])
  = balances ex_personas ([ex_taxi] ++ [ex_unknown])
  /\ balances ex_personas ([ex_taxi] ++ ex_nobody :: [ex_unknown])
     = balances ex_personas ([ex_taxi] ++ [ex_unknown]).
Proof.
  split.
  - apply balances_skip. left. discriminate.
  - apply balances_skip. right. reflexivity.
Defined.

(** The entry of the unknown payer of [ex_unknown] holds 8 - 4, that of the
    unknown participant - 4. *)
Example balances_unknown_values :
  balances ex_personas [ex_unknown]
  = [(ex_A, 0); (ex_B, 0); (ex_T, 0); (ex_X, 0 + (8 - 8 / Qnat 2)); (ex_Y, 0 - 8 / Qnat 2)].
Proof. reflexivity. Qed.

(** ** [removePersona] *)

Lemma filter_map_without (id : string) (gs : list Expense.t) :
  filter (fun g => negb (String.eqb (Expense.pagadorId g) id)) (map (without id) gs)
  = map (without id) (filter (fun g => negb (String.eqb (Expense.pagadorId g) id)) gs).
Proof.
  induction gs as [|g gs IH]; simpl; [reflexivity|].
  destruct (negb (String.eqb (Expense.pagadorId g) id)); simpl; rewrite IH; reflexivity.
Qed.

(** C8.  [removePersona id] keeps, in their order, exactly the expenses whose
    payer is not [id]; each of them keeps its id, description, amount, payer
    and date, and its participants are the former ones without [id], in
    their order.  So no remaining expense is paid by [id] or names [id] among
    its participants. *)
Theorem removePersona_cascade (id : string) (s : AppState) :
  Forall2
    (fun g g' =>
       Expense.id g' = Expense.id g
       /\ Expense.descripcion g' = Expense.descripcion g
       /\ Expense.monto g' = Expense.monto g
       /\ Expense.pagadorId g' = Expense.pagadorId g
       /\ Expense.fecha g' = Expense.fecha g
       /\ Expense.participantes g'
          = filter (fun pid => negb (String.eqb pid id)) (Expense.participantes g))
    (filter (fun g => negb (String.eqb (Expense.pagadorId g) id)) (gastos s))
    (gastos (removePersona id s))
  /\ (forall g', In g' (gastos (removePersona id s)) ->
      Expense.pagadorId g' <> id /\ ~ In id (Expense.participantes g'))
  /\ (forall g, In g (gastos s) -> Expense.pagadorId g = id ->
      forall g', In g' (gastos (removePersona id s)) ->
      Expense.pagadorId g' <> Expense.pagadorId g)
  /\ (forall g, In g (gastos s) -> ~ In id (Expense.participantes g) ->
      Expense.pagadorId g <> id -> In g (gastos (removePersona id s))).
Proof.
  unfold removePersona; simpl. rewrite filter_map_without.
  assert (Hin : forall g', In g' (map (without id)
             (filter (fun g => negb (String.eqb (Expense.pagadorId g) id)) (gastos s))) ->
           Expense.pagadorId g' <> id /\ ~ In id (Expense.participantes g')).
  { intros g' H. apply in_map_iff in H. destruct H as [g [<- Hg]].
    apply filter_In in Hg. destruct Hg as [_ Hp]. apply negb_true_iff in Hp.
    apply String.eqb_neq in Hp. split; [exact Hp|].
    simpl. intros Hc. apply filter_In in Hc. destruct Hc as [_ Hc].
    rewrite String.eqb_refl in Hc. discriminate. }
  repeat split.
  - clear Hin.
    induction (filter _ (gastos s)) as [|g gs IH]; simpl; constructor; auto.
    repeat split; reflexivity.
  - apply (Hin g' H).
  - apply (Hin g' H).
  - intros g _ Hp g' Hg'. rewrite Hp. apply (Hin g' Hg').
  - intros g Hg Hnot Hp. apply in_map_iff. exists g. split.
    + destruct g as [gi gd gm gp gl gf]. unfold without. simpl in *. f_equal.
      clear Hg Hp. induction gl as [|x gl IH]; simpl; [reflexivity|].
      destruct (String.eqb x id) eqn:E.
      * apply String.eqb_eq in E. subst. exfalso. apply Hnot. simpl. auto.
      * simpl. f_equal. apply IH. intros Hc. apply Hnot. simpl. auto.
    + apply filter_In. split; [assumption|]. apply negb_true_iff, String.eqb_neq. assumption.
Qed.

(** ** [settlements]: the loop and its cursors *)

Lemma nth_error_skipn (l : list Entry.t) (n : nat) (e : Entry.t) :
  nth_error l n = Some e -> skipn n l = e :: skipn (S n) l.
Proof.
  revert n. induction l as [|x l IH]; intros [|n] H; simpl in *; try discriminate.
  - congruence.
  - apply IH, H.
Qed.

Lemma nth_error_None_skipn (l : list Entry.t) (n : nat) :
  nth_error l n = None -> skipn n l = [].
Proof.
  intros H. apply nth_error_None in H. apply skipn_all2, H.
Qed.

Lemma skipn_set_nth_at (l : list Entry.t) (n : nat) (d e : Entry.t) :
  nth_error l n = Some d -> skipn n (set_nth l n e) = e :: skipn (S n) l.
Proof.
  revert n. induction l as [|x l IH]; intros [|n] H; simpl in *; try discriminate.
  - reflexivity.
  - apply IH, H.
Qed.

Lemma skipn_set_nth_after (l : list Entry.t) (n : nat) (e : Entry.t) :
  skipn (S n) (set_nth l n e) = skipn (S n) l.
Proof.
  revert n. induction l as [|x l IH]; intros [|n]; simpl; try reflexivity.
  apply IH.
Qed.

(** The loop on the arrays and cursors pushes what [pairing] returns on the
    two suffixes. *)
Lemma while_pairing (fuel : nat) (st : Loop) :
  option_map moves (while fuel st)
  = option_map (app (moves st))
      (pairing fuel (skipn (i st) (debtors st)) (skipn (j st) (creditors st))).
Proof.
  revert st. induction fuel as [|fuel IH]; intros st.
  - simpl. unfold loop_body.
    destruct (nth_error (debtors st) (i st)) as [d|] eqn:Ed.
    + rewrite (nth_error_skipn _ _ _ Ed).
      destruct (nth_error (creditors st) (j st)) as [c|] eqn:Ec.
      * rewrite (nth_error_skipn _ _ _ Ec). reflexivity.
      * rewrite (nth_error_None_skipn _ _ Ec). simpl. rewrite app_nil_r. reflexivity.
    + rewrite (nth_error_None_skipn _ _ Ed). simpl. rewrite app_nil_r. reflexivity.
  - simpl. unfold loop_body.
    destruct (nth_error (debtors st) (i st)) as [d|] eqn:Ed.
    + rewrite (nth_error_skipn _ _ _ Ed).
      destruct (nth_error (creditors st) (j st)) as [c|] eqn:Ec.
      * rewrite (nth_error_skipn _ _ _ Ec). rewrite IH. simpl.
        set (pay := Qmin (Entry.amount d) (Entry.amount c)).
        assert (Hd : skipn (if Qle_bool (Entry.amount d - pay) tol then S (i st) else i st)
                       (set_nth (debtors st) (i st) (Entry.mk (Entry.id d) (Entry.amount d - pay)))
                     = if Qle_bool (Entry.amount d - pay) tol
                       then skipn (S (i st)) (debtors st)
                       else Entry.mk (Entry.id d) (Entry.amount d - pay)
                            :: skipn (S (i st)) (debtors st)).
        { destruct (Qle_bool (Entry.amount d - pay) tol).
          - apply skipn_set_nth_after.
          - apply (skipn_set_nth_at _ _ d), Ed. }
        assert (Hc : skipn (if Qle_bool (Entry.amount c - pay) tol then S (j st) else j st)
                       (set_nth (creditors st) (j st) (Entry.mk (Entry.id c) (Entry.amount c - pay)))
                     = if Qle_bool (Entry.amount c - pay) tol
                       then skipn (S (j st)) (creditors st)
                       else Entry.mk (Entry.id c) (Entry.amount c - pay)
                            :: skipn (S (j st)) (creditors st)).
        { destruct (Qle_bool (Entry.amount c - pay) tol).
          - apply skipn_set_nth_after.
          - apply (skipn_set_nth_at _ _ c), Ec. }
        rewrite Hd, Hc.
        destruct (pairing fuel _ _) as [rest|]; simpl; [|reflexivity].
        rewrite <- app_assoc. reflexivity.
      * rewrite (nth_error_None_skipn _ _ Ec). simpl. rewrite app_nil_r. reflexivity.
    + rewrite (nth_error_None_skipn _ _ Ed). simpl. rewrite app_nil_r. reflexivity.
Qed.

Lemma settlements_pairing (b : Balances) :
  settlements b
  = pairing (List.length (debtors_of b) + List.length (creditors_of b))
      (debtors_of b) (creditors_of b).
Proof.
  unfold settlements. rewrite while_pairing. simpl.
  destruct (pairing _ _ _); reflexivity.
Qed.

(** ** [settlements]: one pass of the loop *)

(** [Math.min] returns one of its arguments, so one of the two remaining
    amounts becomes zero. *)
Lemma pay_min (x y : Q) :
  Qmin x y <= x /\ Qmin x y <= y /\ (x - Qmin x y == 0 \/ y - Qmin x y == 0).
Proof.
  destruct (Q.min_spec x y) as [[Hlt E]|[Hle E]]; rewrite E; repeat split; lra.
Qed.

Lemma pay_advances (x y : Q) :
  Qle_bool (x - Qmin x y) tol = true \/ Qle_bool (y - Qmin x y) tol = true.
Proof.
  pose proof tol_pos.
  destruct (pay_min x y) as [_ [_ [H0|H0]]]; [left|right];
    apply Qle_bool_iff; rewrite H0; lra.
Qed.

Lemma pairing_Pairs (fuel : nat) (ds cs : list Entry.t) (ms : list Move.t) :
  pairing fuel ds cs = Some ms -> Pairs ds cs ms.
Proof.
  revert ds cs ms. induction fuel as [|fuel IH]; intros [|d ds] [|c cs] ms H;
    simpl in H; try (injection H as <-; constructor); try discriminate.
  set (pay := Qmin (Entry.amount d) (Entry.amount c)) in *.
  destruct (pairing fuel _ _) as [rest|] eqn:E; [|discriminate].
  injection H as <-. apply IH in E.
  destruct (Qle_bool (Entry.amount d - pay) tol) eqn:Ed;
    destruct (Qle_bool (Entry.amount c - pay) tol) eqn:Ec.
  - apply Qle_bool_iff in Ed, Ec. apply Pairs_both; auto.
  - apply Qle_bool_iff in Ed. apply Qle_bool_gt in Ec. apply Pairs_debtor; auto.
  - apply Qle_bool_gt in Ed. apply Qle_bool_iff in Ec. apply Pairs_creditor; auto.
  - subst pay. destruct (pay_advances (Entry.amount d) (Entry.amount c)); congruence.
Qed.

(** Every pass advances a cursor, so the loop ends within as many passes as
    there are entries left. *)
Lemma pairing_total (fuel : nat) (ds cs : list Entry.t) :
  (List.length ds + List.length cs <= fuel)%nat ->
  exists ms, pairing fuel ds cs = Some ms.
Proof.
  revert ds cs. induction fuel as [|fuel IH]; intros [|d ds] [|c cs] H;
    simpl in *; eauto; try lia.
  set (pay := Qmin (Entry.amount d) (Entry.amount c)).
  match goal with
  | |- exists ms, option_map _ (pairing fuel ?a ?b) = Some ms =>
      destruct (IH a b) as [rest Hrest]
  end.
  - destruct (pay_advances (Entry.amount d) (Entry.amount c)) as [E|E];
      fold pay in E; rewrite E;
      match goal with |- context [if ?t then _ else _] => destruct t end;
      simpl; lia.
  - rewrite Hrest. simpl. eauto.
Qed.

Lemma Pairs_positive (ds cs : list Entry.t) (ms : list Move.t) :
  Pairs ds cs ms ->
  Forall (fun e => tol < Entry.amount e) ds ->
  Forall (fun e => tol < Entry.amount e) cs ->
  Forall (fun m => tol < Move.amount m) ms.
Proof.
  induction 1 as [cs|ds|d c ds cs pay rest Hpay Hd Hc _ IH
                 |d c ds cs pay rest Hpay Hd Hc _ IH
                 |d c ds cs pay rest Hpay Hd Hc _ IH]; intros Hds Hcs;
    try constructor; inversion Hds; inversion Hcs; subst; simpl.
  all: try (destruct (Q.min_spec (Entry.amount d) (Entry.amount c)) as [[_ E]|[_ E]];
            rewrite E; assumption).
  all: apply IH; try assumption; constructor; simpl; assumption.
Qed.

Lemma Pairs_ids (ds cs : list Entry.t) (ms : list Move.t) :
  Pairs ds cs ms ->
  Forall (fun m => In (Move.fromId m) (map Entry.id ds)
                   /\ In (Move.toId m) (map Entry.id cs)) ms.
Proof.
  induction 1; try constructor; simpl in *; auto.
  all: eapply Forall_impl; [|eassumption]; simpl; intros m [Hfrom Hto]; tauto.
Qed.

(** ** [settlements]: debtors and creditors *)

Lemma insert_desc_perm (e : Entry.t) (l : list Entry.t) :
  Permutation (insert_desc e l) (e :: l).
Proof.
  induction l as [|x l IH]; simpl; [reflexivity|].
  destruct (Qltb (Entry.amount e) (Entry.amount x)); [|reflexivity].
  rewrite IH. apply perm_swap.
Qed.

Lemma sort_desc_perm (l : list Entry.t) : Permutation (sort_desc l) l.
Proof.
  induction l as [|e l IH]; simpl; [reflexivity|].
  rewrite insert_desc_perm, IH. reflexivity.
Qed.

Lemma get_In (b : Balances) (k : string) (v : Q) :
  get b k = Some v -> In (k, v) b.
Proof.
  induction b as [|[k' v'] b IH]; simpl; [discriminate|].
  destruct (String.eqb k' k) eqn:E.
  - apply String.eqb_eq in E. intros [= ->]. subst. auto.
  - auto.
Qed.

Lemma In_get (b : Balances) (k : string) (v : Q) :
  NoDup (keys b) -> In (k, v) b -> get b k = Some v.
Proof.
  induction b as [|[k' v'] b IH]; simpl; [tauto|].
  intros Hnd [Heq|Hin]; inversion Hnd as [|? ? Hnotin Hnd']; subst.
  - injection Heq as -> ->. rewrite String.eqb_refl. reflexivity.
  - destruct (String.eqb k' k) eqn:E.
    + apply String.eqb_eq in E. subst. exfalso. apply Hnotin.
      apply (in_map fst) in Hin. exact Hin.
    + apply IH; assumption.
Qed.

Section Classify.
Variable b : Balances.

Lemma classify_debtors_In (e : Entry.t) :
  In e (fst (classify b))
  <-> exists v, In (Entry.id e, v) b /\ v < - tol /\ Entry.amount e = - v.
Proof.
  induction b as [|[k v] b' IH]; simpl.
  - split; [tauto | intros [v [[] _]]].
  - destruct (classify b') as [ds cs]. simpl in IH.
    destruct (Qltb v (- tol)) eqn:E1; [|destruct (Qltb tol v) eqn:E2]; simpl; rewrite IH.
    + apply Qltb_lt in E1. split.
      * intros [<-|[v' [Hin H]]]; [exists v; simpl; auto | exists v'; tauto].
      * intros [v' [[Heq|Hin] [Hlt Ha]]]; [|right; eauto].
        injection Heq as -> ->. left. destruct e; simpl in *; congruence.
    + apply Qltb_ge in E1. split.
      * intros [v' [Hin H]]. exists v'. tauto.
      * intros [v' [[Heq|Hin] [Hlt Ha]]]; [|eauto]. injection Heq as -> ->. lra.
    + apply Qltb_ge in E1. split.
      * intros [v' [Hin H]]. exists v'. tauto.
      * intros [v' [[Heq|Hin] [Hlt Ha]]]; [|eauto]. injection Heq as -> ->. lra.
Qed.

Lemma classify_creditors_In (e : Entry.t) :
  In e (snd (classify b))
  <-> exists v, In (Entry.id e, v) b /\ tol < v /\ Entry.amount e = v.
Proof.
  pose proof tol_pos as Htol.
  induction b as [|[k v] b' IH]; simpl.
  - split; [tauto | intros [v [[] _]]].
  - destruct (classify b') as [ds cs]. simpl in IH.
    destruct (Qltb v (- tol)) eqn:E1; [|destruct (Qltb tol v) eqn:E2]; simpl; rewrite IH.
    + apply Qltb_lt in E1. split.
      * intros [v' [Hin H]]. exists v'. tauto.
      * intros [v' [[Heq|Hin] [Hlt Ha]]]; [|eauto]. injection Heq as -> ->. lra.
    + apply Qltb_lt in E2. split.
      * intros [<-|[v' [Hin H]]]; [exists v; simpl; auto | exists v'; tauto].
      * intros [v' [[Heq|Hin] [Hlt Ha]]]; [|right; eauto].
        injection Heq as -> ->. left. destruct e; simpl in *; congruence.
    + apply Qltb_ge in E2. split.
      * intros [v' [Hin H]]. exists v'. tauto.
      * intros [v' [[Heq|Hin] [Hlt Ha]]]; [|eauto]. injection Heq as -> ->. lra.
Qed.
End Classify.

Lemma debtors_of_In (b : Balances) (e : Entry.t) :
  In e (debtors_of b)
  <-> exists v, In (Entry.id e, v) b /\ v < - tol /\ Entry.amount e = - v.
Proof.
  rewrite <- classify_debtors_In. unfold debtors_of.
  split; apply Permutation_in; [|symmetry]; apply sort_desc_perm.
Qed.

Lemma creditors_of_In (b : Balances) (e : Entry.t) :
  In e (creditors_of b)
  <-> exists v, In (Entry.id e, v) b /\ tol < v /\ Entry.amount e = v.
Proof.
  rewrite <- classify_creditors_In. unfold creditors_of.
  split; apply Permutation_in; [|symmetry]; apply sort_desc_perm.
Qed.

Lemma debtors_of_id (b : Balances) (x : string) :
  In x (map Entry.id (debtors_of b)) <-> exists v, In (x, v) b /\ v < - tol.
Proof.
  rewrite in_map_iff. split.
  - intros [e [<- He]]. apply debtors_of_In in He. destruct He as [v [Hin [Hlt _]]]. eauto.
  - intros [v [Hin Hlt]]. exists (Entry.mk x (- v)). split; [reflexivity|].
    apply debtors_of_In. exists v. simpl. auto.
Qed.

Lemma creditors_of_id (b : Balances) (x : string) :
  In x (map Entry.id (creditors_of b)) <-> exists v, In (x, v) b /\ tol < v.
Proof.
  rewrite in_map_iff. split.
  - intros [e [<- He]]. apply creditors_of_In in He. destruct He as [v [Hin [Hlt _]]]. eauto.
  - intros [v [Hin Hlt]]. exists (Entry.mk x v). split; [reflexivity|].
    apply creditors_of_In. exists v. simpl. auto.
Qed.

Lemma debtors_of_above (b : Balances) :
  Forall (fun e => tol < Entry.amount e) (debtors_of b).
Proof.
  apply Forall_forall. intros e He. apply debtors_of_In in He.
  destruct He as [v [_ [Hlt ->]]]. lra.
Qed.

Lemma creditors_of_above (b : Balances) :
  Forall (fun e => tol < Entry.amount e) (creditors_of b).
Proof.
  apply Forall_forall. intros e He. apply creditors_of_In in He.
  destruct He as [v [_ [Hlt ->]]]. lra.
Qed.

(** ** [settlements]: the claims on the loop *)

Lemma settlements_Pairs (b : Balances) :
  exists ms, settlements b = Some ms /\ Pairs (debtors_of b) (creditors_of b) ms.
Proof.
  rewrite settlements_pairing.
  destruct (pairing_total _ (debtors_of b) (creditors_of b) (Nat.le_refl _)) as [ms H].
  exists ms. split; [assumption|]. eapply pairing_Pairs, H.
Qed.



(** ** [settlements]: who pays and who receives how much *)

Lemma Qnat_entries_cons (e : Entry.t) (l : list Entry.t) (x : string) :
  Qnat (entries_of (e :: l) x)
  == (if String.eqb (Entry.id e) x then 1 else 0) + Qnat (entries_of l x).
Proof.
  unfold entries_of. simpl. destruct (String.eqb (Entry.id e) x); simpl List.length.
  - rewrite Qnat_S. lra.
  - lra.
Qed.

Lemma paid_by_nonneg (x : string) (ms : list Move.t) :
  Forall (fun m => tol < Move.amount m) ms -> 0 <= paid_by x ms.
Proof.
  pose proof tol_pos.
  induction 1 as [|m ms Hm _ IH]; simpl; [lra|].
  destruct (String.eqb (Move.fromId m) x); lra.
Qed.

Lemma received_by_nonneg (x : string) (ms : list Move.t) :
  Forall (fun m => tol < Move.amount m) ms -> 0 <= received_by x ms.
Proof.
  pose proof tol_pos.
  induction 1 as [|m ms Hm _ IH]; simpl; [lra|].
  destruct (String.eqb (Move.toId m) x); lra.
Qed.

Lemma owed_nonneg (l : list Entry.t) (x : string) :
  Forall (fun e => tol < Entry.amount e) l -> 0 <= owed l x.
Proof.
  pose proof tol_pos.
  induction 1 as [|e l He _ IH]; simpl; [lra|].
  destruct (String.eqb (Entry.id e) x); lra.
Qed.

(** Nobody pays more than they owe, nor receives more than they are owed. *)
Lemma Pairs_paid_le (ds cs : list Entry.t) (ms : list Move.t) (x : string) :
  Pairs ds cs ms ->
  Forall (fun e => tol < Entry.amount e) ds ->
  Forall (fun e => tol < Entry.amount e) cs ->
  paid_by x ms <= owed ds x /\ received_by x ms <= owed cs x.
Proof.
  induction 1 as [cs|ds|d c ds cs pay rest Hpay Hd Hc _ IH
                 |d c ds cs pay rest Hpay Hd Hc _ IH
                 |d c ds cs pay rest Hpay Hd Hc _ IH]; intros Hds Hcs.
  1,2: pose proof (owed_nonneg _ x Hds); pose proof (owed_nonneg _ x Hcs);
    simpl in *; lra.
  all: inversion Hds; inversion Hcs; subst;
    destruct IH as [IH1 IH2]; try assumption; try (constructor; assumption);
    destruct (pay_min (Entry.amount d) (Entry.amount c)) as [Hle1 [Hle2 _]];
    simpl in *;
    destruct (String.eqb (Entry.id d) x), (String.eqb (Entry.id c) x); lra.
Qed.

(** When the loop ends, one of the two lists is used up: either every debtor
    has paid what it owed, or every creditor has received what it was owed,
    up to the tolerance. *)
Lemma Pairs_exhausts (ds cs : list Entry.t) (ms : list Move.t) :
  Pairs ds cs ms ->
  (forall x, owed ds x - tol * Qnat (entries_of ds x) <= paid_by x ms)
  \/ (forall x, owed cs x - tol * Qnat (entries_of cs x) <= received_by x ms).
Proof.
  induction 1 as [cs|ds|d c ds cs pay rest Hpay Hd Hc _ IH
                 |d c ds cs pay rest Hpay Hd Hc _ IH
                 |d c ds cs pay rest Hpay Hd Hc _ IH].
  - left. intros x. simpl. change (Qnat (entries_of [] x)) with 0. lra.
  - right. intros x. simpl. change (Qnat (entries_of [] x)) with 0. lra.
  - destruct IH as [IH|IH]; [left|right]; intros x; specialize (IH x);
      rewrite Qnat_entries_cons; simpl;
      destruct (String.eqb (Entry.id d) x), (String.eqb (Entry.id c) x); lra.
  - destruct IH as [IH|IH]; [left|right]; intros x; specialize (IH x);
      rewrite Qnat_entries_cons in *; simpl in *;
      destruct (String.eqb (Entry.id d) x), (String.eqb (Entry.id c) x); lra.
  - destruct IH as [IH|IH]; [left|right]; intros x; specialize (IH x);
      rewrite Qnat_entries_cons in *; simpl in *;
      destruct (String.eqb (Entry.id d) x), (String.eqb (Entry.id c) x); lra.
Qed.

(** ** [settlements]: the lists against the balance object *)

Lemma owed_perm (l l' : list Entry.t) (x : string) :
  Permutation l l' -> owed l x == owed l' x.
Proof.
  induction 1; simpl; try lra.
Qed.

Lemma entries_of_perm (l l' : list Entry.t) (x : string) :
  Permutation l l' -> entries_of l x = entries_of l' x.
Proof.
  unfold entries_of. induction 1 as [|e l l' _ IH|e e' l|l l' l'' _ IH1 _ IH2]; simpl.
  - reflexivity.
  - destruct (String.eqb (Entry.id e) x); simpl; congruence.
  - destruct (String.eqb (Entry.id e) x), (String.eqb (Entry.id e') x); reflexivity.
  - congruence.
Qed.

Lemma owed_absent (l : list Entry.t) (x : string) :
  ~ In x (map Entry.id l) -> owed l x == 0 /\ entries_of l x = 0%nat.
Proof.
  unfold entries_of. induction l as [|e l IH]; simpl; intros H.
  - split; reflexivity.
  - destruct (String.eqb (Entry.id e) x) eqn:E.
    + apply String.eqb_eq in E. tauto.
    + destruct IH as [IH1 IH2]; [tauto|]. split; [lra | assumption].
Qed.

Lemma classify_ids (b : Balances) (x : string) :
  In x (map Entry.id (fst (classify b))) \/ In x (map Entry.id (snd (classify b))) ->
  In x (keys b).
Proof.
  intros [H|H]; apply in_map_iff in H; destruct H as [e [<- He]].
  - apply classify_debtors_In in He. destruct He as [v [Hin _]].
    apply (in_map fst) in Hin. exact Hin.
  - apply classify_creditors_In in He. destruct He as [v [Hin _]].
    apply (in_map fst) in Hin. exact Hin.
Qed.

Lemma NoDup_classify (b : Balances) :
  NoDup (keys b) ->
  NoDup (map Entry.id (fst (classify b))) /\ NoDup (map Entry.id (snd (classify b))).
Proof.
  induction b as [|[k v] b IH]; simpl; intros Hnd.
  - split; constructor.
  - inversion Hnd as [|? ? Hk Hnd']; subst. destruct (IH Hnd') as [IHd IHc].
    assert (Hd : ~ In k (map Entry.id (fst (classify b))))
      by (intros H; apply Hk, classify_ids; auto).
    assert (Hc : ~ In k (map Entry.id (snd (classify b))))
      by (intros H; apply Hk, classify_ids; auto).
    destruct (classify b) as [ds cs]. simpl in *.
    destruct (Qltb v (- tol)); [|destruct (Qltb tol v)]; simpl; split;
      try assumption; constructor; assumption.
Qed.

(** What the two lists hold for a key of the balance object. *)
Lemma classify_owed (b : Balances) (x : string) (v : Q) :
  NoDup (keys b) ->
  get b x = Some v ->
  let (ds, cs) := classify b in
  owed ds x == (if Qltb v (- tol) then - v else 0)
  /\ entries_of ds x = (if Qltb v (- tol) then 1 else 0)%nat
  /\ owed cs x == (if Qltb v (- tol) then 0 else if Qltb tol v then v else 0)
  /\ entries_of cs x = (if Qltb v (- tol) then 0 else if Qltb tol v then 1 else 0)%nat.
Proof.
  induction b as [|[k v0] b IH]; simpl; [discriminate|].
  intros Hnd Hget. inversion Hnd as [|? ? Hnotin Hnd']; subst.
  destruct (String.eqb k x) eqn:E.
  - apply String.eqb_eq in E. subst k. injection Hget as ->.
    assert (Hd : ~ In x (map Entry.id (fst (classify b))))
      by (intros Hc; apply Hnotin, classify_ids; auto).
    assert (Hc : ~ In x (map Entry.id (snd (classify b))))
      by (intros Hc; apply Hnotin, classify_ids; auto).
    apply owed_absent in Hd, Hc. destruct Hd as [Hd1 Hd2], Hc as [Hc1 Hc2].
    destruct (classify b) as [ds cs]. simpl in *.
    unfold entries_of in *.
    destruct (Qltb v (- tol)); [|destruct (Qltb tol v)]; simpl;
      rewrite ?String.eqb_refl; simpl; rewrite ?Hd2, ?Hc2; repeat split; lra.
  - specialize (IH Hnd' Hget). destruct (classify b) as [ds cs].
    unfold entries_of in *.
    destruct (Qltb v0 (- tol)); [|destruct (Qltb tol v0)]; simpl; rewrite ?E;
      destruct IH as [IH1 [IH2 [IH3 IH4]]]; repeat split; try assumption; lra.
Qed.

Lemma settle_owed (b : Balances) (x : string) (v : Q) :
  NoDup (keys b) ->
  get b x = Some v ->
  owed (debtors_of b) x == (if Qltb v (- tol) then - v else 0)
  /\ entries_of (debtors_of b) x = (if Qltb v (- tol) then 1 else 0)%nat
  /\ owed (creditors_of b) x == (if Qltb v (- tol) then 0 else if Qltb tol v then v else 0)
  /\ entries_of (creditors_of b) x
     = (if Qltb v (- tol) then 0 else if Qltb tol v then 1 else 0)%nat.
Proof.
  intros Hnd Hget. pose proof (classify_owed b x v Hnd Hget) as H.
  unfold debtors_of, creditors_of. destruct (classify b) as [ds cs]. simpl.
  rewrite (owed_perm _ _ x (sort_desc_perm ds)), (owed_perm _ _ x (sort_desc_perm cs)).
  rewrite (entries_of_perm _ _ x (sort_desc_perm ds)),
    (entries_of_perm _ _ x (sort_desc_perm cs)).
  exact H.
Qed.

(** ** Transfers carried out on the balance object *)

Lemma get0_apply_move (b : Balances) (m : Move.t) (x : string) :
  get0 (apply_move b m) x
  == get0 b x + (if String.eqb (Move.fromId m) x then Move.amount m else 0)
     - (if String.eqb (Move.toId m) x then Move.amount m else 0).
Proof.
  unfold apply_move.
  destruct (String.eqb (Move.toId m) x) eqn:Et.
  - apply String.eqb_eq in Et. rewrite Et, get0_set_same.
    destruct (String.eqb (Move.fromId m) x) eqn:Ef.
    + apply String.eqb_eq in Ef. rewrite Ef, get0_set_same. lra.
    + apply String.eqb_neq in Ef. rewrite get0_set_other by assumption. lra.
  - apply String.eqb_neq in Et. rewrite get0_set_other by assumption.
    destruct (String.eqb (Move.fromId m) x) eqn:Ef.
    + apply String.eqb_eq in Ef. rewrite Ef, get0_set_same. lra.
    + apply String.eqb_neq in Ef. rewrite get0_set_other by assumption. lra.
Qed.

Lemma get0_apply_moves (b : Balances) (ms : list Move.t) (x : string) :
  get0 (apply_moves b ms) x == get0 b x + paid_by x ms - received_by x ms.
Proof.
  unfold apply_moves. revert b. induction ms as [|m ms IH]; intros b; simpl.
  - lra.
  - rewrite IH, get0_apply_move. lra.
Qed.

Lemma keys_set_present (b : Balances) (k : string) (v : Q) :
  In k (keys b) -> keys (set b k v) = keys b.
Proof.
  intros H. rewrite keys_set. destruct (in_dec string_dec k (keys b)); tauto.
Qed.

Lemma keys_apply_moves (b : Balances) (ms : list Move.t) :
  Forall (fun m => In (Move.fromId m) (keys b) /\ In (Move.toId m) (keys b)) ms ->
  keys (apply_moves b ms) = keys b.
Proof.
  unfold apply_moves. revert b. induction ms as [|m ms IH]; intros b H; simpl.
  - reflexivity.
  - inversion H as [|? ? [Hf Ht] Hrest]; subst.
    assert (Hk : keys (apply_move b m) = keys b).
    { unfold apply_move. rewrite keys_set_present; rewrite keys_set_present; auto. }
    rewrite IH; [exact Hk|]. rewrite Hk. assumption.
Qed.

Lemma get_get0 (b : Balances) (k : string) (v : Q) :
  get b k = Some v -> get0 b k = v.
Proof. intros H. unfold get0. rewrite H. reflexivity. Qed.

(** ** [settlements]: what the transfers leave *)

(** A balance moves towards zero and does not cross it; it ends within the
    tolerance on the side of the list that the loop used up. *)
Lemma settle_value (b : Balances) (ms : list Move.t) (x : string) (v : Q) :
  NoDup (keys b) ->
  Pairs (debtors_of b) (creditors_of b) ms ->
  get b x = Some v ->
  (0 <= v -> 0 <= get0 (apply_moves b ms) x <= v)
  /\ (v <= 0 -> v <= get0 (apply_moves b ms) x <= 0)
  /\ (owed (debtors_of b) x - tol * Qnat (entries_of (debtors_of b) x) <= paid_by x ms ->
      - tol <= get0 (apply_moves b ms) x)
  /\ (owed (creditors_of b) x - tol * Qnat (entries_of (creditors_of b) x)
      <= received_by x ms ->
      get0 (apply_moves b ms) x <= tol).
Proof.
  intros Hnd Hp Hget. pose proof tol_pos as Htol.
  rewrite get0_apply_moves, (get_get0 _ _ _ Hget).
  destruct (settle_owed b x v Hnd Hget) as [Hod [Hed [Hoc Hec]]].
  destruct (Pairs_paid_le _ _ _ x Hp (debtors_of_above b) (creditors_of_above b))
    as [Hpaid Hrecv].
  pose proof (Pairs_positive _ _ _ Hp (debtors_of_above b) (creditors_of_above b)) as Hpos.
  pose proof (paid_by_nonneg x ms Hpos) as Hp0.
  pose proof (received_by_nonneg x ms Hpos) as Hr0.
  rewrite Hed, Hec, Hod, Hoc in *. clear Hed Hec Hod Hoc.
  destruct (Qltb v (- tol)) eqn:E1; [|destruct (Qltb tol v) eqn:E2];
    try apply Qltb_lt in E1; try apply Qltb_lt in E2;
    try apply Qltb_ge in E1; try apply Qltb_ge in E2;
    change (Qnat 1) with 1; change (Qnat 0) with 0;
    repeat split; intros; lra.
Qed.

Lemma settle_ids (b : Balances) (ms : list Move.t) :
  Pairs (debtors_of b) (creditors_of b) ms ->
  Forall (fun m => In (Move.fromId m) (keys b) /\ In (Move.toId m) (keys b)) ms.
Proof.
  intros Hp. eapply Forall_impl; [|apply (Pairs_ids _ _ _ Hp)].
  simpl. intros m [Hf Ht]. split.
  - apply debtors_of_id in Hf. destruct Hf as [v [Hin _]].
    apply (in_map fst) in Hin. exact Hin.
  - apply creditors_of_id in Ht. destruct Ht as [v [Hin _]].
    apply (in_map fst) in Hin. exact Hin.
Qed.

Lemma get_Some_keys (b : Balances) (k : string) :
  In k (keys b) -> exists v, get b k = Some v.
Proof.
  intros H. destruct (get b k) as [v|] eqn:E; [eauto|].
  apply get_None_keys in E. contradiction.
Qed.

(** ** The example data of the page *)

(** The balances of [loadEjemplo] over the rationals: Ana is owed 27.13,
    Luis owes 13.27 and Tu owes 13.87; without rounding, the two suggested
    transfers settle them exactly. *)
Example ejemplo_balances :
  reduced (balances ejemplo_personas ejemplo_gastos)
  = [("a", 407 # 15); ("l", - 199 # 15); ("t", - 208 # 15)]%string.
Proof. vm_compute. reflexivity. Qed.

Example ejemplo_settlements :
  option_map reduced_moves (settlements (balances ejemplo_personas ejemplo_gastos))
  = Some [Move.mk "t" "a" (208 # 15); Move.mk "l" "a" (199 # 15)].
Proof. vm_compute. reflexivity. Qed.

Example ejemplo_settled :
  option_map (fun ms => reduced (apply_moves (balances ejemplo_personas ejemplo_gastos) ms))
    (settlements (balances ejemplo_personas ejemplo_gastos))
  = Some [("a", 0); ("l", 0); ("t", 0)]%string.
Proof. vm_compute. reflexivity. Qed.

(** The transfers of [ex_taxi]: A and B each pay T 15. *)
Example ex_taxi_settlements :
  option_map reduced_moves (settlements (balances ex_personas [ex_taxi]))
  = Some [Move.mk ex_A ex_T 15; Move.mk ex_B ex_T 15].
Proof. vm_compute. reflexivity. Qed.

(** * More properties of the page *)

(** ** [settlements]: who pays whom *)

(** X2.  Every transfer the computation returns goes from a participant
    whose balance is below -0.005 to one whose balance is above 0.005;
    nobody pays themselves. *)
Theorem settlements_debtor_to_creditor (b : Balances) (ms : list Move.t) :
  NoDup (keys b) ->
  settlements b = Some ms ->
  Forall (fun m =>
            exists v v',
              get b (Move.fromId m) = Some v /\ v < - (5 # 1000)
              /\ get b (Move.toId m) = Some v' /\ 5 # 1000 < v'
              /\ Move.fromId m <> Move.toId m) ms.
Proof.
  intros Hnd Hs. destruct (settlements_Pairs b) as [ms' [Hs' Hp]].
  rewrite Hs in Hs'. injection Hs' as <-.
  eapply Forall_impl; [|apply (Pairs_ids _ _ _ Hp)].
  simpl. intros m [Hf Ht].
  apply debtors_of_id in Hf. destruct Hf as [v [Hv Hlt]].
  apply creditors_of_id in Ht. destruct Ht as [v' [Hv' Hgt]].
  apply (In_get _ _ _ Hnd) in Hv, Hv'. unfold tol in *.
  exists v, v'. repeat split; try assumption.
  intros Heq. rewrite Heq in Hv. rewrite Hv in Hv'. injection Hv' as ->. lra.
Qed.

Lemma settlements_debtor_to_creditor_witness :
  Forall (fun m => Move.fromId m <> Move.toId m)
    [Move.mk ex_A ex_T (0 + 10); Move.mk ex_B ex_X (0 + 10)].
Proof.
  assert (Hnd : NoDup (keys (balances ex_five ex_debts))).
  { vm_compute. repeat constructor; simpl; intuition discriminate. }
  eapply Forall_impl;
    [|apply (settlements_debtor_to_creditor (balances ex_five ex_debts) _ Hnd eq_refl)].
  simpl. intros m [v [v' [_ [_ [_ [_ Hne]]]]]]. exact Hne.
Defined.

Lemma Pairs_nil (ds cs : list Entry.t) :
  Pairs ds cs [] <-> ds = [] \/ cs = [].
Proof.
  split.
  - inversion 1; auto.
  - intros [->| ->]; constructor.
Qed.

Lemma Pairs_functional (ds cs : list Entry.t) (ms ms' : list Move.t) :
  Pairs ds cs ms -> Pairs ds cs ms' -> ms = ms'.
Proof.
  intros H. revert ms'.
  induction H as [cs|ds|d c ds cs pay rest Hpay Hd Hc _ IH
                 |d c ds cs pay rest Hpay Hd Hc _ IH
                 |d c ds cs pay rest Hpay Hd Hc _ IH]; intros ms' H';
    inversion H'; subst; try reflexivity; try lra; f_equal; apply IH; assumption.
Qed.

Lemma debtors_of_nil (b : Balances) :
  debtors_of b = [] <-> (forall x v, In (x, v) b -> - tol <= v).
Proof.
  split.
  - intros H x v Hin. destruct (Qlt_le_dec v (- tol)) as [Hlt|Hle]; [|assumption].
    assert (Hd : In (Entry.mk x (- v)) (debtors_of b))
      by (apply debtors_of_In; exists v; simpl; auto).
    rewrite H in Hd. destruct Hd.
  - intros H. destruct (debtors_of b) as [|e l] eqn:E; [reflexivity|].
    assert (He : In e (debtors_of b)) by (rewrite E; left; reflexivity).
    apply debtors_of_In in He. destruct He as [v [Hin [Hlt _]]].
    specialize (H _ _ Hin). lra.
Qed.

Lemma creditors_of_nil (b : Balances) :
  creditors_of b = [] <-> (forall x v, In (x, v) b -> v <= tol).
Proof.
  split.
  - intros H x v Hin. destruct (Qlt_le_dec tol v) as [Hlt|Hle]; [|assumption].
    assert (Hd : In (Entry.mk x v) (creditors_of b))
      by (apply creditors_of_In; exists v; simpl; auto).
    rewrite H in Hd. destruct Hd.
  - intros H. destruct (creditors_of b) as [|e l] eqn:E; [reflexivity|].
    assert (He : In e (creditors_of b)) by (rewrite E; left; reflexivity).
    apply creditors_of_In in He. destruct He as [v [Hin [Hlt _]]].
    specialize (H _ _ Hin). lra.
Qed.

Lemma settlements_nil_iff (b : Balances) :
  settlements b = Some []
  <-> (forall x v, In (x, v) b -> - tol <= v) \/ (forall x v, In (x, v) b -> v <= tol).
Proof.
  rewrite <- debtors_of_nil, <- creditors_of_nil, <- Pairs_nil.
  destruct (settlements_Pairs b) as [ms [Hs Hp]]. rewrite Hs. split.
  - intros [= ->]. assumption.
  - intros H. f_equal. apply (Pairs_functional _ _ _ _ Hp H).
Qed.


(** After the transfers, the keys are the same and one side of the band
    holds for every balance. *)
Lemma settle_rest (b : Balances) (ms : list Move.t) :
  NoDup (keys b) ->
  Pairs (debtors_of b) (creditors_of b) ms ->
  keys (apply_moves b ms) = keys b
  /\ ((forall x v, In (x, v) (apply_moves b ms) -> - tol <= v)
      \/ (forall x v, In (x, v) (apply_moves b ms) -> v <= tol)).
Proof.
  intros Hnd Hp.
  pose proof (keys_apply_moves b ms (settle_ids b ms Hp)) as Hkeys.
  split; [assumption|].
  assert (Hnd' : NoDup (keys (apply_moves b ms))) by (rewrite Hkeys; assumption).
  assert (Hback : forall x v', In (x, v') (apply_moves b ms) ->
            get0 (apply_moves b ms) x = v' /\ exists v, get b x = Some v).
  { intros x v' Hin. split; [apply get_get0, In_get; assumption|].
    apply get_Some_keys. rewrite <- Hkeys. apply (in_map fst) in Hin. exact Hin. }
  destruct (Pairs_exhausts _ _ _ Hp) as [He|He]; [left|right]; intros x v' Hin;
    destruct (Hback x v' Hin) as [<- [v Hv]];
    destruct (settle_value b ms x v Hnd Hp Hv) as [_ [_ [Hl Hu]]]; auto.
Qed.



(** ** [settlements]: the largest first *)

Lemma insert_desc_sorted (e : Entry.t) (l : list Entry.t) :
  StronglySorted (fun x y => Entry.amount y <= Entry.amount x) l ->
  StronglySorted (fun x y => Entry.amount y <= Entry.amount x) (insert_desc e l).
Proof.
  induction 1 as [|x l Hs IH Hall]; simpl.
  - constructor; constructor.
  - destruct (Qltb (Entry.amount e) (Entry.amount x)) eqn:E.
    + apply Qltb_lt in E. constructor; [assumption|].
      apply Forall_forall. intros y Hy.
      apply (Permutation_in _ (insert_desc_perm e l)) in Hy. destruct Hy as [<-|Hy].
      * lra.
      * rewrite Forall_forall in Hall. apply Hall, Hy.
    + apply Qltb_ge in E. constructor; [constructor; assumption|].
      constructor; [assumption|].
      eapply Forall_impl; [|exact Hall]. simpl. intros y Hy. lra.
Qed.

Lemma sort_desc_sorted (l : list Entry.t) :
  StronglySorted (fun x y => Entry.amount y <= Entry.amount x) (sort_desc l).
Proof.
  induction l as [|e l IH]; simpl; [constructor|]. apply insert_desc_sorted, IH.
Qed.

Lemma sorted_head_max (e x : Entry.t) (l : list Entry.t) :
  StronglySorted (fun x y => Entry.amount y <= Entry.amount x) (e :: l) ->
  In x (e :: l) -> Entry.amount x <= Entry.amount e.
Proof.
  intros Hs [<-|Hin]; [lra|]. inversion Hs as [|? ? _ Hall]; subst.
  rewrite Forall_forall in Hall. apply Hall, Hin.
Qed.



(** ** The handlers of the page *)

Lemma uniq_In (l : list string) (x : string) : In x (uniq l) <-> In x l.
Proof.
  induction l as [|y l IH]; simpl; [tauto|].
  rewrite filter_In, IH, negb_true_iff, String.eqb_neq.
  destruct (string_dec y x) as [->|Hne]; intuition congruence.
Qed.

Lemma uniq_NoDup (l : list string) : NoDup (uniq l).
Proof.
  induction l as [|y l IH]; simpl; constructor.
  - rewrite filter_In, String.eqb_refl. simpl. intros [_ H]. discriminate.
  - apply NoDup_filter, IH.
Qed.

Lemma known_removePersona (id : string) (s : AppState) (x : string) :
  known (removePersona id s) x <-> known s x /\ x <> id.
Proof.
  unfold known, removePersona. simpl. rewrite !in_map_iff. split.
  - intros [p [<- Hp]]. apply filter_In in Hp. destruct Hp as [Hp Hne].
    apply negb_true_iff, String.eqb_neq in Hne. eauto.
  - intros [[p [<- Hp]] Hne]. exists p. split; [reflexivity|].
    apply filter_In. split; [assumption|]. apply negb_true_iff, String.eqb_neq, Hne.
Qed.

Lemma gasto_ok_mono (s s' : AppState) (g : Expense.t) :
  (forall x, known s x -> known s' x) -> gasto_ok s g -> gasto_ok s' g.
Proof.
  intros Hk [Hm [Hnd [Hp Hparts]]]. repeat split; auto.
Qed.

Lemma gasto_ok_removePersona (id : string) (s : AppState) (g' : Expense.t) :
  Forall (gasto_ok s) (gastos s) ->
  In g' (gastos (removePersona id s)) ->
  gasto_ok (removePersona id s) g'.
Proof.
  intros Hall Hin. unfold removePersona in Hin. simpl in Hin.
  apply filter_In in Hin. destruct Hin as [Hin Hp].
  apply negb_true_iff, String.eqb_neq in Hp.
  apply in_map_iff in Hin. destruct Hin as [g [<- Hg]].
  rewrite Forall_forall in Hall. destruct (Hall g Hg) as [Hm [Hnd [Hpay Hparts]]].
  simpl in Hp. repeat split; simpl.
  - assumption.
  - apply NoDup_filter, Hnd.
  - apply known_removePersona. auto.
  - intros pid Hpid. apply filter_In in Hpid. destruct Hpid as [Hpid Hne].
    apply negb_true_iff, String.eqb_neq in Hne. apply known_removePersona. auto.
Qed.

Section HandlerProofs.
Variable trim : string -> string.
Variable toLowerCase : string -> string.
Variable iso_date : string -> option string.

Lemma nuevo_gasto_Some (id hoy : string) (pg : Page.t) (g : Expense.t) :
  nuevo_gasto trim iso_date id hoy pg = Some g ->
  trim (Page.descripcion pg) <> EmptyString
  /\ Page.monto pg = Some (Expense.monto g)
  /\ 0 < Expense.monto g
  /\ Page.pagadorId pg <> EmptyString
  /\ Page.participantes pg <> []
  /\ Expense.id g = id
  /\ Expense.descripcion g = trim (Page.descripcion pg)
  /\ Expense.pagadorId g = Page.pagadorId pg
  /\ Expense.participantes g = Page.participantes pg
  /\ (if String.eqb (Page.fecha pg) EmptyString then Some hoy else iso_date (Page.fecha pg))
     = Some (Expense.fecha g).
Proof.
  unfold nuevo_gasto.
  destruct (String.eqb (trim (Page.descripcion pg)) EmptyString) eqn:Ed; [discriminate|].
  destruct (Page.monto pg) as [m|]; [|discriminate].
  destruct (Qle_bool m 0) eqn:Em; [discriminate|].
  destruct (String.eqb (Page.pagadorId pg) EmptyString) eqn:Ep; [discriminate|].
  destruct (List.length (Page.participantes pg) =? 0)%nat eqn:El; [discriminate|].
  destruct (if String.eqb (Page.fecha pg) EmptyString then Some hoy
            else iso_date (Page.fecha pg)) as [f|]; [|discriminate].
  intros [= <-]. simpl.
  apply String.eqb_neq in Ed, Ep. apply Qle_bool_gt in Em. apply Nat.eqb_neq in El.
  repeat split; auto. intros H. rewrite H in El. apply El. reflexivity.
Qed.

(** Each handler keeps [page_ok]. *)
Lemma Step_page_ok (pg pg' : Page.t) :
  page_ok pg -> Step trim toLowerCase iso_date pg pg' -> page_ok pg'.
Proof.
  intros [Hnd [Hknown [Hpay Hgs]]] Hstep.
  destruct Hstep as [id pg|id pg|id pg Hid|id hoy pg|id pg|hoy pg
                    |a l t g1 g2 g3 hoy pg Hal Hat Hlt|id pg Hid|v pg|n d f m pg].
  - unfold addPersona.
    destruct (String.eqb (trim (Page.nuevoNombre pg)) EmptyString);
      [repeat split; assumption|].
    destruct (nombre_exists toLowerCase _ _); [repeat split; assumption|].
    assert (Hmono : forall x, known (Page.state pg) x ->
              In x (map Person.id (personas (Page.state pg)
                                   ++ [Person.mk id (trim (Page.nuevoNombre pg))]))).
    { intros x Hx. rewrite map_app, in_app_iff. left. exact Hx. }
    unfold page_ok. simpl. repeat split.
    + apply uniq_NoDup.
    + intros pid Hpid. apply uniq_In, in_app_iff in Hpid. unfold known. simpl.
      destruct Hpid as [Hpid|[<-|[]]].
      * apply Hmono, Hknown, Hpid.
      * rewrite map_app, in_app_iff. right. simpl. auto.
    + right. unfold known. simpl.
      destruct (String.eqb (Page.pagadorId pg) EmptyString) eqn:E.
      * rewrite map_app, in_app_iff. right. simpl. auto.
      * apply String.eqb_neq in E. destruct Hpay as [Hpay|Hpay]; [contradiction|].
        apply Hmono, Hpay.
    + eapply Forall_impl; [|exact Hgs]. intros g. apply gasto_ok_mono. exact Hmono.
  - unfold page_ok. simpl. repeat split.
    + apply NoDup_filter, Hnd.
    + intros pid Hpid. apply filter_In in Hpid. destruct Hpid as [Hpid Hne].
      apply negb_true_iff, String.eqb_neq in Hne. apply known_removePersona. auto.
    + destruct (String.eqb (Page.pagadorId pg) id) eqn:E; [left; reflexivity|].
      apply String.eqb_neq in E. destruct Hpay as [Hpay|Hpay]; [left; exact Hpay|].
      right. apply known_removePersona. auto.
    + apply Forall_forall. intros g' Hg'. apply gasto_ok_removePersona; assumption.
  - unfold page_ok. simpl. repeat split; try assumption.
    + unfold toggle. destruct (includes (Page.participantes pg) id) eqn:E.
      * apply NoDup_filter, Hnd.
      * apply NoDup_app; [assumption | repeat constructor; simpl; tauto |].
        intros x Hx [<-|[]]. apply includes_In in Hx. congruence.
    + intros pid. unfold toggle. destruct (includes (Page.participantes pg) id).
      * intros Hpid. apply filter_In in Hpid. apply Hknown, Hpid.
      * rewrite in_app_iff. intros [Hpid|[<-|[]]]; [apply Hknown, Hpid | exact Hid].
  - unfold addGasto. destruct (nuevo_gasto trim iso_date id hoy pg) as [g|] eqn:E;
      [|repeat split; assumption].
    apply nuevo_gasto_Some in E.
    destruct E as [_ [_ [Hm [Hp [_ [_ [_ [Epay [Eparts _]]]]]]]]].
    unfold page_ok. simpl. repeat split; try assumption.
    constructor; [|exact Hgs].
    repeat split.
    + assumption.
    + rewrite Eparts. assumption.
    + rewrite Epay. destruct Hpay as [Hpay|Hpay]; [contradiction | exact Hpay].
    + rewrite Eparts. exact Hknown.
  - unfold page_ok. simpl. repeat split; try assumption.
    apply Forall_forall. intros g Hg. apply filter_In in Hg.
    rewrite Forall_forall in Hgs. apply Hgs, Hg.
  - unfold page_ok. simpl. repeat split; auto; try constructor; try contradiction.
  - unfold page_ok, known, gasto_ok. simpl. repeat split; auto.
    + repeat constructor; simpl; intuition congruence.
    + repeat (apply Forall_cons;
              [unfold known; simpl; repeat split; try reflexivity; try tauto;
               repeat constructor; simpl; intuition congruence|]).
      apply Forall_nil.
  - unfold page_ok. simpl. repeat split; auto.
  - unfold page_ok. simpl. repeat split; auto.
  - unfold page_ok. simpl. repeat split; auto.
Qed.

Lemma Reachable_ok (pg : Page.t) :
  Reachable trim toLowerCase iso_date pg -> page_ok pg.
Proof.
  induction 1 as [hoy|pg pg' _ IH Hstep].
  - unfold page_ok. simpl. repeat split; auto; try constructor; try contradiction.
  - eapply Step_page_ok; eassumption.
Qed.
End HandlerProofs.

Lemma AppState_eta (s : AppState) :
  {| personas := personas s; gastos := gastos s; moneda := moneda s; version := version s |}
  = s.
Proof. destruct s. reflexivity. Qed.

Lemma filter_all (id : string) (gs : list Expense.t) :
  Forall (fun g => Expense.id g <> id) gs ->
  filter (fun g => negb (String.eqb (Expense.id g) id)) gs = gs.
Proof.
  induction 1 as [|g gs Hg _ IH]; simpl; [reflexivity|].
  apply String.eqb_neq in Hg. rewrite Hg. simpl. rewrite IH. reflexivity.
Qed.

Lemma sum_zero_balances (ps : list Person.t) (gs : list Expense.t) :
  Forall (fun g => skipped g = false ->
            (count_occ string_dec (Expense.participantes g) (Expense.pagadorId g) <= 1)%nat)
         gs ->
  sum_values (balances ps gs) == 0.
Proof.
  intros H. unfold balances. rewrite <- (sum_values_init_balances ps).
  generalize (init_balances ps) as b.
  induction H as [|g gs Hg _ IH]; intros b; simpl.
  - reflexivity.
  - rewrite IH. apply sum_values_apply_gasto, Hg.
Qed.

Section HandlerTheorems.
Variable trim : string -> string.
Variable toLowerCase : string -> string.
Variable iso_date : string -> option string.

(** X8.  [addGasto] leaves the page as it is when the trimmed description is
    empty, the amount is missing or not positive, no payer is selected, no
    participant is selected, or the date does not convert.  Otherwise it puts
    in front of the expenses one expense with the new id, the trimmed
    description, the amount, payer and participants of the form and the
    converted date (today when the date field is empty), and clears the
    description and the amount of the form; this expense is one that
    [balances] does not skip. *)
Theorem addGasto_counted (id hoy : string) (pg : Page.t) :
  (trim (Page.descripcion pg) = EmptyString
   \/ Page.monto pg = None
   \/ (exists m, Page.monto pg = Some m /\ m <= 0)
   \/ Page.pagadorId pg = EmptyString
   \/ Page.participantes pg = []
   \/ (Page.fecha pg <> EmptyString /\ iso_date (Page.fecha pg) = None) ->
   addGasto trim iso_date id hoy pg = pg)
  /\ (forall m f,
        trim (Page.descripcion pg) <> EmptyString ->
        Page.monto pg = Some m ->
        0 < m ->
        Page.pagadorId pg <> EmptyString ->
        Page.participantes pg <> [] ->
        (if String.eqb (Page.fecha pg) EmptyString then Some hoy
         else iso_date (Page.fecha pg)) = Some f ->
        addGasto trim iso_date id hoy pg
        = {| Page.state :=
               {| personas := personas (Page.state pg);
                  gastos :=
                    Expense.mk id (trim (Page.descripcion pg)) m (Page.pagadorId pg)
                      (Page.participantes pg) f
                    :: gastos (Page.state pg);
                  moneda := moneda (Page.state pg);
                  version := version (Page.state pg) |};
             Page.nuevoNombre := Page.nuevoNombre pg;
             Page.descripcion := EmptyString;
             Page.monto := None;
             Page.pagadorId := Page.pagadorId pg;
             Page.participantes := Page.participantes pg;
             Page.fecha := Page.fecha pg |}
        /\ skipped (Expense.mk id (trim (Page.descripcion pg)) m (Page.pagadorId pg)
                      (Page.participantes pg) f) = false)
  /\ (gastos (Page.state (addGasto trim iso_date id hoy pg)) = gastos (Page.state pg)
      \/ exists g,
           gastos (Page.state (addGasto trim iso_date id hoy pg))
           = g :: gastos (Page.state pg)
           /\ Expense.id g = id).
Proof.
  split; [|split].
  - intros H. unfold addGasto, nuevo_gasto.
    destruct H as [H|[H|[[m [H Hm]]|[H|[H|[Hf H]]]]]].
    + rewrite H. reflexivity.
    + destruct (String.eqb _ _); [reflexivity|]. rewrite H. reflexivity.
    + destruct (String.eqb _ _); [reflexivity|]. rewrite H.
      apply Qle_bool_iff in Hm. rewrite Hm. reflexivity.
    + destruct (String.eqb _ _); [reflexivity|].
      destruct (Page.monto pg); [|reflexivity].
      destruct (Qle_bool _ _); [reflexivity|]. rewrite H. reflexivity.
    + destruct (String.eqb _ _); [reflexivity|].
      destruct (Page.monto pg); [|reflexivity].
      destruct (Qle_bool _ _); [reflexivity|].
      destruct (String.eqb _ _); [reflexivity|]. rewrite H. reflexivity.
    + destruct (String.eqb _ _); [reflexivity|].
      destruct (Page.monto pg); [|reflexivity].
      destruct (Qle_bool _ _); [reflexivity|].
      destruct (String.eqb (Page.pagadorId pg) EmptyString); [reflexivity|].
      destruct (_ =? _)%nat; [reflexivity|].
      apply String.eqb_neq in Hf. rewrite Hf, H. reflexivity.
  - intros m f Hd Hm Hpos Hp Hparts Hf. split.
    + unfold addGasto, nuevo_gasto.
      apply String.eqb_neq in Hd, Hp. rewrite Hd, Hm, Hp.
      apply Qle_bool_gt in Hpos. rewrite Hpos.
      destruct (Page.participantes pg) as [|x l] eqn:E; [congruence|]. simpl.
      rewrite Hf. reflexivity.
    + apply skipped_false. simpl. auto.
  - unfold addGasto. destruct (nuevo_gasto trim iso_date id hoy pg) as [g|] eqn:E;
      simpl; [|auto].
    right. exists g. split; [reflexivity|].
    apply nuevo_gasto_Some in E. tauto.
Qed.

(** X9.  Adding an expense and deleting it again restores the state, when
    its id is not the id of an expense already there. *)
Theorem addGasto_deleteGasto (id hoy : string) (pg : Page.t) :
  Forall (fun g => Expense.id g <> id) (gastos (Page.state pg)) ->
  Page.state (deleteGasto id (addGasto trim iso_date id hoy pg)) = Page.state pg.
Proof.
  intros H. unfold deleteGasto, addGasto.
  destruct (nuevo_gasto trim iso_date id hoy pg) as [g|] eqn:E; simpl.
  - apply nuevo_gasto_Some in E. destruct E as [_ [_ [_ [_ [_ [Eid _]]]]]].
    rewrite Eid, String.eqb_refl. simpl. rewrite (filter_all _ _ H). apply AppState_eta.
  - rewrite (filter_all _ _ H). apply AppState_eta.
Qed.


(** X11.  [toggleParticipante id] selects [id] when it was not selected
    and deselects it when it was; the other ids stay as they are, and a
    selection without repetition stays without repetition. *)
Theorem toggleParticipante_flips (id : string) (pg : Page.t) :
  (In id (Page.participantes (toggleParticipante id pg))
   <-> ~ In id (Page.participantes pg))
  /\ (forall x, x <> id ->
      (In x (Page.participantes (toggleParticipante id pg))
       <-> In x (Page.participantes pg)))
  /\ (NoDup (Page.participantes pg) ->
      NoDup (Page.participantes (toggleParticipante id pg)))
  /\ Page.state (toggleParticipante id pg) = Page.state pg.
Proof.
  unfold toggleParticipante, toggle. simpl.
  destruct (includes (Page.participantes pg) id) eqn:E.
  - apply includes_In in E. split; [|split; [|split; [|reflexivity]]].
    + split; [|contradiction].
      intros H. apply filter_In in H. destruct H as [_ H].
      rewrite String.eqb_refl in H. discriminate.
    + intros x Hx. rewrite filter_In, negb_true_iff, String.eqb_neq. tauto.
    + apply NoDup_filter.
  - assert (Hn : ~ In id (Page.participantes pg)).
    { intros H. apply includes_In in H. congruence. }
    split; [|split; [|split; [|reflexivity]]].
    + rewrite in_app_iff. simpl. tauto.
    + intros x Hx. rewrite in_app_iff. simpl. intuition congruence.
    + intros Hnd. apply NoDup_app; [assumption | repeat constructor; simpl; tauto |].
      intros y Hy [<-|[]]. contradiction.
Qed.

Lemma nombre_exists_false (ps : list Person.t) (nombre : string) :
  nombre_exists toLowerCase ps nombre = false ->
  ~ In (toLowerCase nombre) (map (fun p => toLowerCase (Person.nombre p)) ps).
Proof.
  unfold nombre_exists. intros H Hin. apply in_map_iff in Hin.
  destruct Hin as [p [Heq Hp]].
  assert (Ht : existsb (fun p => String.eqb (toLowerCase (Person.nombre p))
                                   (toLowerCase nombre)) ps = true).
  { apply existsb_exists. exists p. split; [assumption|]. apply String.eqb_eq, Heq. }
  congruence.
Qed.

(** X12.  [addPersona] leaves the people as they are or appends one person
    with the given id and the trimmed name.  It keeps the names different
    from each other when case is ignored, keeps them non-empty, keeps the
    ids different when the new id is not in use, and does not touch the
    expenses. *)
Theorem addPersona_names (id : string) (pg : Page.t) :
  (personas (Page.state (addPersona trim toLowerCase id pg)) = personas (Page.state pg)
   \/ personas (Page.state (addPersona trim toLowerCase id pg))
      = personas (Page.state pg) ++ [Person.mk id (trim (Page.nuevoNombre pg))])
  /\ (NoDup (map (fun p => toLowerCase (Person.nombre p)) (personas (Page.state pg))) ->
      NoDup (map (fun p => toLowerCase (Person.nombre p))
               (personas (Page.state (addPersona trim toLowerCase id pg)))))
  /\ (Forall (fun p => Person.nombre p <> EmptyString) (personas (Page.state pg)) ->
      Forall (fun p => Person.nombre p <> EmptyString)
        (personas (Page.state (addPersona trim toLowerCase id pg))))
  /\ (NoDup (map Person.id (personas (Page.state pg))) ->
      ~ In id (map Person.id (personas (Page.state pg))) ->
      NoDup (map Person.id (personas (Page.state (addPersona trim toLowerCase id pg)))))
  /\ gastos (Page.state (addPersona trim toLowerCase id pg)) = gastos (Page.state pg).
Proof.
  unfold addPersona.
  destruct (String.eqb (trim (Page.nuevoNombre pg)) EmptyString) eqn:En;
    [repeat split; auto|].
  destruct (nombre_exists toLowerCase (personas (Page.state pg))
              (trim (Page.nuevoNombre pg))) eqn:Ex; simpl;
    [repeat split; auto|].
  apply String.eqb_neq in En. apply nombre_exists_false in Ex.
  split; [right; reflexivity|]. split; [|split; [|split; [|reflexivity]]].
  - intros Hnd. rewrite map_app. apply NoDup_app; [assumption | |].
    + simpl. repeat constructor. simpl. tauto.
    + simpl. intros x Hx [<-|[]]. contradiction.
  - intros Hall. apply Forall_app. split; [assumption|].
    constructor; [exact En | constructor].
  - intros Hnd Hfresh. rewrite map_app. apply NoDup_app; [assumption | |].
    + simpl. repeat constructor. simpl. tauto.
    + simpl. intros x Hx [<-|[]]. contradiction.
Qed.

Lemma removePersona_gastos (id : string) (s : AppState) (g : Expense.t) :
  In g (gastos (removePersona id s)) -> touches g id = false.
Proof.
  unfold removePersona. simpl. intros H. apply filter_In in H.
  destruct H as [H Hp]. apply negb_true_iff in Hp.
  apply in_map_iff in H. destruct H as [g0 [<- _]]. simpl in Hp.
  unfold touches. apply andb_false_iff. right. apply orb_false_iff. split.
  - simpl. rewrite String.eqb_sym. exact Hp.
  - destruct (includes (Expense.participantes (without id g0)) id) eqn:E; [|reflexivity].
    apply includes_In in E. simpl in E. apply filter_In in E. destruct E as [_ E].
    rewrite String.eqb_refl in E. discriminate.
Qed.

(** X13.  After [removePersona id] nothing refers to [id]: it is not the id
    of a person, it is not a selected participant, the selected payer is
    empty or another id, and the balance object computed from the new state
    has no entry for it. *)
Theorem removePersona_forgets (id : string) (pg : Page.t) :
  ~ known (Page.state (removePersona_page id pg)) id
  /\ ~ In id (Page.participantes (removePersona_page id pg))
  /\ (Page.pagadorId (removePersona_page id pg) = EmptyString
      \/ Page.pagadorId (removePersona_page id pg) <> id)
  /\ get (balances (personas (Page.state (removePersona_page id pg)))
            (gastos (Page.state (removePersona_page id pg)))) id = None.
Proof.
  assert (Hk : ~ known (removePersona id (Page.state pg)) id).
  { rewrite known_removePersona. tauto. }
  split; [exact Hk|]. split; [|split].
  - simpl. rewrite filter_In, String.eqb_refl. simpl. intros [_ H]. discriminate.
  - simpl. destruct (String.eqb (Page.pagadorId pg) id) eqn:E; [left; reflexivity|].
    right. apply String.eqb_neq, E.
  - apply get_None_keys. rewrite keys_balances. intros [H|[g [Hg Ht]]].
    + apply Hk, H.
    + simpl in Hg. rewrite (removePersona_gastos _ _ _ Hg) in Ht. discriminate.
Qed.

(** X14.  Every handler keeps [page_ok], so it holds of every page reached
    from the first render without importing a file or restoring a stored
    state: the selected
    participants are people and are selected once, the selected payer is a
    person if there is one, and every expense has a positive amount, a payer
    and participants who are people, and no participant twice. *)
Theorem handlers_keep_page_ok :
  (forall pg pg', page_ok pg -> Step trim toLowerCase iso_date pg pg' -> page_ok pg')
  /\ (forall pg, Reachable trim toLowerCase iso_date pg -> page_ok pg).
Proof.
  split.
  - apply Step_page_ok.
  - apply Reachable_ok.
Qed.

Lemma find_app_person (f : Person.t -> bool) (l1 l2 : list Person.t) :
  find f (l1 ++ l2) = match find f l1 with Some p => Some p | None => find f l2 end.
Proof.
  induction l1 as [|p l1 IH]; simpl; [reflexivity|].
  destruct (f p); [reflexivity | exact IH].
Qed.

Lemma map_get_set (m : list (string * Person.t)) (k k' : string) (p : Person.t) :
  map_get (map_set m k p) k' = if String.eqb k k' then Some p else map_get m k'.
Proof.
  induction m as [|[k0 p0] m IH]; simpl.
  - reflexivity.
  - destruct (String.eqb k0 k) eqn:E; simpl.
    + apply String.eqb_eq in E. subst k0. destruct (String.eqb k k'); reflexivity.
    + rewrite IH. destruct (String.eqb k k') eqn:E'; [|reflexivity].
      apply String.eqb_eq in E'. subst k'. rewrite E. reflexivity.
Qed.

(** [personasMap.get(k)] is the last person of the list whose id is [k]. *)
Lemma map_get_personasMap (ps : list Person.t) (k : string) :
  map_get (personasMap ps) k = find (fun p => String.eqb (Person.id p) k) (rev ps).
Proof.
  unfold personasMap.
  assert (H : forall m,
            map_get (fold_left (fun m p => map_set m (Person.id p) p) ps m) k
            = match find (fun p => String.eqb (Person.id p) k) (rev ps) with
              | Some p => Some p
              | None => map_get m k
              end).
  { induction ps as [|p ps IH]; intros m; simpl; [reflexivity|].
    rewrite IH, find_app_person, map_get_set. simpl.
    destruct (find _ (rev ps)); [reflexivity|].
    destruct (String.eqb (Person.id p) k); reflexivity. }
  rewrite H. destruct (find _ (rev ps)); reflexivity.
Qed.

Lemma nombre_de_known (ps : list Person.t) (id fallback : string) :
  In id (map Person.id ps) ->
  exists p, In p ps /\ Person.id p = id /\ nombre_de ps id fallback = Person.nombre p.
Proof.
  intros H. unfold nombre_de. rewrite map_get_personasMap.
  destruct (find (fun p => String.eqb (Person.id p) id) (rev ps)) as [p|] eqn:E.
  - apply find_some in E. destruct E as [Hin Heq]. apply String.eqb_eq in Heq.
    exists p. rewrite <- in_rev in Hin. auto.
  - exfalso. apply in_map_iff in H. destruct H as [p [Hid Hp]].
    rewrite in_rev in Hp. pose proof (find_none _ _ E p Hp) as Hf. simpl in Hf.
    rewrite Hid, String.eqb_refl in Hf. discriminate.
Qed.

(** X15.  On every page reached from the first render without importing a
    file or restoring a stored state, when no person has the id [__proto__]
    (an assignment to that key creates no entry): the keys of the balance
    object are exactly the ids of the people, and every transfer the
    computation returns is between two people whose names the page finds. *)
Theorem reachable_balances (pg : Page.t) :
  Reachable trim toLowerCase iso_date pg ->
  let s := Page.state pg in
  let b := balances (personas s) (gastos s) in
  ~ known s "__proto__" ->
  (forall k, In k (keys b) <-> known s k)
  /\ NoDup (keys b)
  /\ forall ms,
       settlements b = Some ms ->
       Forall (fun m =>
                 forall fallback,
                 exists p q,
                   In p (personas s) /\ Person.id p = Move.fromId m
                   /\ nombre_de (personas s) (Move.fromId m) fallback = Person.nombre p
                   /\ In q (personas s) /\ Person.id q = Move.toId m
                   /\ nombre_de (personas s) (Move.toId m) fallback = Person.nombre q)
              ms.
Proof.
  intros Hr s b _. apply Reachable_ok in Hr. destruct Hr as [_ [_ [_ Hgs]]].
  fold s in Hgs.
  assert (Hkeys : forall k, In k (keys b) <-> known s k).
  { intros k. unfold b. rewrite keys_balances. split; [|auto].
    intros [H|[g [Hg Ht]]]; [exact H|].
    rewrite Forall_forall in Hgs. destruct (Hgs g Hg) as [_ [_ [Hp Hparts]]].
    unfold touches in Ht. apply andb_true_iff in Ht. destruct Ht as [_ Ht].
    apply orb_true_iff in Ht. destruct Ht as [Ht|Ht].
    - apply String.eqb_eq in Ht. subst k. exact Hp.
    - apply includes_In in Ht. apply Hparts, Ht. }
  split; [exact Hkeys|]. split; [apply NoDup_keys_balances|].
  intros ms Hs. destruct (settlements_Pairs b) as [ms' [Hs' Hp]].
  rewrite Hs in Hs'. injection Hs' as <-.
  eapply Forall_impl; [|apply (settle_ids b ms Hp)]. simpl.
  intros m [Hf Ht] fallback. apply Hkeys in Hf, Ht.
  destruct (nombre_de_known _ _ fallback Hf) as [p [Hp1 [Hp2 Hp3]]].
  destruct (nombre_de_known _ _ fallback Ht) as [q [Hq1 [Hq2 Hq3]]].
  exists p, q. repeat split; assumption.
Qed.
End HandlerTheorems.

(** X16.  The name the page shows for an id is the fallback when no person
    has that id, and otherwise the name of the last person of the list with
    that id. *)
Theorem nombre_de_last (ps : list Person.t) (id fallback : string) :
  (~ In id (map Person.id ps) -> nombre_de ps id fallback = fallback)
  /\ (forall ps1 p ps2,
        ps = ps1 ++ p :: ps2 -> Person.id p = id -> ~ In id (map Person.id ps2) ->
        nombre_de ps id fallback = Person.nombre p).
Proof.
  unfold nombre_de. rewrite map_get_personasMap. split.
  - intros Hn. destruct (find _ (rev ps)) as [p|] eqn:E; [|reflexivity].
    apply find_some in E. destruct E as [Hin Heq]. apply String.eqb_eq in Heq.
    exfalso. apply Hn. rewrite <- Heq. apply in_map. rewrite in_rev. exact Hin.
  - intros ps1 p ps2 -> Hid Hn.
    rewrite rev_app_distr. simpl. rewrite <- app_assoc, find_app_person.
    destruct (find _ (rev ps2)) as [q|] eqn:E.
    + apply find_some in E. destruct E as [Hin Heq]. apply String.eqb_eq in Heq.
      exfalso. apply Hn. rewrite <- Heq. apply in_map. rewrite in_rev. exact Hin.
    + simpl. rewrite Hid, String.eqb_refl. reflexivity.
Qed.

Lemma nombre_de_last_witness :
  nombre_de ex_personas ex_X "?" = "?"%string
  /\ nombre_de (ex_personas ++ [Person.mk ex_A "Otra"]) ex_A "?" = "Otra"%string.
Proof.
  split.
  - apply (proj1 (nombre_de_last ex_personas ex_X "?")). simpl. intuition discriminate.
  - apply (proj2 (nombre_de_last (ex_personas ++ [Person.mk ex_A "Otra"]) ex_A "?")
             ex_personas (Person.mk ex_A "Otra") []); [reflexivity | reflexivity | tauto].
Defined.

(** ** The handlers on examples *)

Lemma ex_session_reachable : Reachable trim_ascii lower_ascii date_ok ex_session.
Proof.
  unfold ex_session.
  eapply Reachable_step; [|apply Step_addGasto].
  eapply Reachable_step; [|apply (Step_input _ _ _ EmptyString " Cena " "2024-02-01" (Some 30))].
  eapply Reachable_step; [|apply Step_addPersona].
  eapply Reachable_step; [|apply (Step_input _ _ _ "Luis" EmptyString "2024-02-01" None)].
  eapply Reachable_step; [|apply Step_addPersona].
  eapply Reachable_step; [|apply (Step_input _ _ _ " Ana " EmptyString "2024-02-01" None)].
  apply Reachable_initial.
Qed.

Lemma reachable_balances_witness :
  (In "a"%string
     (keys (balances (personas (Page.state ex_session)) (gastos (Page.state ex_session))))
   <-> known (Page.state ex_session) "a")
  /\ NoDup (keys (balances (personas (Page.state ex_session))
                    (gastos (Page.state ex_session)))).
Proof.
  assert (Hp : ~ known (Page.state ex_session) "__proto__").
  { unfold known. simpl. intuition discriminate. }
  destruct (reachable_balances trim_ascii lower_ascii date_ok ex_session
              ex_session_reachable Hp) as [Hk [Hnd _]].
  split; [apply Hk | exact Hnd].
Defined.

Lemma addGasto_deleteGasto_witness :
  Page.state (deleteGasto "g2" (addGasto trim_ascii date_ok "g2" "2024-02-02"
                                  (ex_inputs EmptyString "Taxi" EmptyString (Some 12) ex_session)))
  = Page.state ex_session.
Proof.
  apply (addGasto_deleteGasto trim_ascii date_ok "g2" "2024-02-02"
           (ex_inputs EmptyString "Taxi" EmptyString (Some 12) ex_session)).
  repeat constructor. discriminate.
Defined.

(** The session ends with Ana and Luis, Ana being owed 15 by Luis; a second
    "  ana " is refused, and only the input is cleared. *)
Example ex_session_state :
  map Person.nombre (personas (Page.state ex_session)) = ["Ana"; "Luis"]%string
  /\ option_map reduced_moves
       (settlements (balances (personas (Page.state ex_session))
                       (gastos (Page.state ex_session))))
     = Some [Move.mk "l" "a" 15]
  /\ Page.participantes ex_session = ["a"; "l"]%string
  /\ Page.pagadorId ex_session = "a"%string.
Proof. vm_compute. repeat split; reflexivity. Qed.

Example ex_page_addPersona :
  personas (Page.state (addPersona trim_ascii lower_ascii "x" ex_page))
  = personas (Page.state ex_page)
  /\ Page.nuevoNombre (addPersona trim_ascii lower_ascii "x" ex_page) = EmptyString.
Proof. vm_compute. split; reflexivity. Qed.

(** ** The two lists handed to the loop *)



(** ** Expenses that change nothing *)

Lemma contrib_untouched (g : Expense.t) (k : string) :
  touches g k = false -> contrib g k == 0.
Proof.
  unfold touches, contrib. destruct (skipped g); simpl; [reflexivity|].
  intros H. apply orb_false_iff in H. destruct H as [Hp Hin].
  rewrite Hp. simpl. rewrite (includes_count _ _ Hin), Qnat_0. lra.
Qed.

(** X18.  An expense changes the balances of its payer and of its
    participants only: the balance of any other id, and whether it has an
    entry, is the same with the expense in the list as without it. *)
Theorem balances_untouched (ps : list Person.t) (gs1 gs2 : list Expense.t)
    (g : Expense.t) (k : string) :
  k <> Expense.pagadorId g ->
  ~ In k (Expense.participantes g) ->
  get0 (balances ps (gs1 ++ g :: gs2)) k == get0 (balances ps (gs1 ++ gs2)) k
  /\ (In k (keys (balances ps (gs1 ++ g :: gs2))) <-> In k (keys (balances ps (gs1 ++ gs2)))).
Proof.
  intros Hp Hin.
  assert (Ht : touches g k = false).
  { unfold touches. apply andb_false_iff. right.
    apply orb_false_iff. split; [apply String.eqb_neq, Hp|].
    destruct (includes (Expense.participantes g) k) eqn:E; [|reflexivity].
    apply includes_In in E. contradiction. }
  split.
  - rewrite get0_balances_insert. pose proof (contrib_untouched g k Ht). lra.
  - rewrite !keys_balances. split; intros [H|[g' [Hg' Ht']]]; auto; right.
    + apply in_app_or in Hg'. destruct Hg' as [Hg'|[<-|Hg']]; [| congruence |];
        exists g'; split; auto; apply in_or_app; auto.
    + exists g'. split; [|exact Ht'].
      apply in_app_or in Hg'. apply in_or_app. simpl. tauto.
Qed.

Lemma balances_untouched_witness :
  get0 (balances ex_personas ([ex_unknown] ++ ex_taxi :: [])) ex_X
  == get0 (balances ex_personas ([ex_unknown] ++ [])) ex_X.
Proof.
  apply (balances_untouched ex_personas [ex_unknown] [] ex_taxi ex_X).
  - discriminate.
  - simpl. intuition discriminate.
Defined.

(** ** Expenses left without participants *)

(** X19.  [removePersona id] keeps an expense that somebody else paid and
    that only [id] shared: it stays in the list with its amount, so
    [totalGastos] still counts it, but it has no participant left, so
    [balances] skips it and it changes no balance. *)
Theorem removePersona_orphan (id : string) (s : AppState) (g : Expense.t) :
  In g (gastos s) ->
  Expense.pagadorId g <> id ->
  (forall pid, In pid (Expense.participantes g) -> pid = id) ->
  In (without id g) (gastos (removePersona id s))
  /\ Expense.monto (without id g) = Expense.monto g
  /\ Expense.participantes (without id g) = []
  /\ skipped (without id g) = true
  /\ forall k, contrib (without id g) k == 0.
Proof.
  intros Hin Hp Hall.
  assert (Hnil : Expense.participantes (without id g) = []).
  { simpl. induction (Expense.participantes g) as [|x l IH]; simpl; [reflexivity|].
    rewrite (Hall x (or_introl eq_refl)), String.eqb_refl. simpl.
    apply IH. intros pid Hpid. apply Hall. right. exact Hpid. }
  assert (Hs : skipped (without id g) = true) by (apply skipped_true; right; exact Hnil).
  split; [|split; [reflexivity|split; [exact Hnil|split; [exact Hs|]]]].
  - unfold removePersona. simpl. apply filter_In. split.
    + apply in_map, Hin.
    + simpl. apply negb_true_iff, String.eqb_neq, Hp.
  - intros k. unfold contrib. rewrite Hs. reflexivity.
Qed.

Lemma removePersona_orphan_witness :
  In (without "a" (Expense.mk "g" "Regalo" 20 "l" ["a"%string] "2024-03-01"))
    (gastos (removePersona "a" ex_orphan))
  /\ totalGastos (gastos (removePersona "a" ex_orphan)) == 20
  /\ sum_positive (balances (personas (removePersona "a" ex_orphan))
                     (gastos (removePersona "a" ex_orphan))) == 0.
Proof.
  destruct (removePersona_orphan "a" ex_orphan
              (Expense.mk "g" "Regalo" 20 "l" ["a"%string] "2024-03-01"))
    as [H _].
  - simpl. auto.
  - discriminate.
  - intros pid [<-|[]]. reflexivity.
  - split; [exact H|]. split; reflexivity.
Defined.

(** * Doubles *)

Section Rounding.
Local Open Scope Z_scope.

(** ** Rounding: the difference of two finite doubles of the same sign *)

Lemma digits2_size (p : positive) : digits2_pos p = Pos.size p.
Proof. induction p; simpl; congruence. Qed.

Lemma digits2_upper (p : positive) : Zpos p < 2 ^ Zpos (digits2_pos p).
Proof.
  rewrite digits2_size. pose proof (Pos.size_gt p) as H.
  apply Pos2Z.pos_lt_pos in H. rewrite Pos2Z.inj_pow in H. exact H.
Qed.

Lemma digits2_lower (p : positive) : 2 ^ Zpos (digits2_pos p) <= 2 * Zpos p.
Proof.
  rewrite digits2_size. pose proof (Pos.size_le p) as H.
  apply Pos2Z.pos_le_pos in H. rewrite Pos2Z.inj_pow in H. exact H.
Qed.

Lemma digits2_le (p : positive) (j : Z) :
  0 <= j -> Zpos p < 2 ^ j -> Zpos (digits2_pos p) <= j.
Proof.
  intros Hj H. pose proof (digits2_lower p) as Hl.
  assert (Hlt : 2 ^ Zpos (digits2_pos p) < 2 ^ (j + 1)).
  { rewrite Z.pow_add_r by lia. lia. }
  apply Z.pow_lt_mono_r_iff in Hlt; lia.
Qed.

Lemma iter_xO_pow (m d : positive) : Zpos (Pos.iter xO m d) = Zpos m * 2 ^ Zpos d.
Proof.
  induction d as [|d IH] using Pos.peano_ind.
  - simpl. lia.
  - rewrite Pos.iter_succ, Pos2Z.inj_succ, Z.pow_succ_r by lia.
    rewrite Pos2Z.inj_xO, IH. lia.
Qed.

Lemma iter_xO_digits (m d : positive) :
  Zpos (digits2_pos (Pos.iter xO m d)) = Zpos (digits2_pos m) + Zpos d.
Proof.
  induction d as [|d IH] using Pos.peano_ind.
  - simpl. lia.
  - rewrite Pos.iter_succ. simpl digits2_pos. rewrite Pos2Z.inj_succ, IH. lia.
Qed.

Lemma shr_1_bound (mrs : shr_record) :
  0 <= shr_m mrs -> 0 <= shr_m (shr_1 mrs) /\ 2 * shr_m (shr_1 mrs) <= shr_m mrs.
Proof.
  destruct mrs as [m r s]. simpl. intros H.
  destruct m as [|p|p]; [simpl; lia | | lia].
  destruct p; simpl; lia.
Qed.

Lemma iter_shr_1_bound (p : positive) (mrs : shr_record) :
  0 <= shr_m mrs ->
  0 <= shr_m (iter_pos shr_1 p mrs)
  /\ 2 ^ Zpos p * shr_m (iter_pos shr_1 p mrs) <= shr_m mrs.
Proof.
  revert mrs. induction p as [p IH|p IH|]; intros mrs H; simpl iter_pos.
  - destruct (shr_1_bound mrs H) as [H1 H2].
    destruct (IH _ H1) as [H3 H4]. destruct (IH _ H3) as [H5 H6].
    split; [exact H5|]. replace (Zpos p~1) with (Zpos p + Zpos p + 1) by lia.
    rewrite !Z.pow_add_r by lia. change (2 ^ 1) with 2.
    pose proof (Z.pow_pos_nonneg 2 (Zpos p)). nia.
  - destruct (IH _ H) as [H3 H4]. destruct (IH _ H3) as [H5 H6].
    split; [exact H5|]. replace (Zpos p~0) with (Zpos p + Zpos p) by lia.
    rewrite !Z.pow_add_r by lia.
    pose proof (Z.pow_pos_nonneg 2 (Zpos p)). nia.
  - destruct (shr_1_bound mrs H) as [H1 H2]. split; [exact H1|].
    change (2 ^ 1) with 2. exact H2.
Qed.

Lemma round_nearest_even_bound (m : Z) (l : location) :
  m <= round_nearest_even m l <= m + 1.
Proof.
  destruct l as [|[| |]]; simpl; try lia. destruct (Z.even m); lia.
Qed.

Lemma fexp_mono (k k' : Z) : k <= k' -> fexp prec emax k <= fexp prec emax k'.
Proof. unfold fexp. lia. Qed.

Lemma bounded_facts (m : positive) (e : Z) :
  bounded prec emax m e = true ->
  fexp prec emax (Zpos (digits2_pos m) + e) = e /\ e <= emax - prec
  /\ Zpos (digits2_pos m) + e <= emax.
Proof.
  unfold bounded, canonical_mantissa. intros H. apply andb_true_iff in H.
  destruct H as [H1 H2]. apply Z.eqb_eq in H1. apply Z.leb_le in H2.
  split; [exact H1|]. split; [exact H2|]. unfold fexp in H1. lia.
Qed.


Lemma Zdigits2_le (m : Z) (j : Z) : 0 <= j -> 0 <= m < 2 ^ j -> Zdigits2 m <= j.
Proof.
  intros Hj [H0 H]. destruct m as [|p|p]; simpl; [lia | | lia].
  apply digits2_le; assumption.
Qed.

(** Rounding a positive value below a double does not overflow. *)
Lemma binary_round_aux_finite (s : bool) (mz : positive) (ez : Z) (mx : positive) (ex : Z)
    (r : spec_float) :
  bounded prec emax mx ex = true ->
  ez <= ex ->
  Zpos mz < Zpos mx * 2 ^ (ex - ez) ->
  ez <= fexp prec emax (Zpos (digits2_pos mz) + ez) ->
  binary_round_aux prec emax s (Zpos mz) ez loc_Exact = r ->
  r = S754_zero s \/ exists m e, r = S754_finite s m e.
Proof.
  intros Hb Hle Hlt Hfexp Hr.
  destruct (bounded_facts mx ex Hb) as [Hcan [HE Hkx]].
  set (kx := Zpos (digits2_pos mx) + ex) in *.
  set (k := Zpos (digits2_pos mz) + ez) in *.
  assert (Hk : k <= kx).
  { unfold k, kx. assert (Zpos (digits2_pos mz) <= Zpos (digits2_pos mx) + (ex - ez)); [|lia].
    apply digits2_le; [lia|]. rewrite Z.pow_add_r by lia.
    pose proof (digits2_upper mx). pose proof (Z.pow_pos_nonneg 2 (ex - ez)). nia. }
  assert (Hfk : fexp prec emax k <= ex).
  { rewrite <- Hcan. apply fexp_mono. exact Hk. }
  unfold binary_round_aux, shr_fexp in Hr. simpl Zdigits2 in Hr. fold k in Hr.
  destruct (fexp prec emax k - ez) as [|p|p] eqn:En; [| |lia].
  - (* no shift *)
    cbn [shr shr_record_of_loc shr_m loc_of_shr_record round_nearest_even Zdigits2] in Hr.
    fold k in Hr. rewrite En in Hr.
    cbn [shr shr_record_of_loc shr_m] in Hr.
    assert (E : (ez <=? emax - prec) = true) by (apply Z.leb_le; lia).
    rewrite E in Hr. right. eauto.
  - (* a shift to the right by [p] *)
    cbn [shr shr_record_of_loc] in Hr.
    destruct (iter_shr_1_bound p {| shr_m := Zpos mz; shr_r := false; shr_s := false |})
      as [H1 H2]; [simpl; lia|]. simpl shr_m in H2.
    set (mrs := iter_pos shr_1 p _) in *.
    pose proof (round_nearest_even_bound (shr_m mrs) (loc_of_shr_record mrs)) as Hrd.
    set (m2 := round_nearest_even (shr_m mrs) (loc_of_shr_record mrs)) in *.
    assert (He' : ez + Zpos p = fexp prec emax k) by lia.
    set (e' := ez + Zpos p) in *.
    assert (Hm2 : 0 <= m2 < 2 ^ (Zpos (digits2_pos mx) + (ex - e'))).
    { split; [lia|].
      assert (Hm1 : shr_m mrs < Zpos mx * 2 ^ (ex - e')).
      { assert (H3 : 2 ^ Zpos p * shr_m mrs < 2 ^ Zpos p * (Zpos mx * 2 ^ (ex - e'))).
        { eapply Z.le_lt_trans; [exact H2|]. eapply Z.lt_le_trans; [exact Hlt|].
          replace (ex - ez) with (Zpos p + (ex - e')) by (unfold e'; lia).
          rewrite Z.pow_add_r by lia. lia. }
        pose proof (Z.pow_pos_nonneg 2 (Zpos p)). nia. }
      rewrite Z.pow_add_r by lia.
      pose proof (digits2_upper mx). pose proof (Z.pow_pos_nonneg 2 (ex - e')). nia. }
    assert (Hk2 : Zdigits2 m2 + e' <= kx).
    { pose proof (Zdigits2_le m2 (Zpos (digits2_pos mx) + (ex - e'))). unfold kx. lia. }
    assert (Hf2 : fexp prec emax (Zdigits2 m2 + e') <= emax - prec).
    { pose proof (fexp_mono _ _ Hk2). lia. }
    destruct (fexp prec emax (Zdigits2 m2 + e') - e') as [|q|q] eqn:En2;
      cbn [shr shr_m] in Hr.
    + destruct m2 as [|m|m]; [left; congruence | | lia].
      assert (E : (e' <=? emax - prec) = true) by (apply Z.leb_le; lia).
      rewrite E in Hr. right. eauto.
    + destruct (iter_shr_1_bound q {| shr_m := m2; shr_r := false; shr_s := false |})
        as [H4 _]; [simpl; lia|].
      destruct (shr_m (iter_pos shr_1 q _)) as [|m|m]; [left; congruence | | lia].
      assert (E : (e' + Zpos q <=? emax - prec) = true) by (apply Z.leb_le; lia).
      rewrite E in Hr. right. eauto.
    + destruct m2 as [|m|m]; [left; congruence | | lia].
      assert (E : (e' <=? emax - prec) = true) by (apply Z.leb_le; lia).
      rewrite E in Hr. right. eauto.
Qed.

Lemma binary_round_finite (s : bool) (mz : positive) (ez : Z) (mx : positive) (ex : Z)
    (r : spec_float) :
  bounded prec emax mx ex = true ->
  ez <= ex ->
  Zpos mz < Zpos mx * 2 ^ (ex - ez) ->
  binary_round prec emax s mz ez = r ->
  r = S754_zero s \/ exists m e, r = S754_finite s m e.
Proof.
  intros Hb Hle Hlt. unfold binary_round, shl_align.
  destruct (bounded_facts mx ex Hb) as [Hcan [HE Hkx]].
  assert (Hk : Zpos (digits2_pos mz) + ez <= Zpos (digits2_pos mx) + ex).
  { assert (Zpos (digits2_pos mz) <= Zpos (digits2_pos mx) + (ex - ez)); [|lia].
    apply digits2_le; [lia|]. rewrite Z.pow_add_r by lia.
    pose proof (digits2_upper mx). pose proof (Z.pow_pos_nonneg 2 (ex - ez)). nia. }
  pose proof (fexp_mono _ _ Hk) as Hf. rewrite Hcan in Hf.
  destruct (fexp prec emax (Zpos (digits2_pos mz) + ez) - ez) as [|p|p] eqn:En.
  - apply (binary_round_aux_finite s mz ez mx ex); try assumption. lia.
  - apply (binary_round_aux_finite s mz ez mx ex); try assumption. lia.
  - (* the mantissa is shifted to the left by [p]: the result is exact *)
    apply (binary_round_aux_finite s (Pos.iter xO mz p)
             (fexp prec emax (Zpos (digits2_pos mz) + ez)) mx ex); try assumption.
    + rewrite iter_xO_pow.
      replace (ex - fexp prec emax (Zpos (digits2_pos mz) + ez)) with (ex - ez + Zpos p)
        by lia.
      rewrite Z.pow_add_r by lia.
      pose proof (Z.pow_pos_nonneg 2 (Zpos p)). nia.
    + rewrite iter_xO_digits.
      replace (Zpos (digits2_pos mz) + Zpos p + fexp prec emax (Zpos (digits2_pos mz) + ez))
        with (Zpos (digits2_pos mz) + ez) by lia.
      lia.
Qed.

Lemma shl_align_value (m : positive) (e e' : Z) :
  e' <= e -> Zpos (fst (shl_align m e e')) = Zpos m * 2 ^ (e - e').
Proof.
  intros H. unfold shl_align. destruct (e' - e) as [|p|p] eqn:E; simpl fst.
  - replace (e - e') with 0 by lia. simpl. lia.
  - lia.
  - rewrite iter_xO_pow. f_equal. f_equal. lia.
Qed.

(** The difference of two finite doubles of the same sign is finite. *)
Lemma SFsub_finite (s : bool) (mx : positive) (ex : Z) (my : positive) (ey : Z)
    (r : spec_float) :
  bounded prec emax mx ex = true ->
  bounded prec emax my ey = true ->
  SF64sub (S754_finite s mx ex) (S754_finite s my ey) = r ->
  (exists s', r = S754_zero s') \/ (exists s' m e, r = S754_finite s' m e).
Proof.
  intros Hx Hy. unfold SF64sub, SFsub.
  set (ez := Z.min ex ey).
  pose proof (shl_align_value mx ex ez) as Vx. pose proof (shl_align_value my ey ez) as Vy.
  assert (Hzx : ez <= ex) by (unfold ez; lia). assert (Hzy : ez <= ey) by (unfold ez; lia).
  specialize (Vx Hzx). specialize (Vy Hzy).
  rewrite Vx, Vy.
  assert (Px : 0 < Zpos mx * 2 ^ (ex - ez))
    by (pose proof (Z.pow_pos_nonneg 2 (ex - ez)); nia).
  assert (Py : 0 < Zpos my * 2 ^ (ey - ez))
    by (pose proof (Z.pow_pos_nonneg 2 (ey - ez)); nia).
  unfold binary_normalize.
  destruct (cond_Zopp s (Zpos mx * 2 ^ (ex - ez)) - cond_Zopp s (Zpos my * 2 ^ (ey - ez)))
    as [|mz|mz] eqn:E; intros Hr.
  - left. eauto.
  - destruct s; unfold cond_Zopp in E.
    + destruct (binary_round_finite false mz ez my ey r Hy Hzy) as [H|[m [e H]]];
        [lia | exact Hr | left; eauto | right; eauto].
    + destruct (binary_round_finite false mz ez mx ex r Hx Hzx) as [H|[m [e H]]];
        [lia | exact Hr | left; eauto | right; eauto].
  - destruct s; unfold cond_Zopp in E.
    + destruct (binary_round_finite true mz ez mx ex r Hx Hzx) as [H|[m [e H]]];
        [lia | exact Hr | left; eauto | right; eauto].
    + destruct (binary_round_finite true mz ez my ey r Hy Hzy) as [H|[m [e H]]];
        [lia | exact Hr | left; eauto | right; eauto].
Qed.

End Rounding.

(** * The page over doubles *)

Section Doubles.
Local Open Scope float_scope.

(** ** Doubles: comparisons, NaN and subtraction *)

Lemma Prim2SF_nan : Prim2SF nan = S754_nan.
Proof. reflexivity. Qed.

Lemma Prim2SF_zero : Prim2SF zero = S754_zero false.
Proof. reflexivity. Qed.

Lemma SFcompare_refl (x : spec_float) :
  x <> S754_nan -> SFcompare x x = Some Eq.
Proof.
  destruct x as [s|s| |s m e]; simpl; try congruence.
  - destruct s; reflexivity.
  - intros _. rewrite Z.compare_refl, Pos.compare_cont_refl. destruct s; reflexivity.
Qed.

Lemma is_nan_spec (x : float) : is_nan x = true <-> Prim2SF x = S754_nan.
Proof.
  unfold is_nan. rewrite eqb_spec. unfold SFeqb. split.
  - intros H. destruct (Prim2SF x) as [s|s| |s m e] eqn:E; try reflexivity;
      rewrite SFcompare_refl in H by discriminate; discriminate.
  - intros ->. reflexivity.
Qed.

Lemma is_nan_eq (x : float) : is_nan x = true -> x = nan.
Proof.
  intros H. apply Prim2SF_inj. rewrite Prim2SF_nan. apply is_nan_spec, H.
Qed.

Lemma is_nan_false (x : float) : is_nan x = false <-> Prim2SF x <> S754_nan.
Proof.
  rewrite <- is_nan_spec. destruct (is_nan x); split; congruence.
Qed.

Lemma sub_nan_r (x : float) : x - nan = nan.
Proof.
  apply Prim2SF_inj. rewrite sub_spec, Prim2SF_nan.
  destruct (Prim2SF x); reflexivity.
Qed.

Lemma leb_nan_l (x : float) : (nan <=? x) = false.
Proof. rewrite leb_spec, Prim2SF_nan. reflexivity. Qed.

(** [x - x] is [+0] for a finite [x], and NaN for an infinity or NaN. *)
Lemma is_finite_spec (x : float) :
  is_finite x = true
  <-> (exists s, Prim2SF x = S754_zero s) \/ (exists s m e, Prim2SF x = S754_finite s m e).
Proof.
  unfold is_finite, is_infinity. rewrite negb_true_iff, orb_false_iff.
  rewrite is_nan_false, eqb_spec, abs_spec.
  change (Prim2SF infinity) with (S754_infinity false).
  destruct (Prim2SF x) as [s|s| |s m e]; unfold SFeqb; simpl; split;
    try (intros [H1 H2]; try discriminate; try congruence; eauto; fail);
    try (intros [[s' H]|[s' [m' [e' H]]]]; try discriminate; split; congruence).
Qed.

Lemma sub_diag_finite (x : float) : is_finite x = true -> x - x = zero.
Proof.
  intros H. apply is_finite_spec in H. apply Prim2SF_inj.
  rewrite sub_spec, Prim2SF_zero.
  destruct H as [[s H]|[s [m [e H]]]]; rewrite H; unfold SF64sub, SFsub.
  - destruct s; reflexivity.
  - rewrite Z.min_id. unfold shl_align. rewrite Z.sub_diag. simpl fst.
    reflexivity.
Qed.

Lemma sub_diag_not_finite (x : float) : is_finite x = false -> x - x = nan.
Proof.
  intros H. apply Prim2SF_inj. rewrite sub_spec, Prim2SF_nan.
  destruct (Prim2SF x) as [s|s| |s m e] eqn:E.
  - assert (is_finite x = true) by (apply is_finite_spec; eauto). congruence.
  - destruct s; reflexivity.
  - reflexivity.
  - assert (is_finite x = true) by (apply is_finite_spec; right; eauto). congruence.
Qed.

Lemma is_finite_not_nan (x : float) : is_finite x = true -> is_nan x = false.
Proof.
  unfold is_finite. destruct (is_nan x); simpl; congruence.
Qed.


Lemma SFcompare_antisym (x y : spec_float) :
  SFcompare y x = option_map CompOpp (SFcompare x y).
Proof.
  destruct x as [s|s| |s m e], y as [s'|s'| |s' m' e']; simpl;
    try reflexivity; try (destruct s; reflexivity); try (destruct s'; reflexivity);
    try (destruct s, s'; reflexivity).
  pose proof (Pos.compare_cont_antisym m m' Eq) as Hm. simpl in Hm.
  rewrite (Z.compare_antisym e e'), <- Hm.
  destruct s, s'; simpl; try reflexivity;
    destruct (e ?= e')%Z; simpl; try reflexivity.
Qed.

Lemma SFcompare_opp (x y : spec_float) :
  SFcompare (SFopp x) (SFopp y) = SFcompare y x.
Proof.
  rewrite (SFcompare_antisym x y).
  destruct x as [s|s| |s m e], y as [s'|s'| |s' m' e']; simpl;
    try reflexivity; try (destruct s; reflexivity); try (destruct s'; reflexivity);
    try (destruct s, s'; reflexivity).
  destruct s, s'; simpl; try reflexivity;
    destruct (e ?= e')%Z; simpl; try reflexivity.
  rewrite CompOpp_involutive. reflexivity.
Qed.

(** When [x <= y] is false, either [y < x] or one of the two is NaN. *)
Lemma leb_false_cases (x y : float) :
  (x <=? y) = false -> (y <? x) = true \/ x = nan \/ y = nan.
Proof.
  rewrite leb_spec, ltb_spec. unfold SFleb, SFltb.
  rewrite (SFcompare_antisym (Prim2SF x) (Prim2SF y)).
  destruct (SFcompare (Prim2SF x) (Prim2SF y)) as [[| |]|] eqn:E; simpl;
    try discriminate; auto.
  intros _. right.
  destruct (Prim2SF x) as [s|s| |s m e] eqn:Ex.
  4: destruct (Prim2SF y) as [s'|s'| |s' m' e'] eqn:Ey; try discriminate.
  3: left; apply Prim2SF_inj; rewrite Prim2SF_nan; assumption.
  1,2: destruct (Prim2SF y) as [s'|s'| |s' m' e'] eqn:Ey; try discriminate.
  all: right; apply Prim2SF_inj; rewrite Prim2SF_nan; assumption.
Qed.

Lemma ltb_leb_false (x y : float) : (x <? y) = true -> (y <=? x) = false.
Proof.
  rewrite leb_spec, ltb_spec. unfold SFleb, SFltb.
  rewrite (SFcompare_antisym (Prim2SF x) (Prim2SF y)).
  destruct (SFcompare (Prim2SF x) (Prim2SF y)) as [[| |]|]; simpl; congruence.
Qed.

Lemma ltb_not_nan_r (x y : float) : (x <? y) = true -> is_nan y = false.
Proof.
  rewrite ltb_spec. intros H. apply is_nan_false. intros E. rewrite E in H.
  unfold SFltb in H. destruct (Prim2SF x); discriminate.
Qed.

Lemma ltb_opp (x y : float) : (x <? - y) = (y <? - x).
Proof.
  rewrite !ltb_spec, !opp_spec. unfold SFltb.
  rewrite <- (SFcompare_opp (SFopp (Prim2SF x)) (Prim2SF y)).
  replace (SFopp (SFopp (Prim2SF x))) with (Prim2SF x); [reflexivity|].
  destruct (Prim2SF x) as [s|s| |s m e]; simpl; rewrite ?negb_involutive; reflexivity.
Qed.

(** Above the tolerance is above zero. *)
Lemma ltb_tol_pos (x : float) : (Js.tol <? x) = true -> (zero <? x) = true.
Proof.
  rewrite !ltb_spec. unfold SFltb.
  assert (Ht : exists m e, Prim2SF Js.tol = S754_finite false m e)
    by (eexists; eexists; reflexivity).
  destruct Ht as [m [e ->]]. rewrite Prim2SF_zero.
  destruct (Prim2SF x) as [s|s| |s m' e']; simpl; try discriminate;
    destruct s; simpl; congruence.
Qed.

Lemma leb_zero_tol : (zero <=? Js.tol) = true.
Proof. reflexivity. Qed.

(** ** [Math.min] *)

Lemma min_nan (x y : float) : is_nan x || is_nan y = true -> Js.min x y = nan.
Proof. unfold Js.min. intros ->. reflexivity. Qed.

Lemma min_cases (x y : float) :
  is_nan x = false -> is_nan y = false -> Js.min x y = x \/ Js.min x y = y.
Proof.
  unfold Js.min. intros -> ->. simpl.
  destruct (x <? y); [auto|]. destruct (y <? x); [auto|]. destruct (get_sign x); auto.
Qed.

(** One pass of the loop: when the amount paid is finite, the entry it was
    taken from is left with [+0]; when it is not, an entry is left with
    NaN. *)
Lemma pay_finite (x y : float) :
  is_finite (Js.min x y) = true ->
  x - Js.min x y = zero \/ y - Js.min x y = zero.
Proof.
  intros H.
  destruct (is_nan x || is_nan y) eqn:E.
  - rewrite (min_nan _ _ E) in H. discriminate.
  - apply orb_false_iff in E. destruct E as [Ex Ey].
    destruct (min_cases x y Ex Ey) as [Em|Em]; rewrite Em in *;
      [left|right]; apply sub_diag_finite, H.
Qed.

Lemma pay_not_finite (x y : float) :
  is_finite (Js.min x y) = false ->
  x - Js.min x y = nan \/ y - Js.min x y = nan.
Proof.
  intros H.
  destruct (is_nan x || is_nan y) eqn:E.
  - rewrite (min_nan _ _ E). left. apply sub_nan_r.
  - apply orb_false_iff in E. destruct E as [Ex Ey].
    destruct (min_cases x y Ex Ey) as [Em|Em]; rewrite Em in *;
      [left|right]; apply sub_diag_not_finite, H.
Qed.


(** ** [settlements] over doubles: the loop and its cursors *)

Lemma nth_error_skipn_cons {A : Type} (l : list A) (n : nat) (e : A) :
  nth_error l n = Some e -> skipn n l = e :: skipn (S n) l.
Proof.
  revert n. induction l as [|x l IH]; intros [|n] H; simpl in *; try discriminate.
  - congruence.
  - apply IH, H.
Qed.

Lemma nth_error_None_skipn_nil {A : Type} (l : list A) (n : nat) :
  nth_error l n = None -> skipn n l = [].
Proof.
  intros H. apply nth_error_None in H. apply skipn_all2, H.
Qed.

Lemma js_skipn_set_nth_at (l : list Js.Entry.t) (n : nat) (d e : Js.Entry.t) :
  nth_error l n = Some d -> skipn n (Js.set_nth l n e) = e :: skipn (S n) l.
Proof.
  revert n. induction l as [|x l IH]; intros [|n] H; simpl in *; try discriminate.
  - reflexivity.
  - apply IH, H.
Qed.

Lemma js_skipn_set_nth_after (l : list Js.Entry.t) (n : nat) (e : Js.Entry.t) :
  skipn (S n) (Js.set_nth l n e) = skipn (S n) l.
Proof.
  revert n. induction l as [|x l IH]; intros [|n]; simpl; try reflexivity.
  apply IH.
Qed.

Lemma js_nth_error_set_nth (l : list Js.Entry.t) (n : nat) (d e : Js.Entry.t) :
  nth_error l n = Some d -> nth_error (Js.set_nth l n e) n = Some e.
Proof.
  revert n. induction l as [|x l IH]; intros [|n] H; simpl in *; try discriminate.
  - reflexivity.
  - apply IH, H.
Qed.

(** The suffixes the next pass works on. *)
Lemma js_loop_body_skipn (st st' : Js.Loop) (d c : Js.Entry.t) :
  nth_error (Js.debtors st) (Js.i st) = Some d ->
  nth_error (Js.creditors st) (Js.j st) = Some c ->
  Js.loop_body st = Some st' ->
  let pay := Js.min (Js.Entry.amount d) (Js.Entry.amount c) in
  let d' := Js.Entry.mk (Js.Entry.id d) (Js.Entry.amount d - pay) in
  let c' := Js.Entry.mk (Js.Entry.id c) (Js.Entry.amount c - pay) in
  skipn (Js.i st') (Js.debtors st')
  = (if Js.Entry.amount d' <=? Js.tol then skipn (S (Js.i st)) (Js.debtors st)
     else d' :: skipn (S (Js.i st)) (Js.debtors st))
  /\ skipn (Js.j st') (Js.creditors st')
     = (if Js.Entry.amount c' <=? Js.tol then skipn (S (Js.j st)) (Js.creditors st)
        else c' :: skipn (S (Js.j st)) (Js.creditors st))
  /\ Js.moves st' = Js.moves st ++ [Js.Move.mk (Js.Entry.id d) (Js.Entry.id c) pay].
Proof.
  intros Ed Ec H. unfold Js.loop_body in H. rewrite Ed, Ec in H.
  injection H as <-. simpl. repeat split.
  - destruct (_ <=? Js.tol).
    + apply js_skipn_set_nth_after.
    + apply (js_skipn_set_nth_at _ _ d), Ed.
  - destruct (Js.Entry.amount c - _ <=? Js.tol).
    + apply js_skipn_set_nth_after.
    + apply (js_skipn_set_nth_at _ _ c), Ec.
Qed.

(** The loop on the arrays and cursors pushes what [Js.pairing] returns on
    the two suffixes. *)
Lemma js_while_pairing (fuel : nat) (st : Js.Loop) :
  option_map Js.moves (Js.while fuel st)
  = option_map (app (Js.moves st))
      (Js.pairing fuel (skipn (Js.i st) (Js.debtors st))
         (skipn (Js.j st) (Js.creditors st))).
Proof.
  revert st. induction fuel as [|fuel IH]; intros st.
  - simpl. destruct (Js.loop_body st) as [st'|] eqn:Eb; unfold Js.loop_body in Eb;
      destruct (nth_error (Js.debtors st) (Js.i st)) as [d|] eqn:Ed;
      destruct (nth_error (Js.creditors st) (Js.j st)) as [c|] eqn:Ec;
      try discriminate;
      rewrite ?(nth_error_skipn_cons _ _ _ Ed), ?(nth_error_skipn_cons _ _ _ Ec),
        ?(nth_error_None_skipn_nil _ _ Ed), ?(nth_error_None_skipn_nil _ _ Ec);
      simpl; rewrite ?app_nil_r; try reflexivity.
  - simpl. destruct (Js.loop_body st) as [st'|] eqn:Eb.
    + pose proof Eb as Eb'. unfold Js.loop_body in Eb'.
      destruct (nth_error (Js.debtors st) (Js.i st)) as [d|] eqn:Ed; [|discriminate].
      destruct (nth_error (Js.creditors st) (Js.j st)) as [c|] eqn:Ec; [|discriminate].
      clear Eb'.
      destruct (js_loop_body_skipn st st' d c Ed Ec Eb) as [Hd [Hc Hm]].
      rewrite IH, Hd, Hc, Hm.
      rewrite (nth_error_skipn_cons _ _ _ Ed), (nth_error_skipn_cons _ _ _ Ec). simpl.
      destruct (Js.pairing fuel _ _) as [rest|]; simpl; [|reflexivity].
      rewrite <- app_assoc. reflexivity.
    + unfold Js.loop_body in Eb.
      destruct (nth_error (Js.debtors st) (Js.i st)) as [d|] eqn:Ed;
        destruct (nth_error (Js.creditors st) (Js.j st)) as [c|] eqn:Ec;
        try discriminate;
        rewrite ?(nth_error_skipn_cons _ _ _ Ed), ?(nth_error_skipn_cons _ _ _ Ec),
          ?(nth_error_None_skipn_nil _ _ Ed), ?(nth_error_None_skipn_nil _ _ Ec);
        simpl; rewrite ?app_nil_r; try reflexivity.
Qed.

Lemma js_settlements_pairing (b : Js.Balances) :
  Js.settlements b
  = Js.pairing (List.length (Js.debtors_of b) + List.length (Js.creditors_of b))
      (Js.debtors_of b) (Js.creditors_of b).
Proof.
  unfold Js.settlements. rewrite js_while_pairing. simpl.
  destruct (Js.pairing _ _ _); reflexivity.
Qed.

Lemma js_while_exit (fuel : nat) (st st' : Js.Loop) :
  Js.while fuel st = Some st' -> Js.loop_body st' = None.
Proof.
  revert st. induction fuel as [|fuel IH]; intros st; simpl;
    destruct (Js.loop_body st) as [st1|] eqn:E; try discriminate.
  - intros [= <-]. assumption.
  - apply IH.
  - intros [= <-]. assumption.
Qed.

(** ** [settlements] over doubles: a pass that leaves NaN *)

(** Once the entry under a cursor holds NaN, the amount paid is NaN, both
    entries are left with NaN and neither test [<= 0.005] holds: the loop
    makes the same pass again, for ever. *)
Lemma pairing_stuck (fuel : nat) (d c : Js.Entry.t) (ds cs : list Js.Entry.t) :
  Js.Entry.amount d = nan \/ Js.Entry.amount c = nan ->
  Js.pairing fuel (d :: ds) (c :: cs) = None.
Proof.
  revert d c. induction fuel as [|fuel IH]; intros d c H; simpl; [reflexivity|].
  assert (Hpay : Js.min (Js.Entry.amount d) (Js.Entry.amount c) = nan).
  { apply min_nan. destruct H as [-> | ->]; [reflexivity | apply orb_true_r]. }
  rewrite Hpay, !sub_nan_r, leb_nan_l. rewrite IH; [reflexivity|]. left. reflexivity.
Qed.

Lemma pairing_None_cons (d c : Js.Entry.t) (ds cs : list Js.Entry.t) :
  (forall fuel,
     Js.pairing fuel
       (if Js.Entry.amount d - Js.min (Js.Entry.amount d) (Js.Entry.amount c) <=? Js.tol
        then ds
        else Js.Entry.mk (Js.Entry.id d)
               (Js.Entry.amount d - Js.min (Js.Entry.amount d) (Js.Entry.amount c)) :: ds)
       (if Js.Entry.amount c - Js.min (Js.Entry.amount d) (Js.Entry.amount c) <=? Js.tol
        then cs
        else Js.Entry.mk (Js.Entry.id c)
               (Js.Entry.amount c - Js.min (Js.Entry.amount d) (Js.Entry.amount c)) :: cs)
     = None) ->
  forall fuel, Js.pairing fuel (d :: ds) (c :: cs) = None.
Proof.
  intros H [|fuel]; simpl; [reflexivity|]. rewrite H. reflexivity.
Qed.

(** Every pass advances a cursor or leaves NaN under both: the loop ends
    within as many passes as there are entries left, or it never ends. *)
Lemma pairing_ends_or_never (fuel : nat) (ds cs : list Js.Entry.t) :
  (List.length ds + List.length cs <= fuel)%nat ->
  (exists ms, Js.pairing fuel ds cs = Some ms
              /\ (List.length ms <= List.length ds + List.length cs - 1)%nat)
  \/ (forall fuel', Js.pairing fuel' ds cs = None).
Proof.
  revert ds cs. induction fuel as [|fuel IH]; intros [|d ds] [|c cs] Hlen;
    simpl in Hlen; try lia;
    try (left; exists []; split; [reflexivity | simpl; lia]).
  set (pay := Js.min (Js.Entry.amount d) (Js.Entry.amount c)).
  destruct (Js.Entry.amount d - pay <=? Js.tol) eqn:Ed;
    [|destruct (Js.Entry.amount c - pay <=? Js.tol) eqn:Ec].
  - (* the debtor cursor advances *)
    destruct (IH ds (if Js.Entry.amount c - pay <=? Js.tol then cs
                     else Js.Entry.mk (Js.Entry.id c) (Js.Entry.amount c - pay) :: cs))
      as [[rest [Hrest Hl]]|Hnever].
    { destruct (Js.Entry.amount c - pay <=? Js.tol); simpl; lia. }
    + left. exists (Js.Move.mk (Js.Entry.id d) (Js.Entry.id c) pay :: rest). split.
      * simpl. fold pay. rewrite Ed, Hrest. reflexivity.
      * revert Hl. destruct (Js.Entry.amount c - pay <=? Js.tol); simpl; lia.
    + right. apply pairing_None_cons. fold pay. rewrite Ed. exact Hnever.
  - (* the creditor cursor advances *)
    destruct (IH (Js.Entry.mk (Js.Entry.id d) (Js.Entry.amount d - pay) :: ds) cs)
      as [[rest [Hrest Hl]]|Hnever].
    { simpl. lia. }
    + left. exists (Js.Move.mk (Js.Entry.id d) (Js.Entry.id c) pay :: rest). split.
      * simpl. fold pay. rewrite Ed, Ec, Hrest. reflexivity.
      * simpl in *. lia.
    + right. apply pairing_None_cons. fold pay. rewrite Ed, Ec. exact Hnever.
  - (* neither advances: an entry holds NaN *)
    right. apply pairing_None_cons. fold pay. rewrite Ed, Ec.
    intros fuel'. apply pairing_stuck. simpl.
    destruct (is_finite pay) eqn:Ef.
    + destruct (pay_finite _ _ Ef) as [H|H]; fold pay in H; rewrite H in *;
        rewrite leb_zero_tol in *; discriminate.
    + destruct (pay_not_finite _ _ Ef) as [H|H]; fold pay in H; auto.
Qed.

Lemma js_while_never (st : Js.Loop) :
  (forall fuel, Js.pairing fuel (skipn (Js.i st) (Js.debtors st))
                  (skipn (Js.j st) (Js.creditors st)) = None) ->
  forall fuel, Js.while fuel st = None.
Proof.
  intros H fuel. pose proof (js_while_pairing fuel st) as Hw. rewrite H in Hw.
  destruct (Js.while fuel st); [discriminate | reflexivity].
Qed.

(** ** [settlements] over doubles: balances that are not infinite *)

Lemma ltb_tol_finite_spec (x : float) :
  (Js.tol <? x) = true -> is_finite x = true ->
  exists m e, Prim2SF x = S754_finite false m e.
Proof.
  intros Ht Hf. apply is_finite_spec in Hf. rewrite ltb_spec in Ht. unfold SFltb in Ht.
  assert (Htol : exists m e, Prim2SF Js.tol = S754_finite false m e)
    by (eexists; eexists; reflexivity).
  destruct Htol as [mt [et Et]]. rewrite Et in Ht.
  destruct Hf as [[s E]|[s [m [e E]]]]; rewrite E in Ht; simpl in Ht.
  - discriminate.
  - destruct s; [discriminate|]. eauto.
Qed.

Lemma ltb_tol_infinite_spec (x : float) :
  (Js.tol <? x) = true -> is_finite x = false -> Prim2SF x = S754_infinity false.
Proof.
  intros Ht Hf. rewrite ltb_spec in Ht. unfold SFltb in Ht.
  assert (Htol : exists m e, Prim2SF Js.tol = S754_finite false m e)
    by (eexists; eexists; reflexivity).
  destruct Htol as [mt [et Et]]. rewrite Et in Ht.
  destruct (Prim2SF x) as [s|s| |s m e] eqn:E; simpl in Ht; try discriminate.
  - destruct s; [discriminate | reflexivity].
  - assert (is_finite x = true) by (apply is_finite_spec; right; eauto). congruence.
Qed.

Lemma Prim2SF_bounded (x : float) (s : bool) (m : positive) (e : Z) :
  Prim2SF x = S754_finite s m e -> bounded prec emax m e = true.
Proof.
  intros E. pose proof (Prim2SF_valid x) as H. rewrite E in H. exact H.
Qed.

(** The difference of two finite amounts above the tolerance is finite. *)
Lemma sub_finite (x y : float) :
  (Js.tol <? x) = true -> is_finite x = true ->
  (Js.tol <? y) = true -> is_finite y = true ->
  is_finite (x - y) = true.
Proof.
  intros Hx Fx Hy Fy.
  destruct (ltb_tol_finite_spec x Hx Fx) as [mx [ex Ex]].
  destruct (ltb_tol_finite_spec y Hy Fy) as [my [ey Ey]].
  apply is_finite_spec. rewrite sub_spec, Ex, Ey.
  destruct (SFsub_finite false mx ex my ey _ (Prim2SF_bounded _ _ _ _ Ex)
              (Prim2SF_bounded _ _ _ _ Ey) eq_refl) as [[s H]|[s [m [e H]]]];
    rewrite H; eauto.
Qed.

(** Infinity less a finite amount is Infinity. *)
Lemma sub_infinite (x y : float) :
  (Js.tol <? x) = true -> is_finite x = false ->
  (Js.tol <? y) = true -> is_finite y = true ->
  x - y = infinity.
Proof.
  intros Hx Fx Hy Fy.
  pose proof (ltb_tol_infinite_spec x Hx Fx) as Ex.
  destruct (ltb_tol_finite_spec y Hy Fy) as [my [ey Ey]].
  apply Prim2SF_inj. rewrite sub_spec, Ex, Ey. reflexivity.
Qed.

(** The smaller of an amount above the tolerance and a finite one is
    finite. *)
Lemma min_finite (x y : float) :
  (Js.tol <? x) = true -> (Js.tol <? y) = true ->
  is_finite x = true \/ is_finite y = true ->
  (Js.min x y = x \/ Js.min x y = y) /\ is_finite (Js.min x y) = true.
Proof.
  intros Hx Hy Hf.
  pose proof (min_cases x y (ltb_not_nan_r _ _ Hx) (ltb_not_nan_r _ _ Hy)) as Hm.
  split; [exact Hm|].
  destruct (is_finite x) eqn:Fx; destruct (is_finite y) eqn:Fy.
  - destruct Hm as [-> | ->]; assumption.
  - (* y is Infinity *)
    pose proof (ltb_tol_infinite_spec y Hy Fy) as Ey.
    destruct (ltb_tol_finite_spec x Hx Fx) as [mx [ex Ex]].
    unfold Js.min. rewrite (ltb_not_nan_r _ _ Hx), (ltb_not_nan_r _ _ Hy). simpl.
    assert (E : (x <? y) = true) by (rewrite ltb_spec, Ex, Ey; reflexivity).
    rewrite E. exact Fx.
  - (* x is Infinity *)
    pose proof (ltb_tol_infinite_spec x Hx Fx) as Ex.
    destruct (ltb_tol_finite_spec y Hy Fy) as [my [ey Ey]].
    unfold Js.min. rewrite (ltb_not_nan_r _ _ Hx), (ltb_not_nan_r _ _ Hy). simpl.
    assert (E : (x <? y) = false) by (rewrite ltb_spec, Ex, Ey; reflexivity).
    assert (E' : (y <? x) = true) by (rewrite ltb_spec, Ex, Ey; reflexivity).
    rewrite E, E'. exact Fy.
  - destruct Hf; discriminate.
Qed.

(** What a pass leaves under a cursor that stays is again above the
    tolerance, and finite if it was. *)
Lemma remainder_above (x pay : float) :
  (Js.tol <? x) = true ->
  (Js.tol <? pay) = true -> is_finite pay = true ->
  (x - pay <=? Js.tol) = false ->
  (Js.tol <? x - pay) = true /\ (is_finite x = true -> is_finite (x - pay) = true).
Proof.
  intros Hx Hp Fp Hle.
  assert (Hnan : is_nan (x - pay) = false).
  { destruct (is_finite x) eqn:Fx.
    - apply is_finite_not_nan, sub_finite; assumption.
    - rewrite (sub_infinite x pay Hx Fx Hp Fp). reflexivity. }
  split.
  - destruct (leb_false_cases _ _ Hle) as [H|[H|H]]; [exact H| |].
    + rewrite H in Hnan. discriminate.
    + apply (f_equal is_nan) in H. vm_compute in H. discriminate.
  - intros Fx. apply sub_finite; assumption.
Qed.

(** When the amounts on one side are finite, every pass advances a cursor:
    the loop ends. *)
Lemma pairing_ends (fuel : nat) (ds cs : list Js.Entry.t) :
  Forall (fun e => (Js.tol <? Js.Entry.amount e) = true) ds ->
  Forall (fun e => (Js.tol <? Js.Entry.amount e) = true) cs ->
  Forall (fun e => is_finite (Js.Entry.amount e) = true) ds
  \/ Forall (fun e => is_finite (Js.Entry.amount e) = true) cs ->
  (List.length ds + List.length cs <= fuel)%nat ->
  exists ms, Js.pairing fuel ds cs = Some ms.
Proof.
  revert ds cs. induction fuel as [|fuel IH]; intros [|d ds] [|c cs] Hds Hcs Hfin Hlen;
    simpl in Hlen; try lia; try (exists []; reflexivity).
  inversion Hds as [|? ? Hd Hds']; inversion Hcs as [|? ? Hc Hcs']; subst.
  assert (Hfin1 : is_finite (Js.Entry.amount d) = true \/ is_finite (Js.Entry.amount c) = true).
  { destruct Hfin as [H|H]; inversion H; auto. }
  destruct (min_finite _ _ Hd Hc Hfin1) as [Hm Fp].
  set (pay := Js.min (Js.Entry.amount d) (Js.Entry.amount c)) in *.
  assert (Hp : (Js.tol <? pay) = true) by (destruct Hm as [-> | ->]; assumption).
  change (Js.pairing (S fuel) (d :: ds) (c :: cs))
    with (option_map (cons (Js.Move.mk (Js.Entry.id d) (Js.Entry.id c) pay))
            (Js.pairing fuel
               (if Js.Entry.amount d - pay <=? Js.tol then ds
                else Js.Entry.mk (Js.Entry.id d) (Js.Entry.amount d - pay) :: ds)
               (if Js.Entry.amount c - pay <=? Js.tol then cs
                else Js.Entry.mk (Js.Entry.id c) (Js.Entry.amount c - pay) :: cs))).
  assert (Hnext : exists rest,
            Js.pairing fuel
              (if Js.Entry.amount d - pay <=? Js.tol then ds
               else Js.Entry.mk (Js.Entry.id d) (Js.Entry.amount d - pay) :: ds)
              (if Js.Entry.amount c - pay <=? Js.tol then cs
               else Js.Entry.mk (Js.Entry.id c) (Js.Entry.amount c - pay) :: cs)
            = Some rest).
  { apply IH.
    - destruct (Js.Entry.amount d - pay <=? Js.tol) eqn:Td; [assumption|].
      constructor; [|assumption]. apply (remainder_above _ _ Hd Hp Fp Td).
    - destruct (Js.Entry.amount c - pay <=? Js.tol) eqn:Tc; [assumption|].
      constructor; [|assumption]. apply (remainder_above _ _ Hc Hp Fp Tc).
    - destruct Hfin as [H|H]; [left|right]; inversion H; subst.
      + destruct (Js.Entry.amount d - pay <=? Js.tol) eqn:Td; [assumption|].
        constructor; [|assumption]. apply (remainder_above _ _ Hd Hp Fp Td). assumption.
      + destruct (Js.Entry.amount c - pay <=? Js.tol) eqn:Tc; [assumption|].
        constructor; [|assumption]. apply (remainder_above _ _ Hc Hp Fp Tc). assumption.
    - destruct (pay_finite _ _ Fp) as [E|E]; fold pay in E; rewrite E, leb_zero_tol;
        [destruct (Js.Entry.amount c - pay <=? Js.tol)
        |destruct (Js.Entry.amount d - pay <=? Js.tol)]; simpl; lia. }
  destruct Hnext as [rest Hrest]. rewrite Hrest. simpl. eauto.
Qed.

(** ** [settlements] over doubles: the two lists *)

Lemma js_insert_index_In (n : N) (kv kv' : string * float)
    (l : list (N * (string * float))) :
  In kv' (map snd (Js.insert_index n kv l)) -> kv' = kv \/ In kv' (map snd l).
Proof.
  induction l as [|[n0 kv0] l IH]; simpl.
  - intros [H|[]]; auto.
  - destruct (n <? n0)%N; simpl; intros [H|H]; auto.
    destruct (IH H); auto.
Qed.

Lemma js_entries_In (b : Js.Balances) (kv : string * float) :
  In kv (Js.entries b) -> In kv b.
Proof.
  unfold Js.entries. rewrite in_app_iff. intros [H|H].
  - induction b as [|kv0 b IH]; simpl in H; [destruct H|].
    destruct (Js.array_index (fst kv0)).
    + apply js_insert_index_In in H. destruct H as [->|H]; [left; reflexivity|].
      right. apply IH, H.
    + right. apply IH, H.
  - unfold Js.other_entries in H. apply filter_In in H. apply H.
Qed.

Lemma js_classify_In (l : Js.Balances) (e : Js.Entry.t) :
  (In e (fst (Js.classify l)) ->
   exists v, In (Js.Entry.id e, v) l /\ (v <? - Js.tol) = true /\ Js.Entry.amount e = - v)
  /\ (In e (snd (Js.classify l)) ->
      exists v, In (Js.Entry.id e, v) l /\ (Js.tol <? v) = true /\ Js.Entry.amount e = v).
Proof.
  induction l as [|[k v] l [IH1 IH2]]; [split; intros []|].
  cbn [Js.classify]. destruct (Js.classify l) as [ds cs]. cbn [fst snd] in *.
  destruct (v <? - Js.tol) eqn:E1; [|destruct (Js.tol <? v) eqn:E2]; cbn [fst snd]; split;
    intros H.
  - destruct H as [<-|H]; [exists v; simpl; auto|].
    destruct (IH1 H) as [v' [Hin Hv']]. exists v'. simpl. auto.
  - destruct (IH2 H) as [v' [Hin Hv']]. exists v'. simpl. auto.
  - destruct (IH1 H) as [v' [Hin Hv']]. exists v'. simpl. auto.
  - destruct H as [<-|H]; [exists v; simpl; auto|].
    destruct (IH2 H) as [v' [Hin Hv']]. exists v'. simpl. auto.
  - destruct (IH1 H) as [v' [Hin Hv']]. exists v'. simpl. auto.
  - destruct (IH2 H) as [v' [Hin Hv']]. exists v'. simpl. auto.
Qed.

Lemma js_insert_sorted_In (e x : Js.Entry.t) (l : list Js.Entry.t) :
  In x (Js.insert_sorted e l) <-> x = e \/ In x l.
Proof.
  induction l as [|y l IH]; simpl; [intuition|].
  destruct (Js.comparator y e <? zero); simpl; rewrite ?IH; intuition.
Qed.

Lemma js_sort_In (x : Js.Entry.t) (l : list Js.Entry.t) : In x (Js.sort l) <-> In x l.
Proof.
  induction l as [|e l IH]; simpl; [tauto|].
  rewrite js_insert_sorted_In, IH. intuition.
Qed.

(** A debtor stands for a balance below -0.005 and a creditor for one above
    0.005. *)
Lemma js_debtors_of_In (b : Js.Balances) (e : Js.Entry.t) :
  In e (Js.debtors_of b) ->
  exists v, In (Js.Entry.id e, v) b /\ (v <? - Js.tol) = true /\ Js.Entry.amount e = - v.
Proof.
  unfold Js.debtors_of. rewrite js_sort_In. intros H.
  destruct (proj1 (js_classify_In _ e) H) as [v [Hin Hv]].
  exists v. split; [apply js_entries_In, Hin | exact Hv].
Qed.

Lemma js_creditors_of_In (b : Js.Balances) (e : Js.Entry.t) :
  In e (Js.creditors_of b) ->
  exists v, In (Js.Entry.id e, v) b /\ (Js.tol <? v) = true /\ Js.Entry.amount e = v.
Proof.
  unfold Js.creditors_of. rewrite js_sort_In. intros H.
  destruct (proj2 (js_classify_In _ e) H) as [v [Hin Hv]].
  exists v. split; [apply js_entries_In, Hin | exact Hv].
Qed.

Lemma js_debtors_above (b : Js.Balances) :
  Forall (fun e => (Js.tol <? Js.Entry.amount e) = true) (Js.debtors_of b).
Proof.
  apply Forall_forall. intros e He.
  destruct (js_debtors_of_In b e He) as [v [_ [Hlt ->]]]. rewrite ltb_opp in Hlt. exact Hlt.
Qed.

Lemma js_creditors_above (b : Js.Balances) :
  Forall (fun e => (Js.tol <? Js.Entry.amount e) = true) (Js.creditors_of b).
Proof.
  apply Forall_forall. intros e He.
  destruct (js_creditors_of_In b e He) as [v [_ [Hlt ->]]]. exact Hlt.
Qed.

Lemma above_not_infinity (x : float) :
  (Js.tol <? x) = true -> x <> infinity -> is_finite x = true.
Proof.
  intros Hx Hne. destruct (is_finite x) eqn:E; [reflexivity|].
  exfalso. apply Hne. apply Prim2SF_inj.
  rewrite (ltb_tol_infinite_spec x Hx E). reflexivity.
Qed.

Lemma opp_infinity (v : float) : - v = infinity -> v = neg_infinity.
Proof.
  intros H. apply Prim2SF_inj. apply (f_equal Prim2SF) in H. rewrite opp_spec in H.
  change (Prim2SF infinity) with (S754_infinity false) in H.
  change (Prim2SF neg_infinity) with (S754_infinity true).
  destruct (Prim2SF v) as [s|s| |s m e]; simpl in H; try discriminate.
  destruct s; [reflexivity | discriminate].
Qed.

(** The loop ends on a balance object that does not hold both -Infinity and
    Infinity. *)
Lemma js_settlements_ends (b : Js.Balances) :
  (forall k v, In (k, v) b -> v <> neg_infinity)
  \/ (forall k v, In (k, v) b -> v <> infinity) ->
  exists ms, Js.settlements b = Some ms.
Proof.
  intros H. rewrite js_settlements_pairing.
  apply pairing_ends; [apply js_debtors_above | apply js_creditors_above | | apply Nat.le_refl].
  destruct H as [H|H]; [left|right]; apply Forall_forall; intros e He.
  - pose proof He as He'. apply js_debtors_of_In in He'. destruct He' as [v [Hin [_ Ea]]].
    pose proof (js_debtors_above b) as Ha. rewrite Forall_forall in Ha.
    apply above_not_infinity; [apply Ha, He|].
    rewrite Ea. intros E. apply opp_infinity in E. exact (H _ _ Hin E).
  - pose proof He as He'. apply js_creditors_of_In in He'. destruct He' as [v [Hin [_ Ea]]].
    pose proof (js_creditors_above b) as Ha. rewrite Forall_forall in Ha.
    apply above_not_infinity; [apply Ha, He|].
    rewrite Ea. exact (H _ _ Hin).
Qed.

(** ** [settlements] over doubles: -Infinity and Infinity *)

Lemma js_insert_index_In_iff (n : N) (kv kv' : string * float)
    (l : list (N * (string * float))) :
  In kv' (map snd (Js.insert_index n kv l)) <-> kv' = kv \/ In kv' (map snd l).
Proof.
  induction l as [|[n0 kv0] l IH]; simpl.
  - intuition.
  - destruct (n <? n0)%N; simpl; rewrite ?IH; intuition.
Qed.

Lemma js_In_entries (b : Js.Balances) (kv : string * float) :
  In kv b -> In kv (Js.entries b).
Proof.
  intros H. unfold Js.entries. rewrite in_app_iff.
  destruct (Js.array_index (fst kv)) as [n|] eqn:E.
  - left. induction b as [|kv0 b IH]; [destruct H|]. simpl.
    destruct H as [->|H].
    + rewrite E. apply js_insert_index_In_iff. left. reflexivity.
    + destruct (Js.array_index (fst kv0)); [|apply IH, H].
      apply js_insert_index_In_iff. right. apply IH, H.
  - right. unfold Js.other_entries. apply filter_In. rewrite E. auto.
Qed.

Lemma js_In_classify (l : Js.Balances) (k : string) (v : float) :
  In (k, v) l ->
  ((v <? - Js.tol) = true -> In (Js.Entry.mk k (- v)) (fst (Js.classify l)))
  /\ ((v <? - Js.tol) = false -> (Js.tol <? v) = true ->
      In (Js.Entry.mk k v) (snd (Js.classify l))).
Proof.
  induction l as [|[k0 v0] l IH]; [intros []|].
  intros [H|H]; cbn [Js.classify]; destruct (Js.classify l) as [ds cs]; cbn [fst snd] in *.
  - injection H as -> ->. split.
    + intros E. rewrite E. left. reflexivity.
    + intros E1 E2. rewrite E1, E2. left. reflexivity.
  - destruct (IH H) as [IH1 IH2].
    destruct (v0 <? - Js.tol); [|destruct (Js.tol <? v0)]; cbn [fst snd]; split; intros;
      try (right; auto; fail); auto.
Qed.

Lemma js_debtors_infinite (b : Js.Balances) (k : string) :
  In (k, neg_infinity) b -> In (Js.Entry.mk k infinity) (Js.debtors_of b).
Proof.
  intros H. unfold Js.debtors_of. apply js_sort_In.
  apply (proj1 (js_In_classify _ k neg_infinity (js_In_entries _ _ H))). reflexivity.
Qed.

Lemma js_creditors_infinite (b : Js.Balances) (k : string) :
  In (k, infinity) b -> In (Js.Entry.mk k infinity) (Js.creditors_of b).
Proof.
  intros H. unfold Js.creditors_of. apply js_sort_In.
  apply (proj2 (js_In_classify _ k infinity (js_In_entries _ _ H))); reflexivity.
Qed.

(** [Infinity] sorts first: an amount above the tolerance that is not put
    after [Infinity] is [Infinity]. *)
Lemma comparator_infinity (x e : Js.Entry.t) :
  Js.Entry.amount x = infinity ->
  (Js.tol <? Js.Entry.amount e) = true ->
  (Js.comparator x e <? zero) = false ->
  Js.Entry.amount e = infinity.
Proof.
  unfold Js.comparator. intros Ex He Hc. rewrite Ex in Hc.
  destruct (is_finite (Js.Entry.amount e)) eqn:Fe.
  - destruct (ltb_tol_finite_spec _ He Fe) as [m [ex E]].
    rewrite ltb_spec, sub_spec, E in Hc. discriminate.
  - apply Prim2SF_inj. rewrite (ltb_tol_infinite_spec _ He Fe). reflexivity.
Qed.

Lemma comparator_infinity_first (x e : Js.Entry.t) :
  Js.Entry.amount e = infinity ->
  (Js.tol <? Js.Entry.amount x) = true ->
  (Js.comparator x e <? zero) = true ->
  Js.Entry.amount x = infinity.
Proof.
  unfold Js.comparator. intros Ee Hx Hc. rewrite Ee in Hc.
  destruct (is_finite (Js.Entry.amount x)) eqn:Fx.
  - destruct (ltb_tol_finite_spec _ Hx Fx) as [m [ex E]].
    rewrite ltb_spec, sub_spec, E in Hc. discriminate.
  - apply Prim2SF_inj. rewrite (ltb_tol_infinite_spec _ Hx Fx). reflexivity.
Qed.

Lemma js_sort_infinity_first (l : list Js.Entry.t) :
  Forall (fun e => (Js.tol <? Js.Entry.amount e) = true) l ->
  (exists e, In e l /\ Js.Entry.amount e = infinity) ->
  exists e rest, Js.sort l = e :: rest /\ Js.Entry.amount e = infinity.
Proof.
  induction 1 as [|e l He Hl IH]; intros [e0 [Hin E0]]; [destruct Hin|].
  simpl. destruct (Js.sort l) as [|x rest] eqn:Es.
  - simpl. exists e, []. split; [reflexivity|].
    destruct Hin as [->|Hin]; [exact E0|].
    apply js_sort_In in Hin. rewrite Es in Hin. destruct Hin.
  - assert (Hx : (Js.tol <? Js.Entry.amount x) = true).
    { rewrite Forall_forall in Hl. apply Hl, js_sort_In. rewrite Es. left. reflexivity. }
    simpl. destruct (Js.comparator x e <? zero) eqn:Ec.
    + exists x, (Js.insert_sorted e rest). split; [reflexivity|].
      destruct Hin as [->|Hin].
      * apply (comparator_infinity_first x e0 E0 Hx Ec).
      * destruct (IH (ex_intro _ e0 (conj Hin E0))) as [x' [rest' [Ex' Ea]]].
        injection Ex' as <- <-. exact Ea.
    + exists e, (x :: rest). split; [reflexivity|].
      destruct Hin as [->|Hin]; [exact E0|].
      destruct (IH (ex_intro _ e0 (conj Hin E0))) as [x' [rest' [Ex' Ea]]].
      injection Ex' as <- <-. apply (comparator_infinity x e Ea He Ec).
Qed.

(** With a balance of -Infinity and a balance of Infinity the loop never
    ends. *)
Lemma js_settlements_never (b : Js.Balances) :
  (exists k, In (k, neg_infinity) b) -> (exists k, In (k, infinity) b) ->
  forall fuel, Js.while fuel (Js.loop_start b) = None.
Proof.
  intros [kd Hd] [kc Hc]. apply js_while_never. simpl.
  pose proof (js_debtors_above b) as Had. pose proof (js_creditors_above b) as Hac.
  unfold Js.debtors_of, Js.creditors_of in *.
  destruct (js_sort_infinity_first (fst (Js.classify (Js.entries b)))) as [d [ds [Ed Ead]]].
  { apply Forall_forall. intros e He. rewrite Forall_forall in Had.
    apply Had, js_sort_In, He. }
  { exists (Js.Entry.mk kd infinity). split; [|reflexivity].
    apply js_sort_In. apply (js_debtors_infinite b kd Hd). }
  destruct (js_sort_infinity_first (snd (Js.classify (Js.entries b)))) as [c [cs [Ec Eac]]].
  { apply Forall_forall. intros e He. rewrite Forall_forall in Hac.
    apply Hac, js_sort_In, He. }
  { exists (Js.Entry.mk kc infinity). split; [|reflexivity].
    apply js_sort_In. apply (js_creditors_infinite b kc Hc). }
  rewrite Ed, Ec. apply pairing_None_cons. rewrite Ead, Eac.
  change (Js.min infinity infinity) with infinity.
  change (infinity - infinity) with nan.
  change (nan <=? Js.tol) with false. cbv iota.
  intros fuel. apply pairing_stuck. left. reflexivity.
Qed.


(** C10, as stated, fails: two expenses of 1e308 paid by T for A give A a
    balance of -Infinity and T one of Infinity; the first pass pays Infinity
    and leaves both entries with Infinity - Infinity, which is NaN; neither
    [NaN <= 0.005] holds, no cursor moves, and the loop does not end. *)
Lemma settlements_terminates_counterexample :
  Js.balances ex_personas js_big
  = [(ex_A, neg_infinity); (ex_B, zero); (ex_T, infinity)]
  /\ forall fuel, Js.while fuel (Js.loop_start (Js.balances ex_personas js_big)) = None.
Proof.
  split; [reflexivity|].
  apply js_while_never.
  change (forall fuel, Js.pairing fuel [Js.Entry.mk ex_A infinity]
                         [Js.Entry.mk ex_T infinity] = None).
  apply pairing_None_cons. intros fuel. apply pairing_stuck. left. reflexivity.
Qed.

(** C10, amended.  On a balance object that does not hold both -Infinity
    and Infinity, the loop ends: within as many passes as there are debtors
    and creditors, having pushed at most that number less one transfers.  On
    a balance object that holds both, it never ends.  On any balance object
    it ends in that way or never ends.  Each pass pushes one transfer and
    moves no cursor back; when the amount paid is finite, the smaller of the
    two current amounts becomes zero; and a pass either advances a cursor, or
    leaves NaN under a cursor that stays, after which the loop never
    ends. *)
Theorem settlements_terminates_unless_infinite (b : Js.Balances) :
  ((forall k v, In (k, v) b -> v <> neg_infinity)
   \/ (forall k v, In (k, v) b -> v <> infinity) ->
   exists st,
     Js.while (List.length (Js.debtors_of b) + List.length (Js.creditors_of b))
       (Js.loop_start b) = Some st
     /\ Js.loop_body st = None
     /\ Js.settlements b = Some (Js.moves st)
     /\ (List.length (Js.moves st)
         <= List.length (Js.debtors_of b) + List.length (Js.creditors_of b) - 1)%nat)
  /\ ((exists k, In (k, neg_infinity) b) -> (exists k, In (k, infinity) b) ->
      forall fuel, Js.while fuel (Js.loop_start b) = None)
  /\ ((exists st,
         Js.while (List.length (Js.debtors_of b) + List.length (Js.creditors_of b))
           (Js.loop_start b) = Some st
         /\ Js.loop_body st = None
         /\ Js.settlements b = Some (Js.moves st)
         /\ (List.length (Js.moves st)
             <= List.length (Js.debtors_of b) + List.length (Js.creditors_of b) - 1)%nat)
      \/ (forall fuel, Js.while fuel (Js.loop_start b) = None))
  /\ (forall st st', Js.loop_body st = Some st' ->
      exists d c d' c',
        nth_error (Js.debtors st) (Js.i st) = Some d
        /\ nth_error (Js.creditors st) (Js.j st) = Some c
        /\ nth_error (Js.debtors st') (Js.i st) = Some d'
        /\ nth_error (Js.creditors st') (Js.j st) = Some c'
        /\ List.length (Js.moves st') = S (List.length (Js.moves st))
        /\ (Js.i st <= Js.i st' /\ Js.j st <= Js.j st')%nat
        /\ (is_finite (Js.min (Js.Entry.amount d) (Js.Entry.amount c)) = true ->
            Js.Entry.amount d' = zero \/ Js.Entry.amount c' = zero)
        /\ ((Js.i st + Js.j st < Js.i st' + Js.j st')%nat
            \/ (Js.i st' = Js.i st /\ Js.j st' = Js.j st
                /\ (Js.Entry.amount d' = nan \/ Js.Entry.amount c' = nan)
                /\ forall fuel, Js.while fuel st' = None))).
Proof.
  assert (Hdich :
    (exists st,
       Js.while (List.length (Js.debtors_of b) + List.length (Js.creditors_of b))
         (Js.loop_start b) = Some st
       /\ Js.loop_body st = None
       /\ Js.settlements b = Some (Js.moves st)
       /\ (List.length (Js.moves st)
           <= List.length (Js.debtors_of b) + List.length (Js.creditors_of b) - 1)%nat)
    \/ (forall fuel, Js.while fuel (Js.loop_start b) = None)).
  { destruct (pairing_ends_or_never _ (Js.debtors_of b) (Js.creditors_of b) (Nat.le_refl _))
      as [[ms [Hms Hl]]|Hnever].
    + left. pose proof (js_settlements_pairing b) as Hs. rewrite Hms in Hs.
      unfold Js.settlements in Hs.
      destruct (Js.while _ (Js.loop_start b)) as [st|] eqn:Ew; [|discriminate].
      exists st. simpl in Hs. injection Hs as Hs. repeat split.
      * eapply js_while_exit, Ew.
      * unfold Js.settlements. rewrite Ew. reflexivity.
      * rewrite Hs. exact Hl.
    + right. apply js_while_never. exact Hnever. }
  split; [|split; [apply js_settlements_never|split; [exact Hdich|]]].
  - intros H. destruct Hdich as [Hends|Hnever]; [exact Hends|].
    destruct (js_settlements_ends b H) as [ms Hms]. unfold Js.settlements in Hms.
    rewrite Hnever in Hms. discriminate.
  - intros st st' H. pose proof H as H'. unfold Js.loop_body in H'.
    destruct (nth_error (Js.debtors st) (Js.i st)) as [d|] eqn:Ed; [|discriminate].
    destruct (nth_error (Js.creditors st) (Js.j st)) as [c|] eqn:Ec; [|discriminate].
    destruct (js_loop_body_skipn st st' d c Ed Ec H) as [Hd [Hc Hm]].
    injection H' as <-. simpl in *.
    set (pay := Js.min (Js.Entry.amount d) (Js.Entry.amount c)) in *.
    exists d, c, (Js.Entry.mk (Js.Entry.id d) (Js.Entry.amount d - pay)),
      (Js.Entry.mk (Js.Entry.id c) (Js.Entry.amount c - pay)).
    split; [reflexivity|]. split; [reflexivity|].
    split; [apply (js_nth_error_set_nth _ _ d), Ed|].
    split; [apply (js_nth_error_set_nth _ _ c), Ec|].
    split; [rewrite length_app; simpl; lia|].
    split; [destruct (Js.Entry.amount d - pay <=? Js.tol),
              (Js.Entry.amount c - pay <=? Js.tol); lia|].
    split; [intros Hf; apply (pay_finite _ _ Hf)|]. simpl.
    destruct (Js.Entry.amount d - pay <=? Js.tol) eqn:Td;
      [left; destruct (Js.Entry.amount c - pay <=? Js.tol); lia|].
    destruct (Js.Entry.amount c - pay <=? Js.tol) eqn:Tc; [left; lia|].
    right.
    assert (Hnan : Js.Entry.amount d - pay = nan \/ Js.Entry.amount c - pay = nan).
    { destruct (is_finite pay) eqn:Ef.
      - destruct (pay_finite _ _ Ef) as [E|E]; fold pay in E; rewrite E in *;
          rewrite leb_zero_tol in *; discriminate.
      - apply (pay_not_finite _ _ Ef). }
    repeat split; try assumption.
    apply js_while_never. simpl. rewrite Hd, Hc.
    intros fuel. apply pairing_stuck. exact Hnan.
Qed.

(** ** [settlements] over doubles: the amounts paid *)

Lemma pairing_above (fuel : nat) (ds cs : list Js.Entry.t) (ms : list Js.Move.t) :
  Js.pairing fuel ds cs = Some ms ->
  Forall (fun e => above_or_nan (Js.Entry.amount e)) ds ->
  Forall (fun e => above_or_nan (Js.Entry.amount e)) cs ->
  Forall (fun m => (Js.tol <? Js.Move.amount m) = true) ms.
Proof.
  revert ds cs ms. induction fuel as [|fuel IH]; intros [|d ds] [|c cs] ms H Hds Hcs;
    simpl in H; try (injection H as <-; constructor); try discriminate.
  inversion Hds as [|? ? Hd Hds']; inversion Hcs as [|? ? Hc Hcs']; subst.
  destruct Hd as [Hd|Hd].
  2: { pose proof (pairing_stuck (S fuel) d c ds cs (or_introl Hd)) as Hn.
       simpl in Hn. rewrite Hn in H. discriminate. }
  destruct Hc as [Hc|Hc].
  2: { pose proof (pairing_stuck (S fuel) d c ds cs (or_intror Hc)) as Hn.
       simpl in Hn. rewrite Hn in H. discriminate. }
  set (pay := Js.min (Js.Entry.amount d) (Js.Entry.amount c)) in *.
  destruct (Js.pairing fuel _ _) as [rest|] eqn:E; [|discriminate].
  injection H as <-. constructor.
  - simpl. destruct (min_cases _ _ (ltb_not_nan_r _ _ Hd) (ltb_not_nan_r _ _ Hc)) as [Em|Em];
      fold pay in Em; rewrite Em; assumption.
  - apply (IH _ _ _ E).
    + destruct (Js.Entry.amount d - pay <=? Js.tol) eqn:Td; [assumption|].
      constructor; [|assumption]. simpl.
      destruct (leb_false_cases _ _ Td) as [Hx|[Hx|Hx]]; [left; exact Hx | right; exact Hx |].
      exfalso. apply (f_equal is_nan) in Hx. vm_compute in Hx. discriminate.
    + destruct (Js.Entry.amount c - pay <=? Js.tol) eqn:Tc; [assumption|].
      constructor; [|assumption]. simpl.
      destruct (leb_false_cases _ _ Tc) as [Hx|[Hx|Hx]]; [left; exact Hx | right; exact Hx |].
      exfalso. apply (f_equal is_nan) in Hx. vm_compute in Hx. discriminate.
Qed.

Lemma js_classify_above (l : Js.Balances) :
  Forall (fun e => (Js.tol <? Js.Entry.amount e) = true) (fst (Js.classify l))
  /\ Forall (fun e => (Js.tol <? Js.Entry.amount e) = true) (snd (Js.classify l)).
Proof.
  induction l as [|[k v] l [IH1 IH2]]; [split; constructor|].
  cbn [Js.classify]. destruct (Js.classify l) as [ds cs]. cbn [fst snd] in *.
  destruct (v <? - Js.tol) eqn:E1; [|destruct (Js.tol <? v) eqn:E2]; cbn [fst snd]; split;
    try assumption; constructor; try assumption; cbn [Js.Entry.amount].
  rewrite ltb_opp in E1. exact E1.
Qed.

Lemma js_insert_sorted_Forall (P : Js.Entry.t -> Prop) (e : Js.Entry.t) (l : list Js.Entry.t) :
  P e -> Forall P l -> Forall P (Js.insert_sorted e l).
Proof.
  intros He. induction 1 as [|x l Hx Hl IH]; simpl.
  - constructor; [assumption | constructor].
  - destruct (Js.comparator x e <? zero); constructor; try assumption.
    constructor; assumption.
Qed.

Lemma js_sort_Forall (P : Js.Entry.t -> Prop) (l : list Js.Entry.t) :
  Forall P l -> Forall P (Js.sort l).
Proof.
  induction 1 as [|e l He Hl IH]; simpl; [constructor|].
  apply js_insert_sorted_Forall; assumption.
Qed.



(** ** The balance object over doubles *)

Lemma is_inherited_proto (k : string) : Js.is_inherited k = false -> k <> "__proto__"%string.
Proof. intros H ->. discriminate. Qed.

Lemma js_get_set_own_same (b : Js.Balances) (k : string) (v : float) :
  Js.get (Js.set_own b k v) k = Some v.
Proof.
  induction b as [|[k' v'] b IH]; simpl.
  - rewrite String.eqb_refl. reflexivity.
  - destruct (String.eqb k' k) eqn:E; simpl; rewrite E; auto.
Qed.

Lemma js_get_set_own_other (b : Js.Balances) (k k' : string) (v : float) :
  k <> k' -> Js.get (Js.set_own b k v) k' = Js.get b k'.
Proof.
  intros Hne. induction b as [|[k0 v0] b IH]; simpl.
  - apply String.eqb_neq in Hne. rewrite Hne. reflexivity.
  - destruct (String.eqb k0 k) eqn:E; simpl.
    + apply String.eqb_eq in E. subst k0. apply String.eqb_neq in Hne. rewrite Hne.
      reflexivity.
    + destruct (String.eqb k0 k'); auto.
Qed.

Lemma js_get_set_same (b : Js.Balances) (k : string) (v : float) :
  k <> "__proto__"%string -> Js.get (Js.set b k v) k = Some v.
Proof.
  intros H. unfold Js.set. apply String.eqb_neq in H. rewrite H.
  apply js_get_set_own_same.
Qed.

Lemma js_get_set_other (b : Js.Balances) (k k' : string) (v : float) :
  k <> k' -> Js.get (Js.set b k v) k' = Js.get b k'.
Proof.
  intros H. unfold Js.set. destruct (String.eqb k "__proto__"); [reflexivity|].
  apply js_get_set_own_other, H.
Qed.

Lemma js_get0_set_other (b : Js.Balances) (k k' : string) (v : float) :
  k <> k' -> Js.get0 (Js.set b k v) k' = Js.get0 b k'.
Proof.
  intros H. unfold Js.get0. rewrite js_get_set_other by assumption. reflexivity.
Qed.

Lemma js_includes_In (l : list string) (k : string) : Js.includes l k = true <-> In k l.
Proof.
  unfold Js.includes. rewrite existsb_exists. split.
  - intros [x [Hin Heq]]. apply String.eqb_eq in Heq. subst. assumption.
  - intros H. exists k. split; [assumption | apply String.eqb_refl].
Qed.

(** ** [balances] over doubles: one expense *)

(** What the loop over the participants leaves under each key, when no
    participant is listed twice and none names an inherited member. *)
Lemma js_fold_participante (g : Js.Expense.t) (share : float) (l : list string)
    (b : Js.Balances) (k : string) :
  NoDup l ->
  (forall pid, In pid l -> Js.is_inherited pid = false) ->
  Js.get (fold_left (Js.apply_participante g share) l b) k
  = if in_dec string_dec k l
    then Some (if String.eqb k (Js.Expense.pagadorId g)
               then Js.get0 b k + (Js.Expense.monto g - share)
               else Js.get0 b k - share)
    else Js.get b k.
Proof.
  revert b. induction l as [|pid l IH]; intros b Hnd Hsafe; [reflexivity|].
  inversion Hnd as [|? ? Hnotin Hnd']; subst. cbn [fold_left].
  rewrite IH by (auto; intros; apply Hsafe; right; assumption).
  assert (Hproto : pid <> "__proto__"%string)
    by (apply is_inherited_proto, Hsafe; left; reflexivity).
  destruct (in_dec string_dec k l) as [Hin|Hin];
    destruct (in_dec string_dec k (pid :: l)) as [Hin'|Hin'];
    try (exfalso; apply Hin'; right; exact Hin).
  - assert (Hne : pid <> k) by (intros ->; contradiction).
    unfold Js.apply_participante.
    destruct (String.eqb pid (Js.Expense.pagadorId g));
      rewrite js_get0_set_other by assumption; reflexivity.
  - destruct Hin' as [->|Hin']; [|contradiction].
    unfold Js.apply_participante.
    destruct (String.eqb k (Js.Expense.pagadorId g));
      rewrite js_get_set_same by assumption; reflexivity.
  - assert (Hne : pid <> k) by (intros ->; apply Hin'; left; reflexivity).
    unfold Js.apply_participante.
    destruct (String.eqb pid (Js.Expense.pagadorId g));
      rewrite js_get_set_other by assumption; reflexivity.
Qed.

Lemma js_skipped_false (g : Js.Expense.t) :
  (zero <? Js.Expense.monto g) = true -> Js.Expense.participantes g <> [] ->
  Js.skipped g = false.
Proof.
  intros Hpos Hne. unfold Js.skipped. rewrite (ltb_leb_false _ _ Hpos). simpl.
  destruct (Js.Expense.participantes g); [congruence | reflexivity].
Qed.




(** ** [balances] over doubles: ids that are not people *)

Lemma extends_get0 (pid : string) (b b' : Js.Balances) (k : string) :
  Js.is_inherited pid = false -> extends pid b b' -> Js.get0 b' k = Js.get0 b k.
Proof.
  intros Hsafe [Hother Hpid]. unfold Js.get0 at 1.
  destruct (string_dec k pid) as [->|Hne].
  - rewrite Hpid. reflexivity.
  - rewrite (Hother k Hne). reflexivity.
Qed.

Lemma extends_set (pid : string) (b b' : Js.Balances) (k : string) (v : float) :
  Js.is_inherited pid = false -> extends pid b b' ->
  extends pid (Js.set b k v) (Js.set b' k v).
Proof.
  intros Hsafe [Hother Hpid]. split.
  - intros k' Hk'. destruct (string_dec k k') as [->|Hne].
    + destruct (String.eqb k' "__proto__") eqn:E.
      * unfold Js.set. rewrite E. apply Hother, Hk'.
      * apply String.eqb_neq in E. rewrite !js_get_set_same by assumption. reflexivity.
    + rewrite !js_get_set_other by assumption. apply Hother, Hk'.
  - destruct (string_dec k pid) as [->|Hne].
    + pose proof (is_inherited_proto _ Hsafe) as Hp.
      rewrite js_get_set_same by assumption. unfold Js.get0.
      rewrite js_get_set_same by assumption. reflexivity.
    + rewrite js_get_set_other, js_get0_set_other by assumption. exact Hpid.
Qed.

Lemma extends_apply_gasto (pid : string) (b b' : Js.Balances) (g : Js.Expense.t) :
  Js.is_inherited pid = false -> extends pid b b' ->
  extends pid (Js.apply_gasto b g) (Js.apply_gasto b' g).
Proof.
  intros Hsafe H. unfold Js.apply_gasto. destruct (Js.skipped g); [exact H|].
  assert (Hfold : forall l b b', extends pid b b' ->
            extends pid (fold_left (Js.apply_participante g (Js.share_of g)) l b)
              (fold_left (Js.apply_participante g (Js.share_of g)) l b')).
  { induction l as [|x l IH]; intros c c' Hc; [exact Hc|]. simpl. apply IH.
    unfold Js.apply_participante. rewrite (extends_get0 pid c c' x Hsafe Hc).
    destruct (String.eqb x (Js.Expense.pagadorId g)); apply extends_set; assumption. }
  specialize (Hfold (Js.Expense.participantes g) b b' H). cbv zeta.
  destruct (Js.includes _ _); [exact Hfold|].
  rewrite (extends_get0 pid _ _ (Js.Expense.pagadorId g) Hsafe Hfold).
  apply extends_set; assumption.
Qed.

Lemma js_get_init_balances (ps : list Person.t) (k : string) :
  ~ In k (map Person.id ps) -> Js.get (Js.init_balances ps) k = None.
Proof.
  unfold Js.init_balances.
  assert (H : forall b, Js.get b k = None -> ~ In k (map Person.id ps) ->
            Js.get (fold_left (fun b p => Js.set b (Person.id p) zero) ps b) k = None).
  { induction ps as [|p ps IH]; intros b Hb Hn; simpl; [exact Hb|].
    apply IH.
    - rewrite js_get_set_other; [exact Hb|]. intros E. apply Hn. left. exact E.
    - intros Hin. apply Hn. right. exact Hin. }
  apply H. reflexivity.
Qed.

Lemma js_init_balances_app (ps : list Person.t) (p : Person.t) :
  Js.init_balances (ps ++ [p]) = Js.set (Js.init_balances ps) (Person.id p) zero.
Proof.
  unfold Js.init_balances. rewrite fold_left_app. reflexivity.
Qed.

(** An expense that does not name [k] leaves [b[k]] as it is, and one that
    is counted and names it leaves a number there. *)
Lemma js_apply_gasto_untouched (b : Js.Balances) (g : Js.Expense.t) (k : string) :
  Js.touches g k = false -> Js.get (Js.apply_gasto b g) k = Js.get b k.
Proof.
  unfold Js.touches, Js.apply_gasto. destruct (Js.skipped g); [reflexivity|]. simpl.
  intros H. apply orb_false_iff in H. destruct H as [Hp Hin].
  apply String.eqb_neq in Hp.
  assert (Hfold : forall l b, Js.includes l k = false ->
            Js.get (fold_left (Js.apply_participante g (Js.share_of g)) l b) k = Js.get b k).
  { induction l as [|x l IH]; intros c Hc; [reflexivity|]. simpl in *.
    apply orb_false_iff in Hc. destruct Hc as [Hx Hl]. rewrite (IH _ Hl).
    apply String.eqb_neq in Hx. unfold Js.apply_participante.
    destruct (String.eqb x (Js.Expense.pagadorId g)); apply js_get_set_other; congruence. }
  destruct (Js.includes (Js.Expense.participantes g) (Js.Expense.pagadorId g)).
  - apply Hfold, Hin.
  - rewrite js_get_set_other by congruence. apply Hfold, Hin.
Qed.

Lemma js_get_set_keeps (b : Js.Balances) (k k' : string) (v : float) :
  Js.get b k' <> None -> Js.get (Js.set b k v) k' <> None.
Proof.
  intros H. destruct (string_dec k k') as [->|Hne].
  - unfold Js.set. destruct (String.eqb k' "__proto__"); [exact H|].
    rewrite js_get_set_own_same. discriminate.
  - rewrite js_get_set_other by assumption. exact H.
Qed.

Lemma js_fold_participante_keeps (g : Js.Expense.t) (share : float) (l : list string)
    (b : Js.Balances) (k : string) :
  Js.get b k <> None ->
  Js.get (fold_left (Js.apply_participante g share) l b) k <> None.
Proof.
  revert b. induction l as [|x l IH]; intros b H; [exact H|]. simpl. apply IH.
  unfold Js.apply_participante.
  destruct (String.eqb x (Js.Expense.pagadorId g)); apply js_get_set_keeps, H.
Qed.

Lemma js_apply_gasto_keeps (b : Js.Balances) (g : Js.Expense.t) (k : string) :
  Js.get b k <> None -> Js.get (Js.apply_gasto b g) k <> None.
Proof.
  intros H. unfold Js.apply_gasto. destruct (Js.skipped g); [exact H|]. cbv zeta.
  destruct (Js.includes _ _); [|apply js_get_set_keeps];
    apply js_fold_participante_keeps, H.
Qed.

Lemma js_apply_gasto_touched (b : Js.Balances) (g : Js.Expense.t) (k : string) :
  Js.is_inherited k = false -> Js.touches g k = true ->
  Js.get (Js.apply_gasto b g) k <> None.
Proof.
  intros Hsafe. pose proof (is_inherited_proto _ Hsafe) as Hp.
  unfold Js.touches, Js.apply_gasto. destruct (Js.skipped g); [discriminate|]. simpl.
  intros H. cbv zeta.
  assert (Hfold : forall l b, Js.includes l k = true ->
            Js.get (fold_left (Js.apply_participante g (Js.share_of g)) l b) k <> None).
  { induction l as [|x l IH]; intros c Hc; [discriminate|]. simpl in *.
    apply orb_true_iff in Hc. destruct Hc as [Hx|Hl]; [|apply IH, Hl].
    apply String.eqb_eq in Hx. subst x. apply js_fold_participante_keeps.
    unfold Js.apply_participante.
    destruct (String.eqb k (Js.Expense.pagadorId g));
      rewrite js_get_set_same by assumption; discriminate. }
  destruct (Js.includes (Js.Expense.participantes g) k) eqn:Ein.
  - destruct (Js.includes _ (Js.Expense.pagadorId g)); [|apply js_get_set_keeps];
      apply Hfold, Ein.
  - rewrite orb_false_r in H. apply String.eqb_eq in H. subst k. rewrite Ein.
    rewrite js_get_set_same by assumption. discriminate.
Qed.

Lemma js_balances_touched (b : Js.Balances) (gs : list Js.Expense.t) (k : string) :
  Js.is_inherited k = false ->
  (exists g, In g gs /\ Js.touches g k = true) ->
  Js.get (fold_left Js.apply_gasto gs b) k <> None.
Proof.
  intros Hsafe. revert b. induction gs as [|g gs IH]; intros b [g0 [Hin Ht]];
    [destruct Hin|]. simpl.
  assert (Hkeep : forall gs b, Js.get b k <> None ->
            Js.get (fold_left Js.apply_gasto gs b) k <> None).
  { clear. induction gs as [|g gs IH]; intros b H; [exact H|]. simpl.
    apply IH, js_apply_gasto_keeps, H. }
  destruct (Js.touches g k) eqn:E.
  - apply Hkeep, js_apply_gasto_touched; assumption.
  - destruct Hin as [->|Hin]; [congruence|]. apply IH. eauto.
Qed.

Lemma js_balances_untouched (b : Js.Balances) (gs : list Js.Expense.t) (k : string) :
  (forall g, In g gs -> Js.touches g k = false) ->
  Js.get (fold_left Js.apply_gasto gs b) k = Js.get b k.
Proof.
  revert b. induction gs as [|g gs IH]; intros b H; [reflexivity|]. simpl.
  rewrite IH by (intros g' Hg'; apply H; right; exact Hg').
  apply js_apply_gasto_untouched, H. left. reflexivity.
Qed.

(** C9, as stated, fails for an id that names a member of
    [Object.prototype]: [b[pid] ?? 0] then reads the inherited member, not 0.
    The participant [constructor] ends with NaN, and for [__proto__] no entry
    is created.  It fails as well for an expense that is skipped: an amount
    of 0 creates no entry for the ids of the expense. *)
Lemma balances_unknown_id_counterexample :
  Js.get (Js.balances ex_personas [js_proto]) "constructor" = Some nan
  /\ Js.get (Js.balances ex_personas [js_proto]) "__proto__" = None
  /\ Js.get (Js.balances ex_personas [js_proto]) ex_A = Some (0 + (9 - 9 / Js.of_nat 3))
  /\ Js.get (Js.balances ex_personas [js_zero_unknown]) ex_X = None
  /\ Js.get (Js.balances ex_personas [js_zero_unknown]) ex_Y = None.
Proof. repeat split; reflexivity. Qed.

(** C9, amended.  An id that is not the id of a person and does not name a
    member of [Object.prototype]: when an expense that is counted names it as
    its payer or among its participants, it has an entry in the balance
    object, and the entry holds what it would hold if the id were the id of
    one more person, whose entry starts from 0; the other entries are the
    same in both cases.  When no such expense names it, it has no entry and
    [b[pid] ?? 0] reads 0. *)
Theorem balances_unknown_id (ps : list Person.t) (gs : list Js.Expense.t)
    (pid nombre : string) :
  ~ In pid (map Person.id ps) ->
  Js.is_inherited pid = false ->
  ((exists g, In g gs /\ Js.touches g pid = true) ->
   exists v, Js.get (Js.balances ps gs) pid = Some v
             /\ Js.get (Js.balances (ps ++ [Person.mk pid nombre]) gs) pid = Some v)
  /\ ((forall g, In g gs -> Js.touches g pid = false) ->
      Js.get (Js.balances ps gs) pid = None
      /\ Js.get0 (Js.balances ps gs) pid = zero
      /\ Js.get (Js.balances (ps ++ [Person.mk pid nombre]) gs) pid = Some zero)
  /\ (forall k, k <> pid ->
      Js.get (Js.balances (ps ++ [Person.mk pid nombre]) gs) k
      = Js.get (Js.balances ps gs) k).
Proof.
  intros Hunknown Hsafe.
  pose proof (js_get_init_balances ps pid Hunknown) as Hinit.
  assert (Hext : extends pid (Js.balances ps gs)
                   (Js.balances (ps ++ [Person.mk pid nombre]) gs)).
  { unfold Js.balances. rewrite js_init_balances_app. simpl Person.id.
    assert (H0 : extends pid (Js.init_balances ps) (Js.set (Js.init_balances ps) pid zero)).
    { split.
      - intros k Hk. apply js_get_set_other. congruence.
      - rewrite js_get_set_same by (apply is_inherited_proto, Hsafe).
        unfold Js.get0. rewrite Hinit, Hsafe. reflexivity. }
    revert H0. generalize (Js.init_balances ps) (Js.set (Js.init_balances ps) pid zero).
    induction gs as [|g gs IH]; intros b b' H; [exact H|]. simpl.
    apply IH, extends_apply_gasto; assumption. }
  destruct Hext as [Hother Hpid]. split; [|split].
  - intros Ht.
    pose proof (js_balances_touched (Js.init_balances ps) gs pid Hsafe Ht) as Hsome.
    fold (Js.balances ps gs) in Hsome.
    destruct (Js.get (Js.balances ps gs) pid) as [v|] eqn:E; [|congruence].
    exists v. split; [reflexivity|]. rewrite Hpid. unfold Js.get0. rewrite E. reflexivity.
  - intros Hnone.
    assert (E : Js.get (Js.balances ps gs) pid = None).
    { unfold Js.balances. rewrite js_balances_untouched by assumption. exact Hinit. }
    assert (E0 : Js.get0 (Js.balances ps gs) pid = zero).
    { unfold Js.get0. rewrite E, Hsafe. reflexivity. }
    split; [exact E|]. split; [exact E0|]. rewrite Hpid, E0. reflexivity.
  - exact Hother.
Qed.

Lemma balances_unknown_id_witness :
  (exists v, Js.get (Js.balances ex_personas [js_taxi; js_unknown]) ex_X = Some v
             /\ Js.get (Js.balances (ex_personas ++ [Person.mk ex_X "Xavi"])
                          [js_taxi; js_unknown]) ex_X = Some v)
  /\ Js.get (Js.balances ex_personas [js_taxi]) ex_X = None.
Proof.
  assert (Hx : ~ In ex_X (map Person.id ex_personas)).
  { simpl. intuition discriminate. }
  assert (Hsafe : Js.is_inherited ex_X = false) by reflexivity.
  split.
  - apply (proj1 (balances_unknown_id ex_personas [js_taxi; js_unknown] ex_X "Xavi" Hx Hsafe)).
    exists js_unknown. split; [simpl; auto | reflexivity].
  - apply (proj1 (proj2 (balances_unknown_id ex_personas [js_taxi] ex_X "Xavi" Hx Hsafe))).
    intros g [<-|[]]. reflexivity.
Defined.

(** ** The badges and the two lists *)

Lemma abs_leb_tol (v : float) :
  (abs v <=? Js.tol) = true
  <-> (v <? - Js.tol) = false /\ (Js.tol <? v) = false /\ is_nan v = false.
Proof.
  rewrite is_nan_false, leb_spec, !ltb_spec, abs_spec, opp_spec.
  assert (Ht : exists m e, Prim2SF Js.tol = S754_finite false m e)
    by (eexists; eexists; reflexivity).
  destruct Ht as [mt [et ->]]. unfold SFleb, SFltb.
  destruct (Prim2SF v) as [s|s| |s m e]; simpl.
  - destruct s; simpl; intuition congruence.
  - destruct s; simpl; intuition congruence.
  - intuition congruence.
  - pose proof (Pos.compare_cont_antisym m mt Eq) as Hm. simpl in Hm.
    rewrite (Z.compare_antisym e et), <- Hm.
    destruct s; simpl; destruct (e ?= et)%Z; simpl;
      try destruct (Pos.compare_cont Eq m mt); simpl; intuition congruence.
Qed.

Lemma js_In_get (b : Js.Balances) (k : string) (v : float) :
  NoDup (map fst b) -> In (k, v) b -> Js.get b k = Some v.
Proof.
  induction b as [|[k' v'] b IH]; simpl; [tauto|].
  intros Hnd [Heq|Hin]; inversion Hnd as [|? ? Hnotin Hnd']; subst.
  - injection Heq as -> ->. rewrite String.eqb_refl. reflexivity.
  - destruct (String.eqb k' k) eqn:E.
    + apply String.eqb_eq in E. subst. exfalso. apply Hnotin.
      apply (in_map fst) in Hin. exact Hin.
    + apply IH; assumption.
Qed.

Lemma js_get_In (b : Js.Balances) (k : string) (v : float) :
  Js.get b k = Some v -> In (k, v) b.
Proof.
  induction b as [|[k' v'] b IH]; simpl; [discriminate|].
  destruct (String.eqb k' k) eqn:E.
  - apply String.eqb_eq in E. intros [= ->]. subst. auto.
  - auto.
Qed.

Lemma js_debtors_of_id (b : Js.Balances) (pid : string) (v : float) :
  NoDup (map fst b) -> Js.get b pid = Some v ->
  (In pid (map Js.Entry.id (Js.debtors_of b)) <-> (v <? - Js.tol) = true).
Proof.
  intros Hnd Hget. split.
  - intros H. apply in_map_iff in H. destruct H as [e [<- He]].
    destruct (js_debtors_of_In b e He) as [v' [Hin [Hlt _]]].
    rewrite (js_In_get _ _ _ Hnd Hin) in Hget. injection Hget as <-. exact Hlt.
  - intros Hlt. apply in_map_iff. exists (Js.Entry.mk pid (- v)). split; [reflexivity|].
    unfold Js.debtors_of. apply js_sort_In.
    apply (proj1 (js_In_classify _ pid v (js_In_entries _ _ (js_get_In _ _ _ Hget)))), Hlt.
Qed.

Lemma js_creditors_of_id (b : Js.Balances) (pid : string) (v : float) :
  NoDup (map fst b) -> Js.get b pid = Some v ->
  (In pid (map Js.Entry.id (Js.creditors_of b)) <-> (Js.tol <? v) = true).
Proof.
  intros Hnd Hget. split.
  - intros H. apply in_map_iff in H. destruct H as [e [<- He]].
    destruct (js_creditors_of_In b e He) as [v' [Hin [Hlt _]]].
    rewrite (js_In_get _ _ _ Hnd Hin) in Hget. injection Hget as <-. exact Hlt.
  - intros Hlt. apply in_map_iff. exists (Js.Entry.mk pid v). split; [reflexivity|].
    unfold Js.creditors_of. apply js_sort_In.
    apply (proj2 (js_In_classify _ pid v (js_In_entries _ _ (js_get_In _ _ _ Hget))));
      [|exact Hlt].
    destruct (v <? - Js.tol) eqn:E; [|reflexivity].
    rewrite ltb_opp in E. apply ltb_tol_pos in E, Hlt.
    rewrite ltb_spec in *. rewrite opp_spec in E. rewrite Prim2SF_zero in *.
    unfold SFltb in *. destruct (Prim2SF v) as [s|s| |s m e]; simpl in *;
      try discriminate; destruct s; discriminate.
Qed.

(** X6.  The badge beside a person whose id is a key of the balance object
    agrees with the two lists of the settlement computation: the amount owed
    to the person exactly for a creditor; the amount the person owes for a
    debtor, and otherwise only when the balance is NaN; [OK] exactly for a
    person in neither list whose balance is not NaN. *)
Theorem badge_agrees (b : Js.Balances) (pid : string) (v : float) :
  NoDup (map fst b) ->
  Js.get b pid = Some v ->
  (Js.badge b pid = Js.BadgePlus v \/ Js.badge b pid = Js.BadgeMinus (- v)
   \/ Js.badge b pid = Js.BadgeOK)
  /\ (Js.badge b pid = Js.BadgePlus v <-> In pid (map Js.Entry.id (Js.creditors_of b)))
  /\ (In pid (map Js.Entry.id (Js.debtors_of b)) -> Js.badge b pid = Js.BadgeMinus (- v))
  /\ (Js.badge b pid = Js.BadgeMinus (- v) ->
      In pid (map Js.Entry.id (Js.debtors_of b)) \/ v = nan)
  /\ (Js.badge b pid = Js.BadgeOK
      <-> ~ In pid (map Js.Entry.id (Js.debtors_of b))
          /\ ~ In pid (map Js.Entry.id (Js.creditors_of b))
          /\ v <> nan).
Proof.
  intros Hnd Hget.
  rewrite (js_debtors_of_id b pid v Hnd Hget), (js_creditors_of_id b pid v Hnd Hget).
  unfold Js.badge, Js.get0. rewrite Hget. cbv zeta.
  pose proof (abs_leb_tol v) as Habs.
  assert (Hnan : is_nan v = true <-> v = nan).
  { split; [apply is_nan_eq | intros ->; reflexivity]. }
  assert (Hexcl : (v <? - Js.tol) = true -> (Js.tol <? v) = true -> False).
  { intros E1 E2. rewrite ltb_opp in E1. apply ltb_tol_pos in E1, E2.
    rewrite ltb_spec in *. rewrite opp_spec in E1. rewrite Prim2SF_zero in *.
    unfold SFltb in *. destruct (Prim2SF v) as [s|s| |s m e]; simpl in *;
      try discriminate; destruct s; discriminate. }
  destruct (abs v <=? Js.tol) eqn:Ez.
  - destruct (proj1 Habs eq_refl) as [E1 [E2 E3]]. rewrite E1, E2.
    split; [auto|]. split; [split; discriminate|]. split; [discriminate|].
    split; [discriminate|]. split; [|reflexivity]. intros _.
    repeat split; try discriminate. intros E. apply Hnan in E. congruence.
  - destruct (Js.tol <? v) eqn:E2.
    + split; [auto|]. split; [split; reflexivity|discriminate || auto].
      split; [intros E1; exfalso; apply (Hexcl E1 eq_refl)|].
      split; [discriminate|]. split; [discriminate|]. intros [_ [H _]]. exfalso. auto.
    + split; [auto|]. split; [split; discriminate|]. split; [reflexivity|].
      split.
      * intros _. destruct (v <? - Js.tol) eqn:E1; [left; reflexivity|].
        right. apply Hnan. destruct (is_nan v) eqn:E3; [reflexivity|].
        assert (Hc : false = true) by (apply Habs; auto). discriminate.
      * split; [discriminate|]. intros [H1 [_ H3]]. exfalso.
        destruct (v <? - Js.tol) eqn:E1; [auto|].
        destruct (is_nan v) eqn:E3; [apply H3, Hnan; reflexivity|].
        assert (Hc : false = true) by (apply Habs; auto). discriminate.
Qed.

Lemma badge_agrees_witness :
  Js.badge js_boundary ex_T = Js.BadgePlus 0.0051
  /\ Js.badge js_boundary ex_X = Js.BadgeMinus (- -0.0051)
  /\ (Js.badge js_boundary ex_A = Js.BadgeOK
      <-> ~ In ex_A (map Js.Entry.id (Js.debtors_of js_boundary))
          /\ ~ In ex_A (map Js.Entry.id (Js.creditors_of js_boundary))
          /\ 0.005 <> nan).
Proof.
  assert (Hnd : NoDup (map fst js_boundary)).
  { repeat constructor; simpl; intuition discriminate. }
  split; [|split].
  - apply (proj1 (proj2 (badge_agrees js_boundary ex_T 0.0051 Hnd eq_refl))).
    vm_compute. auto.
  - apply (proj1 (proj2 (proj2 (badge_agrees js_boundary ex_X (-0.0051) Hnd eq_refl)))).
    vm_compute. auto.
  - apply (proj2 (proj2 (proj2 (proj2 (badge_agrees js_boundary ex_A 0.005 Hnd eq_refl))))).
Defined.

(** The badge of a balance that is NaN shows an amount owed, though the
    person is in neither list. *)
Example badge_nan :
  Js.badge js_boundary ex_Y = Js.BadgeMinus nan
  /\ ~ In ex_Y (map Js.Entry.id (Js.debtors_of js_boundary))
  /\ ~ In ex_Y (map Js.Entry.id (Js.creditors_of js_boundary)).
Proof. vm_compute. intuition discriminate. Qed.

End Doubles.

(** ** [balances]: the sum of the values *)

Lemma exact_gastos_payer_once (gs : list Js.Expense.t) (qs : list Expense.t) :
  exact_gastos gs = Some qs ->
  Forall (fun g => (count_occ string_dec (Js.Expense.participantes g)
                      (Js.Expense.pagadorId g) <= 1)%nat) gs ->
  Forall (fun g => skipped g = false ->
            (count_occ string_dec (Expense.participantes g) (Expense.pagadorId g) <= 1)%nat)
         qs.
Proof.
  revert qs. induction gs as [|g gs IH]; intros qs H Hall; simpl in H.
  - injection H as <-. constructor.
  - unfold exact_gasto in H.
    destruct (exact (Js.Expense.monto g)) as [m|]; simpl in H; [|discriminate].
    destruct (exact_gastos gs) as [qs'|]; [|discriminate].
    injection H as <-. inversion Hall; subst. constructor; [simpl; auto|].
    apply IH; [reflexivity | assumption].
Qed.

Lemma exact_balances_sum (b : Js.Balances) (q : Balances) :
  exact_balances b q -> exists s, exact_sum b = Some s /\ s == sum_values q.
Proof.
  induction 1 as [|kv kq b q [_ [v [Hv Hq]]] _ [s [Hs Hsum]]]; simpl.
  - exists 0. split; reflexivity.
  - rewrite Hv, Hs. exists (v + s). split; [reflexivity|]. rewrite Hq, Hsum. reflexivity.
Qed.




(** ** [settlements]: what the transfers settle *)




Lemma debt_left_paid (x : string) (ms : list Move.t) (a : Q) :
  debt_left x ms a == a - paid_by x ms.
Proof.
  unfold debt_left. revert a. induction ms as [|m ms IH]; intros a; simpl; [lra|].
  rewrite IH. destruct (String.eqb (Move.fromId m) x); lra.
Qed.

Lemma credit_left_received (x : string) (ms : list Move.t) (a : Q) :
  credit_left x ms a == a - received_by x ms.
Proof.
  unfold credit_left. revert a. induction ms as [|m ms IH]; intros a; simpl; [lra|].
  rewrite IH. destruct (String.eqb (Move.toId m) x); lra.
Qed.

(** Each transfer pays the smaller of what its debtor still owes and what
    its creditor is still owed when it is pushed. *)
Lemma Pairs_ledger (ds cs : list Entry.t) (ms : list Move.t) :
  Pairs ds cs ms ->
  NoDup (map Entry.id ds) -> NoDup (map Entry.id cs) ->
  forall ms1 m ms2, ms = ms1 ++ m :: ms2 ->
    Move.amount m
    == Qmin (owed ds (Move.fromId m) - paid_by (Move.fromId m) ms1)
            (owed cs (Move.toId m) - received_by (Move.toId m) ms1).
Proof.
  induction 1 as [cs|ds|d c ds cs pay rest Hpay Hd Hc Hp IH
                 |d c ds cs pay rest Hpay Hd Hc Hp IH
                 |d c ds cs pay rest Hpay Hd Hc Hp IH]; intros Hnd Hnc ms1 m ms2 E.
  1,2: destruct ms1; discriminate.
  all: inversion Hnd as [|? ? Hdn Hnd']; inversion Hnc as [|? ? Hcn Hnc']; subst.
  all: destruct (owed_absent ds _ Hdn) as [Hd0 _]; destruct (owed_absent cs _ Hcn) as [Hc0 _].
  all: destruct ms1 as [|m0 ms1]; simpl in E; injection E as E1 E2; subst.
  1,3,5: simpl; rewrite !String.eqb_refl, Hd0, Hc0; apply Q.min_compat; lra.
  all: assert (Hin : In m (ms1 ++ m :: ms2)) by apply in_elt.
  all: pose proof (Pairs_ids _ _ _ Hp) as Hids; rewrite Forall_forall in Hids;
    destruct (Hids m Hin) as [Hf Ht]; clear Hids.
  - rewrite (IH Hnd' Hnc' ms1 m ms2 eq_refl). simpl.
    destruct (String.eqb (Entry.id d) (Move.fromId m)) eqn:E1;
      [apply String.eqb_eq in E1; rewrite <- E1 in Hf; contradiction|].
    destruct (String.eqb (Entry.id c) (Move.toId m)) eqn:E2;
      [apply String.eqb_eq in E2; rewrite <- E2 in Ht; contradiction|].
    apply Q.min_compat; lra.
  - assert (Hnc2 : NoDup (map Entry.id
                      (Entry.mk (Entry.id c)
                         (Entry.amount c - Qmin (Entry.amount d) (Entry.amount c)) :: cs)))
      by (simpl; constructor; assumption).
    rewrite (IH Hnd' Hnc2 ms1 m ms2 eq_refl). simpl.
    destruct (String.eqb (Entry.id d) (Move.fromId m)) eqn:E1;
      [apply String.eqb_eq in E1; rewrite <- E1 in Hf; contradiction|].
    destruct (String.eqb (Entry.id c) (Move.toId m)); apply Q.min_compat; lra.
  - assert (Hnd2 : NoDup (map Entry.id
                      (Entry.mk (Entry.id d)
                         (Entry.amount d - Qmin (Entry.amount d) (Entry.amount c)) :: ds)))
      by (simpl; constructor; assumption).
    rewrite (IH Hnd2 Hnc' ms1 m ms2 eq_refl). simpl.
    destruct (String.eqb (Entry.id c) (Move.toId m)) eqn:E2;
      [apply String.eqb_eq in E2; rewrite <- E2 in Ht; contradiction|].
    destruct (String.eqb (Entry.id d) (Move.fromId m)); apply Q.min_compat; lra.
Qed.




